(** * RexDB client data layer: Resource cache and GraphQL query synthesis

    A shallow embedding of

    - [js/rex-graphql/Resource.js]: the Suspense-style resource cache
      ([define], [fetch], [perform], [clearAllCaches],
      [unstable_useResource]), and
    - the introspection module of rex-ui/rapid ([buildQueryAST],
      [buildSelectionSet], [resolveField], [buildTypeNode], ...),

    together with the properties of these functions that the design
    document states. *)

From Stdlib Require Import Ascii String ZArith.
From stdpp Require Import gmap strings list fin_maps pretty.

Local Open Scope string_scope.
Local Open Scope list_scope.
Local Set Warnings "-register-all,-clear-no-such-hyp".

(** ** JSON values and [JSON.stringify] *)

Module Json.

(** A parameter value as [JSON.stringify] sees it.  An object is the list
    of its own enumerable properties in the order in which they were
    inserted, every key once; the order in which they are enumerated is
    [ownProperties] below.  A number is an integer; [stringify] prints it
    as JavaScript does as long as it is a safe integer (at most 2^53 - 1
    in absolute value), see [JsonShape.plainData]. *)
Inductive value : Type :=
| Null
| Bool (b : bool)
| Num (n : Z)
| Str (s : string)
| Arr (items : list value)
| Obj (props : list (string * value)).

Definition dquote : string := String "034"%char EmptyString.

Definition hexDigit (n : nat) : ascii :=
  match n with
  | 0 => "0" | 1 => "1" | 2 => "2" | 3 => "3" | 4 => "4" | 5 => "5"
  | 6 => "6" | 7 => "7" | 8 => "8" | 9 => "9" | 10 => "a" | 11 => "b"
  | 12 => "c" | 13 => "d" | 14 => "e" | _ => "f"
  end%char.

(** QuoteJSONString of ECMA-262, one code unit at a time. *)
Definition escapeChar (c : ascii) : string :=
  let n := nat_of_ascii c in
  if decide (n = 34) then "\" +:+ dquote
  else if decide (n = 92) then "\\"
  else if decide (n = 8) then "\b"
  else if decide (n = 9) then "\t"
  else if decide (n = 10) then "\n"
  else if decide (n = 12) then "\f"
  else if decide (n = 13) then "\r"
  else if decide (n < 32) then
    "\u00" +:+ String (hexDigit (n / 16)) (String (hexDigit (n mod 16)) EmptyString)
  else String c EmptyString.

Fixpoint escape (s : string) : string :=
  match s with
  | EmptyString => EmptyString
  | String c s' => escapeChar c +:+ escape s'
  end.

Definition quote (s : string) : string := dquote +:+ escape s +:+ dquote.

Fixpoint join (sep : string) (parts : list string) : string :=
  match parts with
  | [] => EmptyString
  | [p] => p
  | p :: rest => p +:+ sep +:+ join sep rest
  end.

Definition isDecimalDigit (c : ascii) : bool :=
  let n := nat_of_ascii c in Nat.leb 48 n && Nat.leb n 57.

Fixpoint decimalValue (s : string) (acc : N) : option N :=
  match s with
  | EmptyString => Some acc
  | String c s' =>
      if isDecimalDigit c
      then decimalValue s' (10 * acc + (N_of_ascii c - 48))%N
      else None
  end.

(** An array index of ECMA-262: a key that is the canonical decimal
    numeral of an integer from 0 to 2^32 - 2. *)
Definition arrayIndex (key : string) : option N :=
  match key with
  | EmptyString => None
  | String c rest =>
      if Ascii.eqb c "0" && negb (String.eqb rest EmptyString) then None
      else
        match decimalValue key 0 with
        | Some n => if (n <? 4294967295)%N then Some n else None
        | None => None
        end
  end.

Fixpoint insertIndexed {A} (n : N) (prop : string * A)
    (sorted : list (N * (string * A))) : list (N * (string * A)) :=
  match sorted with
  | [] => [(n, prop)]
  | (m, q) :: rest =>
      if (n <? m)%N then (n, prop) :: (m, q) :: rest
      else (m, q) :: insertIndexed n prop rest
  end.

Definition indexedProperties {A} (props : list (string * A)) : list (N * (string * A)) :=
  fold_left
    (fun sorted prop =>
       match arrayIndex (fst prop) with
       | Some n => insertIndexed n prop sorted
       | None => sorted
       end)
    props [].

(** OrdinaryOwnPropertyKeys of ECMA-262, the order in which
    [JSON.stringify] visits the properties of an object: the array
    indices in ascending order, then the other keys in the order in
    which they were inserted. *)
Definition ownProperties {A} (props : list (string * A)) : list (string * A) :=
  map snd (indexedProperties props)
  ++ List.filter
       (fun prop => match arrayIndex (fst prop) with Some _ => false | None => true end)
       props.

(** [JSON.stringify(v)] without indentation. *)
Fixpoint stringify (v : value) : string :=
  match v with
  | Null => "null"
  | Bool true => "true"
  | Bool false => "false"
  | Num n => pretty n
  | Str s => quote s
  | Arr items => "[" +:+ join "," (map stringify items) +:+ "]"
  | Obj props =>
      "{" +:+ join ","
                (map (fun kv => quote (fst kv) +:+ ":" +:+ snd kv)
                   (ownProperties (map (fun kv => (fst kv, stringify (snd kv))) props)))
          +:+ "}"
  end.

(** JavaScript truthiness, as used by [params || {}].  [None] is
    [undefined]. *)
Definition truthy (p : option value) : bool :=
  match p with
  | None => false
  | Some Null => false
  | Some (Bool b) => b
  | Some (Num n) => negb (Z.eqb n 0)
  | Some (Str s) => negb (String.eqb s EmptyString)
  | Some (Arr _) => true
  | Some (Obj _) => true
  end.

(** [params || {}] *)
Definition orEmptyObject (p : option value) : value :=
  match p with
  | Some v => if truthy p then v else Obj []
  | None => Obj []
  end.

(** [let key = JSON.stringify(params || {})] *)
Definition cacheKey (p : option value) : string := stringify (orEmptyObject p).

(** The content of an object as a finite map from keys to values. *)
Definition asMap (v : value) : option (gmap string value) :=
  match v with
  | Obj props => Some (list_to_map props)
  | _ => None
  end.

(** Two parameter values are equal as key-value maps: both are objects
    and every key has the same value in both, in whatever order the keys
    are listed. *)
Definition sameMap (v1 v2 : value) : Prop :=
  exists m, asMap v1 = Some m /\ asMap v2 = Some m.

End Json.

(** ** The resource cache of [rex-graphql/Resource.js] *)

Module ResourceCache.

(** A resource is a JavaScript object; it is identified by its position
    in [resourceRegistry], where [define] puts every resource it
    creates. *)
Abbreviation ResourceId := (nat).

(** Promises are identified by the number of the call of [config.fetch]
    they stem from. *)
Abbreviation PromiseId := (nat).

(** A listener is the [refetch] closure a mounted reader adds to
    [resource.subcriptions]. *)
Abbreviation Listener := (nat).

Abbreviation Params := (option Json.value).

Inductive CachePolicy : Type := Regular | NoClear.

(** How often [c] occurs in a log. *)
Definition occurrences {A : Type} `{EqDecision A} (c : A) (log : list A) : nat :=
  length (filter (fun c' => c' = c) log).

Section Cache.

(** Fetched values and rejection reasons are opaque to the cache. *)
Context {V E : Type}.

Inductive ResourceState : Type :=
| Init
| InProgress (promise : PromiseId)
| Completed (value : V)
| Error (error : E).

Record Resource : Type := mkResource {
  cachePolicy : option CachePolicy;
  cache : gmap string ResourceState;
  subcriptions : gset Listener
}.

(** What runs when the promise returned by [config.fetch] settles:
    nothing of this module ([Forward]), the two callbacks given to [.then]
    in [unstable_useResource_impl], which write into the [cache] map they
    closed over, or the callback of [perform]. *)
Inductive Reaction : Type :=
| Forward
| CacheWrite (resource : ResourceId) (key : string)
| AfterPerform.

(** The state of the module and of the outside world it talks to.
    [fetchCalls] lists the invocations of [config.fetch] (oldest first),
    [notifications] the invocations of listeners, [settled] the outcomes
    of the promises handed out by this module. *)
Record World : Type := mkWorld {
  resourceRegistry : list Resource;
  fetchCalls : list (ResourceId * Params);
  pending : gmap PromiseId Reaction;
  settled : gmap PromiseId (V + E);
  notifications : list (ResourceId * Listener)
}.

Definition emptyWorld : World := mkWorld [] [] ∅ ∅ [].

Definition setRegistry (rs : list Resource) (w : World) : World :=
  mkWorld rs (fetchCalls w) (pending w) (settled w) (notifications w).

(** [define(config)] *)
Definition define (policy : option CachePolicy) (w : World) : World * ResourceId :=
  let resource := mkResource policy ∅ ∅ in
  (setRegistry (resourceRegistry w ++ [resource]) w, length (resourceRegistry w)).

(** [resourceState(resource, params)] *)
Definition resourceState (resource : Resource) (params : Params) : ResourceState :=
  let key := Json.cacheKey params in
  match cache resource !! key with
  | None => Init
  | Some state => state
  end.

(** [cache.set(key, state)] on the cache of resource [i]. *)
Definition cacheSet (i : ResourceId) (key : string) (state : ResourceState)
    (w : World) : World :=
  setRegistry
    (alter (fun r => mkResource (cachePolicy r) (<[key := state]> (cache r)) (subcriptions r))
       i (resourceRegistry w)) w.

(** [resource.config.fetch(params)]: the call is logged and the promise it
    returns is pending, with no callback attached yet. *)
Definition callFetch (i : ResourceId) (params : Params) (w : World)
    : World * PromiseId :=
  let promise := length (fetchCalls w) in
  (mkWorld (resourceRegistry w) (fetchCalls w ++ [(i, params)])
     (<[promise := Forward]> (pending w)) (settled w) (notifications w),
   promise).

(** [promise.then(...)]: the callbacks are attached; the promise [then]
    returns is the one the module hands out, under the same name. *)
Definition attach (promise : PromiseId) (reaction : Reaction) (w : World) : World :=
  mkWorld (resourceRegistry w) (fetchCalls w)
    (<[promise := reaction]> (pending w)) (settled w) (notifications w).

(** The body of the loop of [clearAllCaches] for one resource: the
    cleared resource and the listeners called. *)
Definition clearResource (i : ResourceId) (resource : Resource)
    : Resource * list (ResourceId * Listener) :=
  match cachePolicy resource with
  | Some NoClear => (resource, [])
  | _ =>
      (mkResource (cachePolicy resource) ∅ (subcriptions resource),
       map (pair i) (elements (subcriptions resource)))
  end.

(** [for (let resource of resourceRegistry) { ... }], counting from
    position [i]. *)
Fixpoint clearLoop (i : ResourceId) (rs : list Resource)
    : list Resource * list (ResourceId * Listener) :=
  match rs with
  | [] => ([], [])
  | resource :: rest =>
      let '(resource', calls) := clearResource i resource in
      let '(rest', calls') := clearLoop (S i) rest in
      (resource' :: rest', calls ++ calls')
  end.

(** [clearAllCaches()].  The listeners only schedule a re-render
    ([setEpoch]) and run inside [ReactDOM.unstable_batchedUpdates]; the
    reads of that re-render are reads of their own, after the loop. *)
Definition clearAllCaches (w : World) : World :=
  let '(rs, calls) := clearLoop 0 (resourceRegistry w) in
  mkWorld rs (fetchCalls w) (pending w) (settled w) (notifications w ++ calls).

(** What a call of the hook does: return a value, throw the pending
    promise (suspend), or throw the cached error. *)
Inductive ReadResult : Type :=
| Returned (value : V)
| Suspended (promise : PromiseId)
| Raised (error : E).

(** [unstable_useResource_impl(resource, params, resource.cache)], up to
    the end of the [switch].  The effect that follows it on the
    [completed] path is [subscribe] below. *)
Definition unstable_useResource_impl (i : ResourceId) (resource : Resource)
    (params : Params) (w : World) : World * ReadResult :=
  let key := Json.cacheKey params in
  let state :=
    match cache resource !! key with
    | None => Init
    | Some state => state
    end in
  match state with
  | Init =>
      let '(w1, promise) := callFetch i params w in
      let w2 := attach promise (CacheWrite i key) w1 in
      (cacheSet i key (InProgress promise) w2, Suspended promise)
  | InProgress promise => (w, Suspended promise)
  | Completed value => (w, Returned value)
  | Error error => (w, Raised error)
  end.

(** [unstable_useResource(resource, params)].  [None] only when [i]
    names no resource, which no JavaScript caller can express. *)
Definition unstable_useResource (i : ResourceId) (params : Params) (w : World)
    : option (World * ReadResult) :=
  match resourceRegistry w !! i with
  | Some resource => Some (unstable_useResource_impl i resource params w)
  | None => None
  end.

(** [resource.subcriptions.add(refetch)], the effect of a mounted reader,
    and its cleanup [resource.subcriptions.delete(refetch)]. *)
Definition subscribe (i : ResourceId) (l : Listener) (w : World) : World :=
  setRegistry
    (alter (fun r => mkResource (cachePolicy r) (cache r) ({[l]} ∪ subcriptions r))
       i (resourceRegistry w)) w.

Definition unsubscribe (i : ResourceId) (l : Listener) (w : World) : World :=
  setRegistry
    (alter (fun r => mkResource (cachePolicy r) (cache r) (subcriptions r ∖ {[l]}))
       i (resourceRegistry w)) w.

(** [fetch(resource, params)] *)
Definition fetch (i : ResourceId) (params : Params) (w : World) : World * PromiseId :=
  callFetch i params w.

(** [perform(mutation, params)]:
    [fetch(mutation, params).then(data => { clearAllCaches(); return data; })] *)
Definition perform (i : ResourceId) (params : Params) (w : World) : World * PromiseId :=
  let '(w1, promise) := fetch i params w in
  (attach promise AfterPerform w1, promise).

(** The promise [promise] is done: it leaves [pending] and its outcome
    is what its holders observe. *)
Definition resolve (promise : PromiseId) (outcome : V + E) (w : World) : World :=
  mkWorld (resourceRegistry w) (fetchCalls w) (delete promise (pending w))
    (<[promise := outcome]> (settled w)) (notifications w).

(** The fetch behind [promise] settles with [outcome]; the attached
    reaction runs and then the promise handed out is resolved. *)
Definition settle (promise : PromiseId) (outcome : V + E) (w : World) : World :=
  match pending w !! promise with
  | None => w
  | Some Forward => resolve promise outcome w
  | Some (CacheWrite i key) =>
      match outcome with
      | inl value => resolve promise outcome (cacheSet i key (Completed value) w)
      | inr error => resolve promise outcome (cacheSet i key (Error error) w)
      end
  | Some AfterPerform =>
      match outcome with
      | inl value => resolve promise outcome (clearAllCaches w)
      | inr error => resolve promise outcome w
      end
  end.

(** [n] reads of the same resource and parameters in a row, nothing
    else happening in between. *)
Fixpoint reads (n : nat) (i : ResourceId) (params : Params) (w : World)
    : option (World * list ReadResult) :=
  match n with
  | 0 => Some (w, [])
  | S n' =>
      match unstable_useResource i params w with
      | None => None
      | Some (w1, result) =>
          match reads n' i params w1 with
          | None => None
          | Some (w2, results) => Some (w2, result :: results)
          end
      end
  end.

(** How often listener [l] of resource [i] has been called. *)
Definition timesCalled (i : ResourceId) (l : Listener) (w : World) : nat :=
  occurrences (i, l) (notifications w).

(** The state of [params] in the cache of resource [i]. *)
Definition stateOf (i : ResourceId) (params : Params) (w : World) : option ResourceState :=
  match resourceRegistry w !! i with
  | Some resource => Some (resourceState resource params)
  | None => None
  end.

End Cache.

Arguments ResourceState : clear implicits.
Arguments Resource : clear implicits.
Arguments World : clear implicits.
Arguments ReadResult : clear implicits.

End ResourceCache.

(** ** Ordered dictionaries

    A JavaScript [Map], and an object whose keys are not array indices
    (GraphQL names never are), enumerate their entries in insertion order;
    writing to a key that is present keeps its place. *)

Module Dict.

Section Dict.
Context {A : Type}.

Fixpoint get (k : string) (d : list (string * A)) : option A :=
  match d with
  | [] => None
  | (k', v) :: d' => if String.eqb k k' then Some v else get k d'
  end.

Fixpoint set (k : string) (v : A) (d : list (string * A)) : list (string * A) :=
  match d with
  | [] => [(k, v)]
  | (k', v') :: d' =>
      if String.eqb k k' then (k, v) :: d' else (k', v') :: set k v d'
  end.

Definition keys (d : list (string * A)) : list string := map fst d.
Definition values (d : list (string * A)) : list A := map snd d.

End Dict.

End Dict.

(** ** Query synthesis from an introspected schema *)

Module Introspection.

(** *** Introspection data (graphql/utilities/introspectionQuery) *)

Inductive Kind : Type :=
| SCALAR | OBJECT | INTERFACE | UNION | ENUM | INPUT_OBJECT.

Definition kindName (kind : Kind) : string :=
  match kind with
  | SCALAR => "SCALAR"
  | OBJECT => "OBJECT"
  | INTERFACE => "INTERFACE"
  | UNION => "UNION"
  | ENUM => "ENUM"
  | INPUT_OBJECT => "INPUT_OBJECT"
  end.

Inductive TypeRef : Type :=
| Named (kind : Kind) (name : string)
| LIST (ofType : TypeRef)
| NON_NULL (ofType : TypeRef).

Record InputValue : Type := mkInputValue {
  arg_name : string;
  arg_type : TypeRef
}.

Record Field : Type := mkField {
  field_name : string;
  field_description : option string;
  field_args : list InputValue;
  field_type : TypeRef
}.

(** An entry of [schema.types]; [type_fields] is empty for the kinds that
    have no fields. *)
Record IntrospectionType : Type := mkType {
  type_kind : Kind;
  type_name : string;
  type_fields : list Field
}.

Record IntrospectionSchema : Type := mkSchema {
  types : list IntrospectionType;
  queryType : string
}.

(** *** Field specifications (Field.js) *)

Inductive QueryFieldSpec : Type :=
| mkQuery (field : string) (require : option (list QueryFieldSpec)).

Definition query_field (q : QueryFieldSpec) : string :=
  match q with mkQuery field _ => field end.

Definition query_require (q : QueryFieldSpec) : option (list QueryFieldSpec) :=
  match q with mkQuery _ require => require end.

Record FieldSpec : Type := mkFieldSpec {
  title : string;
  require : QueryFieldSpec
}.

(** *** The query AST (graphql/language/ast), as far as it is built *)

Inductive TypeNode : Type :=
| NamedType (name : string)
| ListType (type : TypeNode)
| NonNullType (type : TypeNode).

(** [{kind: "Argument", name, value: {kind: "Variable", name}}] *)
Record ArgumentNode : Type := mkArgument {
  argument_name : string;
  argument_variable : string
}.

Record VariableDefinitionNode : Type := mkVariableDefinition {
  variable : string;
  variable_type : TypeNode
}.

(** A field node with its selection set; nodes built without an
    [arguments] property have the empty list. *)
Inductive FieldNode : Type :=
| FieldN (name : string) (arguments : list ArgumentNode) (selections : list FieldNode).

Definition node_name (n : FieldNode) : string :=
  match n with FieldN name _ _ => name end.

Definition SelectionSetNode := list FieldNode.

Record OperationDefinitionNode : Type := mkOperation {
  operation_name : string;
  selectionSet : SelectionSetNode;
  variableDefinitions : list VariableDefinitionNode
}.

(** *** Errors *)

Inductive Exception : Type :=
| ConfigError (message : string)
| InvariantViolation (message : string).

Inductive Result (A : Type) : Type :=
| Ok (a : A)
| Throw (e : Exception).
Arguments Ok {A} a.
Arguments Throw {A} e.

#[global] Instance Result_ret : MRet Result := fun A a => Ok a.
#[global] Instance Result_bind : MBind Result := fun A B f m =>
  match m with
  | Ok a => f a
  | Throw e => Throw e
  end.

(** [xs.map(f)] for an [f] that may throw: the first failure wins. *)
Fixpoint mapR {A B : Type} (f : A -> Result B) (xs : list A) : Result (list B) :=
  match xs with
  | [] => Ok []
  | x :: xs' => y ← f x; ys ← mapR f xs'; Ok (y :: ys)
  end.

Definition isConfigError {A : Type} (r : Result A) : bool :=
  match r with
  | Throw (ConfigError _) => true
  | _ => false
  end.

(** *** The builders *)

Definition quoted (s : string) : string := Json.dquote +:+ s +:+ Json.dquote.

(** [makeSelectionSetFromQueryFieldSpec] *)
Fixpoint makeSelectionSetFromQueryFieldSpec (queryFieldSpec : QueryFieldSpec)
    : SelectionSetNode :=
  match queryFieldSpec with
  | mkQuery _ None => []
  | mkQuery _ (Some requires) =>
      map (fun query =>
             FieldN (query_field query) [] (makeSelectionSetFromQueryFieldSpec query))
          requires
  end.

(** [makeSelectionSetFromSpec] *)
Definition makeSelectionSetFromSpec (fieldSpec : FieldSpec) : SelectionSetNode :=
  match query_require (require fieldSpec) with
  | None => []
  | Some requires =>
      map (fun obj => FieldN (query_field obj) [] (makeSelectionSetFromQueryFieldSpec obj))
          requires
  end.

(** [buildArgumentNode] *)
Definition buildArgumentNode (introInputValue : InputValue) : ArgumentNode :=
  mkArgument (arg_name introInputValue) (arg_name introInputValue).

(** [buildTypeNode] *)
Fixpoint buildTypeNode (introType : TypeRef) : Result TypeNode :=
  match introType with
  | NON_NULL ofType =>
      type ← buildTypeNode ofType;
      match type with
      | NonNullType _ => Throw (InvariantViolation "Nested NonNullType is not possible")
      | _ => Ok (NonNullType type)
      end
  | LIST ofType => type ← buildTypeNode ofType; Ok (ListType type)
  | Named INPUT_OBJECT name => Ok (NamedType name)
  | Named ENUM name => Ok (NamedType name)
  | Named SCALAR name => Ok (NamedType name)
  | Named kind _ =>
      Throw (InvariantViolation
               ("Unknown GraphQL introspection type: " +:+ kindName kind))
  end.

(** [buildVariableDefinitionNode] *)
Definition buildVariableDefinitionNode (introInputValue : InputValue)
    : Result VariableDefinitionNode :=
  type ← buildTypeNode (arg_type introInputValue);
  Ok (mkVariableDefinition (arg_name introInputValue) type).

(** [isFieldNodeScalarLike] *)
Definition isFieldNodeScalarLike (field : Field) : bool :=
  match field_type field with
  | Named SCALAR _ => true
  | NON_NULL (Named SCALAR _) => true
  | _ => false
  end.

Definition noTypeMessage (type : IntrospectionType) (fieldName : string) : string :=
  "No type for field " +:+ quoted (type_name type +:+ "." +:+ fieldName) +:+ " found".

(** The inner function [resolveType] of [resolveField]. *)
Fixpoint resolveType (typesMap : gmap string IntrospectionType)
    (type : IntrospectionType) (fieldName : string) (typeRef : TypeRef)
    : Result IntrospectionType :=
  let lookup (name : string) : Result IntrospectionType :=
    match typesMap !! name with
    | Some nextType => Ok nextType
    | None => Throw (InvariantViolation (noTypeMessage type fieldName))
    end in
  match typeRef with
  | NON_NULL ofType => resolveType typesMap type fieldName ofType
  | LIST ofType => resolveType typesMap type fieldName ofType
  | Named ENUM name => lookup name
  | Named SCALAR _ => Throw (InvariantViolation (noTypeMessage type fieldName))
  | Named UNION name => lookup name
  | Named INTERFACE name => lookup name
  | Named OBJECT name => lookup name
  | Named INPUT_OBJECT _ => Throw (InvariantViolation "Impossible")
  end.

Definition isObject (type : IntrospectionType) : bool :=
  match type_kind type with
  | OBJECT => true
  | _ => false
  end.

(** [type.fields.find(f => f.name === fieldName)] *)
Definition findField (type : IntrospectionType) (fieldName : string) : option Field :=
  find (fun f => String.eqb (field_name f) fieldName) (type_fields type).

(** [resolveField] *)
Definition resolveField (typesMap : gmap string IntrospectionType)
    (type : IntrospectionType) (fieldName : string)
    : Result (Field * IntrospectionType) :=
  match findField type fieldName with
  | None =>
      Throw (ConfigError
        ("No field " +:+ quoted (type_name type +:+ "." +:+ fieldName) +:+ " found"))
  | Some field =>
      nextType ← resolveType typesMap type fieldName (field_type field);
      if isObject nextType then Ok (field, nextType)
      else Throw (ConfigError "Expected object type for nextType.kind")
  end.

Definition COMMON_NAMES : list string :=
  ["id"; "name"; "first_name"; "last_name"; "title"; "display_name"; "gender"; "sex"].

(** The five values [buildSelectionSet] returns. *)
Record Selection : Type := mkSelection {
  sel_selectionSet : SelectionSetNode;
  sel_selections : list FieldNode;
  sel_inputValues : list InputValue;
  sel_fieldSpecs : list (string * FieldSpec);
  sel_description : option string
}.

(** [for (let name in fieldSpecsRequested) fieldSpecsMap.set(fieldSpec.require.field, fieldSpec)] *)
Definition requestedSpecsMap (fieldSpecsRequested : list (string * FieldSpec))
    : list (string * FieldSpec) :=
  fold_left
    (fun fieldSpecsMap entry =>
       Dict.set (query_field (require (snd entry))) (snd entry) fieldSpecsMap)
    fieldSpecsRequested [].

(** [type.fields.filter(field => fieldSpecsMap.get(field.name) || field.name === "id")] *)
Definition requestedFieldIntros (fieldSpecsMap : list (string * FieldSpec))
    (type : IntrospectionType) : list Field :=
  List.filter
    (fun field =>
       match Dict.get (field_name field) fieldSpecsMap with
       | Some _ => true
       | None => String.eqb (field_name field) "id"
       end)
    (type_fields type).

(** The loop that collects the specs of the selected fields' nodes. *)
Definition selectField (fieldSpecsMap : list (string * FieldSpec)) (field : Field)
    : Result FieldNode :=
  let args := map buildArgumentNode (field_args field) in
  fieldSpec ←
    match Dict.get (field_name field) fieldSpecsMap with
    | Some fieldSpec => Ok fieldSpec
    | None =>
        if String.eqb (field_name field) "id"
        then Ok (mkFieldSpec "ID" (mkQuery "id" None))
        else Throw (ConfigError ("Missing field spec for " +:+ field_name field))
    end;
  Ok (FieldN (field_name field) args (makeSelectionSetFromSpec fieldSpec)).

Section Builder.

(** [Field.guessFieldTitle], which turns a field name into a title. *)
Variable guessFieldTitle : string -> string.

(** [for (let field of type.fields) { if (!isFieldNodeScalarLike(field)) continue; ... }] *)
Definition scalarFieldsLoop (fields : list Field)
    : list Field * list (string * FieldSpec) :=
  fold_left
    (fun acc field =>
       if isFieldNodeScalarLike field then
         let spec :=
           mkFieldSpec (guessFieldTitle (field_name field))
                       (mkQuery (field_name field) None) in
         (fst acc ++ [field], Dict.set (field_name field) spec (snd acc))
       else acc)
    fields ([], []).

(** [for (let name of COMMON_NAMES) { ... fieldSpecs[name] = spec; seen.add(name); }] *)
Definition commonNamesLoop (fieldSpecsMap : list (string * FieldSpec))
    : list (string * FieldSpec) * gset string :=
  fold_left
    (fun acc name =>
       match Dict.get name fieldSpecsMap with
       | None => acc
       | Some spec => (Dict.set name spec (fst acc), {[name]} ∪ snd acc)
       end)
    COMMON_NAMES ([], ∅).

(** [for (let spec of fieldSpecsMap.values()) if (!seen.has(spec.require.field)) ...] *)
Definition remainingLoop (fieldSpecsMap : list (string * FieldSpec))
    (seen : gset string) (fieldSpecs : list (string * FieldSpec))
    : list (string * FieldSpec) :=
  fold_left
    (fun fieldSpecs spec =>
       if bool_decide (query_field (require spec) ∈ seen) then fieldSpecs
       else Dict.set (query_field (require spec)) spec fieldSpecs)
    (Dict.values fieldSpecsMap) fieldSpecs.

(** The branch [path.length === 0] of [buildSelectionSet]. *)
Definition buildTargetSelection (type : IntrospectionType)
    (fieldSpecsRequested : option (list (string * FieldSpec))) : Result Selection :=
  let '(fieldSpecsMap, fieldIntros, fieldSpecs) :=
    match fieldSpecsRequested with
    | Some requested =>
        let fieldSpecsMap := requestedSpecsMap requested in
        (fieldSpecsMap, requestedFieldIntros fieldSpecsMap type, requested)
    | None =>
        let '(fieldIntros, fieldSpecsMap) := scalarFieldsLoop (type_fields type) in
        let '(fieldSpecs, seen) := commonNamesLoop fieldSpecsMap in
        (fieldSpecsMap, fieldIntros, remainingLoop fieldSpecsMap seen fieldSpecs)
    end in
  selections ← mapR (selectField fieldSpecsMap) fieldIntros;
  Ok (mkSelection selections selections (concat (map field_args fieldIntros))
        fieldSpecs None).

(** [buildSelectionSet] *)
Fixpoint buildSelectionSet (typesMap : gmap string IntrospectionType)
    (type : IntrospectionType) (path : list string)
    (fieldSpecsRequested : option (list (string * FieldSpec))) : Result Selection :=
  match path with
  | [] => buildTargetSelection type fieldSpecsRequested
  | fieldName :: restPath =>
      '(field, fieldType) ← resolveField typesMap type fieldName;
      let args := map buildArgumentNode (field_args field) in
      let inputValues := field_args field in
      next ← buildSelectionSet typesMap fieldType restPath fieldSpecsRequested;
      Ok (mkSelection
            [FieldN fieldName args (sel_selectionSet next)]
            (sel_selections next)
            (inputValues ++ sel_inputValues next)
            (sel_fieldSpecs next)
            (field_description field))
  end.

(** What [buildQueryAST] returns: the operation of the document,
    [columns], the types map, the field specs and the description. *)
Record QueryAST : Type := mkQueryAST {
  queryDefinition : OperationDefinitionNode;
  columns : list FieldNode;
  introspectionTypesMap : gmap string IntrospectionType;
  fieldSpecsUpdated : list (string * FieldSpec);
  description : option string
}.

(** [for (let t of schema.types) typesMap.set(t.name, t)] *)
Definition buildTypesMap (schema : IntrospectionSchema) : gmap string IntrospectionType :=
  fold_left (fun typesMap t => <[type_name t := t]> typesMap) (types schema) ∅.

(** [buildQueryAST], given the path as [QueryPath.toArray] returns it. *)
Definition buildQueryAST (schema : IntrospectionSchema) (path : list string)
    (fieldSpecsRequested : option (list (string * FieldSpec))) : Result QueryAST :=
  let typesMap := buildTypesMap schema in
  match typesMap !! queryType schema with
  | None => Throw (ConfigError "Expected ObjectType at the root")
  | Some rootType =>
      if isObject rootType then
        sel ← buildSelectionSet typesMap rootType path fieldSpecsRequested;
        definitions ← mapR buildVariableDefinitionNode (sel_inputValues sel);
        Ok (mkQueryAST
              (mkOperation "ConstructedQuery" (sel_selectionSet sel) definitions)
              (sel_selections sel) typesMap (sel_fieldSpecs sel) (sel_description sel))
      else Throw (ConfigError "Expected rootType as OBJECT at the root")
  end.

End Builder.

(** Strip the LIST and NON_NULL wrappers of a type reference. *)
Fixpoint namedType (typeRef : TypeRef) : Kind * string :=
  match typeRef with
  | Named kind name => (kind, name)
  | LIST ofType => namedType ofType
  | NON_NULL ofType => namedType ofType
  end.

(** *** The design document's account of the arguments met

    The path is walked hop by hop from the root type; each hop resolves
    a field and continues into its object type. *)
Fixpoint walkPath (typesMap : gmap string IntrospectionType)
    (type : IntrospectionType) (path : list string)
    : Result (list Field * IntrospectionType) :=
  match path with
  | [] => Ok ([], type)
  | fieldName :: restPath =>
      '(field, fieldType) ← resolveField typesMap type fieldName;
      '(fields, target) ← walkPath typesMap fieldType restPath;
      Ok (field :: fields, target)
  end.

(** The fields selected at the target type: with a configuration, those
    some entry requires and [id]; without, the scalar-like ones. *)
Definition selectedFields (type : IntrospectionType)
    (fieldSpecsRequested : option (list (string * FieldSpec))) : list Field :=
  match fieldSpecsRequested with
  | Some requested => requestedFieldIntros (requestedSpecsMap requested) type
  | None => List.filter isFieldNodeScalarLike (type_fields type)
  end.

(** Every argument met: those of the hops in path order, then those of
    each selected field of the target type. *)
Definition argumentsEncountered (hops : list Field) (target : IntrospectionType)
    (fieldSpecsRequested : option (list (string * FieldSpec))) : list InputValue :=
  concat (map field_args hops) ++
  concat (map field_args (selectedFields target fieldSpecsRequested)).

(** The spec of a field that is selected without a configuration. *)
Definition guessedSpec (guessFieldTitle : string -> string) (name : string) : FieldSpec :=
  mkFieldSpec (guessFieldTitle name) (mkQuery name None).

(** Some entry of a field-spec mapping is about the field [name]: it is
    filed under [name] or requires [name]. *)
Definition mentionsField (name : string) (fieldSpecs : list (string * FieldSpec)) : bool :=
  existsb
    (fun entry =>
       String.eqb (fst entry) name || String.eqb (query_field (require (snd entry))) name)
    fieldSpecs.

End Introspection.

(** ** Sample inputs *)

Module Samples.

Import Json ResourceCache Introspection.

(** [{a: 1, b: 2}] and [{b: 2, a: 1}] *)
Definition paramsAB : value := Obj [("a", Num 1); ("b", Num 2)].
Definition paramsBA : value := Obj [("b", Num 2); ("a", Num 1)].

(** One regular resource, nothing cached, one mounted reader. *)
Definition regularResource : Resource nat string := mkResource None ∅ {[7]}.
Definition freshWorld : World nat string := mkWorld [regularResource] [] ∅ ∅ [].

(** A regular and a "no-clear" resource with one cached value each. *)
Definition cachedRegular : Resource nat string :=
  mkResource (Some Regular) {["{}" := Completed 1]} {[3; 4]}.
Definition cachedNoClear : Resource nat string :=
  mkResource (Some NoClear) {["{}" := Completed 2]} {[5]}.
Definition cachedWorld : World nat string :=
  mkWorld [cachedRegular; cachedNoClear] [(0, None); (1, None)] ∅ ∅ [].

(** The same two resources and a mutation. *)
Definition mutationResource : Resource nat string := mkResource None ∅ ∅.
Definition mutationWorld : World nat string :=
  mkWorld [cachedRegular; cachedNoClear; mutationResource] [(0, None); (1, None)] ∅ ∅ [].

(** A resource whose fetch for [undefined] params failed. *)
Definition failedResource : Resource nat string :=
  mkResource None {["{}" := Error "boom"]} ∅.
Definition failedWorld : World nat string :=
  mkWorld [failedResource] [(0, None)] ∅ {[0 := inr "boom"]} [].

Definition sampleTitle (name : string) : string := name.

Definition scalar (name : string) : TypeRef := Named SCALAR name.
Definition plainField (name : string) (type : TypeRef) : Field :=
  mkField name None [] type.

(** A type with fields [email, id, display_name, age]. *)
Definition personType : IntrospectionType :=
  mkType OBJECT "Person"
    [plainField "email" (scalar "String");
     plainField "id" (NON_NULL (scalar "ID"));
     plainField "display_name" (scalar "String");
     plainField "age" (scalar "Int")].

(** [Query.patients(search: String): PatientConnection],
    [PatientConnection.edges(search: String): [PatientEdge]],
    [PatientEdge.node: Patient], [Patient {id: ID!, name: String,
    visits(search: String): Int}]; [Query.version: String]. *)
Definition patientType : IntrospectionType :=
  mkType OBJECT "Patient"
    [plainField "id" (NON_NULL (scalar "ID"));
     plainField "name" (scalar "String");
     mkField "visits" None [mkInputValue "search" (scalar "String")] (scalar "Int")].

Definition queryRootType : IntrospectionType :=
  mkType OBJECT "Query"
    [mkField "patients" (Some "All patients")
       [mkInputValue "search" (scalar "String")]
       (Named OBJECT "PatientConnection");
     plainField "version" (scalar "String")].

Definition patientSchema : IntrospectionSchema :=
  mkSchema
    [queryRootType;
     mkType OBJECT "PatientConnection"
       [mkField "edges" None [mkInputValue "search" (scalar "String")]
          (LIST (Named OBJECT "PatientEdge"))];
     mkType OBJECT "PatientEdge" [plainField "node" (Named OBJECT "Patient")];
     patientType]
    "Query".

Definition searchArgument : ArgumentNode := mkArgument "search" "search".
Definition searchDefinition : VariableDefinitionNode :=
  mkVariableDefinition "search" (NamedType "String").

(** What [buildQueryAST] makes of the path [patients.edges.node] without
    a configuration. *)
Definition patientQuery : QueryAST :=
  let columns :=
    [FieldN "id" [] []; FieldN "name" [] []; FieldN "visits" [searchArgument] []] in
  mkQueryAST
    (mkOperation "ConstructedQuery"
       [FieldN "patients" [searchArgument]
          [FieldN "edges" [searchArgument] [FieldN "node" [] columns]]]
       [searchDefinition; searchDefinition; searchDefinition])
    columns
    (buildTypesMap patientSchema)
    [("id", guessedSpec sampleTitle "id");
     ("name", guessedSpec sampleTitle "name");
     ("visits", guessedSpec sampleTitle "visits")]
    (Some "All patients").

(** A configuration that asks for [name] only. *)
Definition nameOnly : list (string * FieldSpec) :=
  [("primaryText", mkFieldSpec "Name" (mkQuery "name" None))].

End Samples.

(** ** The hook at the first render of a reader *)

Module ResourceMount.

Import ResourceCache.

Section Mount.

Context {V E : Type}.

(** [unstable_useResource(resource, params)] at the first render of a
    reader whose [refetch] is the listener [l]: the body of the hook up
    to the end of the [switch] and, when the call got past the [switch]
    and returned a value, the effect registered by
    [React.useEffect(..., [])], which React runs once after that render:
    [resource.subcriptions.add(refetch)].  A call that throws leaves the
    function before [useEffect] is reached, so it adds no listener. *)
Definition unstable_useResource_mounted (i : ResourceId) (params : Params)
    (l : Listener) (w : World V E) : option (World V E * ReadResult V E) :=
  match unstable_useResource i params w with
  | Some (w1, Returned value) => Some (subscribe i l w1, Returned value)
  | Some (w1, Suspended promise) => Some (w1, Suspended promise)
  | Some (w1, Raised error) => Some (w1, Raised error)
  | None => None
  end.

End Mount.

End ResourceMount.

(** ** The local variant of the hook *)

Module ResourceLocal.

Import ResourceCache.

Section Local.

Context {V E : Type}.

(** The content of the ref [box]: [None] is [noValueSentinel]. *)
Definition Box : Type := option (V * string).

(** [doWork()] inside [unstable_useResourceLocally]: the read goes to
    the cache of the resource; when it returns, the value is put in the
    box under the key; when it throws, the box stays as it is. *)
Definition doWork (i : ResourceId) (params : Params) (box : Box) (w : World V E)
    : option (World V E * Box * ReadResult V E) :=
  match unstable_useResource i params w with
  | None => None
  | Some (w1, Returned data) =>
      Some (w1, Some (data, Json.cacheKey params), Returned data)
  | Some (w1, result) => Some (w1, box, result)
  end.

(** [unstable_useResourceLocally(resource, params)], with the ref of the
    calling component passed in and out. *)
Definition unstable_useResourceLocally (i : ResourceId) (params : Params)
    (box : Box) (w : World V E) : option (World V E * Box * ReadResult V E) :=
  let key := Json.cacheKey params in
  match box with
  | None => doWork i params box w
  | Some (data, boxKey) =>
      if String.eqb boxKey key then Some (w, box, Returned data)
      else doWork i params box w
  end.

End Local.

End ResourceLocal.

(** ** The document that synthesis builds *)

Module Document.

Import Introspection.

(** The variables a field node refers to, in document order: those of
    its own arguments, then those of its selection set. *)
Fixpoint usedVariables (node : FieldNode) : list string :=
  match node with
  | FieldN _ arguments selections =>
      map argument_variable arguments ++ concat (map usedVariables selections)
  end.

(** One field node for each hop, each inside the one before it, around
    the selection [inner] of the target type. *)
Fixpoint hopChain (hops : list Field) (inner : SelectionSetNode) : SelectionSetNode :=
  match hops with
  | [] => inner
  | hop :: rest =>
      [FieldN (field_name hop) (map buildArgumentNode (field_args hop))
         (hopChain rest inner)]
  end.

(** The fields a configuration requires. *)
Definition requiredFields (requested : list (string * FieldSpec)) : list string :=
  map (fun entry => query_field (require (snd entry))) requested.

(** A reference to an input type as GraphQL writes them: a SCALAR, ENUM
    or INPUT_OBJECT name under LIST and NON_NULL wrappers, no NON_NULL
    directly inside a NON_NULL. *)
Fixpoint validInputRef (typeRef : TypeRef) : bool :=
  match typeRef with
  | Named SCALAR _ => true
  | Named ENUM _ => true
  | Named INPUT_OBJECT _ => true
  | Named _ _ => false
  | LIST ofType => validInputRef ofType
  | NON_NULL ofType =>
      match ofType with
      | NON_NULL _ => false
      | _ => validInputRef ofType
      end
  end.

(** The type node with the wrappers and the name of a reference. *)
Fixpoint typeNodeOf (typeRef : TypeRef) : TypeNode :=
  match typeRef with
  | Named _ name => NamedType name
  | LIST ofType => ListType (typeNodeOf ofType)
  | NON_NULL ofType => NonNullType (typeNodeOf ofType)
  end.

(** The [variablesMap] of [introspect]: [null] without variable
    definitions, else a [Map] filled by
    [variablesMap.set(variable.variable.name.value, variable)]. *)
Definition buildVariablesMap (variableDefinitions : list VariableDefinitionNode)
    : option (list (string * VariableDefinitionNode)) :=
  match variableDefinitions with
  | [] => None
  | _ =>
      Some (fold_left
              (fun variablesMap definition =>
                 Dict.set (variable definition) definition variablesMap)
              variableDefinitions [])
  end.

End Document.

(** ** The paging state of the pick renderer *)

Module PickRenderer.

Local Open Scope Z_scope.

Definition LIMIT_MOBILE : Z := 21.
Definition LIMIT_DESKTOP : Z := 51.

Record SortDirection : Type := mkSortDirection {
  sort_field : string;
  sort_desc : bool
}.

(** [PickState]; the numbers are integers and [filter] lists its keys in
    insertion order. *)
Record PickState : Type := mkPickState {
  offset : Z;
  limit : Z;
  search : option string;
  searchText : option string;
  sort : option SortDirection;
  filter : list (string * option bool)
}.

(** [defaultPickState] *)
Definition defaultPickState (isTabletWidth : bool) : PickState :=
  mkPickState 0 (if isTabletWidth then LIMIT_DESKTOP else LIMIT_MOBILE)
    None None None [].

(** [setState(state => ({...state, offset}))] *)
Definition withOffset (newOffset : Z) (state : PickState) : PickState :=
  mkPickState newOffset (limit state) (search state) (searchText state)
    (sort state) (filter state).

(** [setFilterState(name, value)] *)
Definition setFilterState (name : string) (value : option bool) (state : PickState)
    : PickState :=
  mkPickState 0 (limit state) (search state) (searchText state) (sort state)
    (Dict.set name value (filter state)).

(** [setSearchState(searchText)], the update made at once; the debounced
    one is [commitSearch]. *)
Definition setSearchState (text : string) (state : PickState) : PickState :=
  mkPickState 0 (limit state) (search state) (Some text) (sort state) (filter state).

(** [debouncedSetState(state => ({ ...state, search: searchText }))] *)
Definition commitSearch (text : string) (state : PickState) : PickState :=
  mkPickState (offset state) (limit state) (Some text) (searchText state)
    (sort state) (filter state).

(** [decrementPage]: the offset is computed from the state of the
    render that made the callback, and put into the current state. *)
Definition decrementPage (rendered current : PickState) : PickState :=
  let newOffset :=
    if Z.leb (offset rendered + 1 - limit rendered) 0 then 0
    else offset rendered + 1 - limit rendered in
  withOffset newOffset current.

(** [incrementPage] *)
Definition incrementPage (rendered current : PickState) : PickState :=
  withOffset (offset rendered - 1 + limit rendered) current.

(** [hasPrev={state.offset > 0}] and [hasNext={viewData.length >= state.limit}] *)
Definition hasPrev (state : PickState) : bool := Z.ltb 0 (offset state).
Definition hasNext (rows : Z) (state : PickState) : bool := Z.leb (limit state) rows.

(** A click on one of the two paging buttons, as the render of the
    current state wired them. *)
Inductive PageClick : Type := PrevPage | NextPage.

Definition click (c : PageClick) (state : PickState) : PickState :=
  match c with
  | PrevPage => decrementPage state state
  | NextPage => incrementPage state state
  end.

Definition clicks (cs : list PageClick) (state : PickState) : PickState :=
  fold_left (fun st c => click c st) cs state.

End PickRenderer.

(** ** Reading serialized values

    What can be told from the front of a serialized value; used to show
    that different values have different serializations. *)

Module JsonShape.

Import Json.

Definition isDigit (c : ascii) : bool :=
  let n := nat_of_ascii c in Nat.leb 48 n && Nat.leb n 57.

Fixpoint allDigits (s : string) : bool :=
  match s with
  | EmptyString => true
  | String c s' => isDigit c && allDigits s'
  end.

(** What follows a serialized value does not go on with a digit. *)
Definition notDigitStart (rest : string) : Prop :=
  match rest with
  | EmptyString => True
  | String c _ => isDigit c = false
  end.

(** The kind of value a first character announces: 0 for [null], 1 for
    a boolean, 2 for a number, 3 for a string, 4 for an array, 5 for an
    object, 6 for a character that starts no value. *)
Definition startKind (c : ascii) : nat :=
  let n := nat_of_ascii c in
  if Nat.eqb n 110 then 0
  else if Nat.eqb n 116 || Nat.eqb n 102 then 1
  else if isDigit c || Nat.eqb n 45 then 2
  else if Nat.eqb n 34 then 3
  else if Nat.eqb n 91 then 4
  else if Nat.eqb n 123 then 5
  else 6.

Definition kindOf (v : value) : nat :=
  match v with
  | Null => 0
  | Bool _ => 1
  | Num _ => 2
  | Str _ => 3
  | Arr _ => 4
  | Obj _ => 5
  end.

(** The parameter values on which [Json.stringify] is [JSON.stringify]
    to the letter and on which the list of an object's properties is the
    order of their enumeration: numbers are safe integers, which
    JavaScript holds exactly and prints as plain decimal digits, and no
    key of an object is an array index.  (A [Json.value] has no
    [undefined], function or symbol member, which [JSON.stringify]
    would leave out.) *)
Fixpoint plainData (v : value) : bool :=
  match v with
  | Null => true
  | Bool _ => true
  | Num n => (Z.abs n <=? 9007199254740991)%Z
  | Str _ => true
  | Arr items => forallb plainData items
  | Obj props =>
      forallb
        (fun kv =>
           match arrayIndex (fst kv) with Some _ => false | None => true end
           && plainData (snd kv))
        props
  end.

(** [undefined], or a plain parameter value. *)
Definition plainParams (p : option value) : bool :=
  match p with
  | None => true
  | Some v => plainData v
  end.

Definition hexValue (c : ascii) : option nat :=
  let n := nat_of_ascii c in
  if Nat.leb 48 n && Nat.leb n 57 then Some (n - 48)
  else if Nat.leb 97 n && Nat.leb n 102 then Some (n - 87)
  else None.

(** The first code unit of a string that [escape] wrote, and the rest;
    nothing when the closing quote comes first. *)
Definition unescapeHead (s : string) : option (ascii * string) :=
  match s with
  | EmptyString => None
  | String c rest =>
      let n := nat_of_ascii c in
      if Nat.eqb n 34 then None
      else if Nat.eqb n 92 then
        match rest with
        | EmptyString => None
        | String x rest' =>
            let m := nat_of_ascii x in
            if Nat.eqb m 34 then Some (x, rest')
            else if Nat.eqb m 92 then Some (x, rest')
            else if Nat.eqb m 98 then Some (ascii_of_nat 8, rest')
            else if Nat.eqb m 116 then Some (ascii_of_nat 9, rest')
            else if Nat.eqb m 110 then Some (ascii_of_nat 10, rest')
            else if Nat.eqb m 102 then Some (ascii_of_nat 12, rest')
            else if Nat.eqb m 114 then Some (ascii_of_nat 13, rest')
            else if Nat.eqb m 117 then
              match rest' with
              | String _ (String _ (String h (String l rest''))) =>
                  match hexValue h, hexValue l with
                  | Some high, Some low => Some (ascii_of_nat (16 * high + low), rest'')
                  | _, _ => None
                  end
              | _ => None
              end
            else None
        end
      else Some (c, rest)
  end.

(** What follows the first of the parts [join] puts together. *)
Definition joinTail (sep : string) (parts : list string) (tail : string) : string :=
  match parts with
  | [] => tail
  | _ => sep +:+ join sep parts +:+ tail
  end.

End JsonShape.

(** ** More sample inputs *)

Module MoreSamples.

Import Json ResourceCache Introspection.

(** A schema that lists the name [Query] twice, an ENUM first. *)
Definition twiceQuerySchema : IntrospectionSchema :=
  mkSchema [mkType ENUM "Query" []; Samples.queryRootType] "Query".

(** Two entries that require [name], the second with a sub-selection. *)
Definition nameTwice : list (string * FieldSpec) :=
  [("primaryText", mkFieldSpec "Name" (mkQuery "name" None));
   ("secondaryText",
    mkFieldSpec "Name again" (mkQuery "name" (Some [mkQuery "first" None])))].

(** [first: Int!], [ids: [ID!]] and a reference that is no input type. *)
Definition firstArgument : InputValue :=
  mkInputValue "first" (NON_NULL (Samples.scalar "Int")).
Definition idsArgument : InputValue :=
  mkInputValue "ids" (LIST (NON_NULL (Samples.scalar "ID"))).

End MoreSamples.

(** * Properties of the resource cache *)

Section CacheFacts.

Import ResourceCache.

Context {V E : Type}.
Implicit Types (w : World V E) (r : Resource V E) (i : ResourceId).
Implicit Types (params : Params) (key : string) (l : Listener).

Lemma occurrences_cons {A : Type} `{EqDecision A} (c x : A) (log : list A) :
  occurrences c (x :: log) = (if decide (x = c) then 1 else 0) + occurrences c log.
Proof.
  unfold occurrences. rewrite filter_cons. by destruct (decide (x = c)).
Qed.

Lemma occurrences_app {A : Type} `{EqDecision A} (c : A) (log1 log2 : list A) :
  occurrences c (log1 ++ log2) = occurrences c log1 + occurrences c log2.
Proof. unfold occurrences. by rewrite filter_app, length_app. Qed.

Lemma occurrences_pair_NoDup i l (ls : list Listener) :
  NoDup ls ->
  occurrences (i, l) (map (pair i) ls) = if decide (l ∈ ls) then 1 else 0.
Proof.
  induction 1 as [|x ls Hx Hnd IH]; simpl.
  - reflexivity.
  - rewrite occurrences_cons, IH.
    destruct (decide ((i, x) = (i, l))) as [Heq|Hne].
    + injection Heq as ->.
      rewrite (decide_True (P := l ∈ l :: ls)) by apply list_elem_of_here.
      rewrite (decide_False (P := l ∈ ls)) by done. reflexivity.
    + assert (x <> l) as Hxl by congruence.
      destruct (decide (l ∈ ls)) as [Hin|Hnin].
      * rewrite decide_True by (by apply list_elem_of_further). reflexivity.
      * rewrite decide_False; [reflexivity|].
        intros [?|?]%elem_of_cons; congruence.
Qed.

Lemma occurrences_pair_other i k l (ls : list Listener) :
  i <> k -> occurrences (k, l) (map (pair i) ls) = 0.
Proof.
  intros Hik. induction ls as [|x ls IH]; simpl; [reflexivity|].
  rewrite occurrences_cons, decide_False by congruence. exact IH.
Qed.

Lemma clearResource_calls_other i k r l :
  i <> k -> occurrences (k, l) (clearResource i r).2 = 0.
Proof.
  intros Hik. unfold clearResource.
  destruct (cachePolicy r) as [[]|]; simpl;
    auto using occurrences_pair_other.
Qed.

Lemma clearResource_calls i r l :
  occurrences (i, l) (clearResource i r).2 =
    match cachePolicy r with
    | Some NoClear => 0
    | _ => if decide (l ∈ subcriptions r) then 1 else 0
    end.
Proof.
  unfold clearResource.
  destruct (cachePolicy r) as [[]|]; simpl; try reflexivity.
  all: rewrite occurrences_pair_NoDup by apply NoDup_elements.
  all: destruct (decide (l ∈ subcriptions r)).
  all: first [ rewrite decide_True by (by apply elem_of_elements)
             | rewrite decide_False by (by rewrite elem_of_elements) ].
  all: reflexivity.
Qed.

Lemma clearLoop_cons i r (rs : list (Resource V E)) :
  clearLoop i (r :: rs) =
    ((clearResource i r).1 :: (clearLoop (S i) rs).1,
     (clearResource i r).2 ++ (clearLoop (S i) rs).2).
Proof.
  simpl. destruct (clearResource i r), (clearLoop (S i) rs). reflexivity.
Qed.

Lemma clearLoop_lookup i (rs : list (Resource V E)) j :
  (clearLoop i rs).1 !! j = (fun r => (clearResource (i + j) r).1) <$> rs !! j.
Proof.
  revert i j. induction rs as [|r rs IH]; intros i j.
  - reflexivity.
  - rewrite clearLoop_cons. destruct j as [|j]; simpl.
    + by rewrite Nat.add_0_r.
    + rewrite IH. by replace (S i + j) with (i + S j) by lia.
Qed.

Lemma clearLoop_length i (rs : list (Resource V E)) :
  length (clearLoop i rs).1 = length rs.
Proof.
  revert i. induction rs as [|r rs IH]; intros i; [reflexivity|].
  rewrite clearLoop_cons. simpl. by rewrite IH.
Qed.

Lemma clearLoop_calls i (rs : list (Resource V E)) k l :
  occurrences (k, l) (clearLoop i rs).2 =
    if decide (i <= k) then
      match rs !! (k - i) with
      | Some r => occurrences (k, l) (clearResource k r).2
      | None => 0
      end
    else 0.
Proof.
  revert i. induction rs as [|r rs IH]; intros i.
  - simpl. destruct (decide (i <= k)); reflexivity.
  - rewrite clearLoop_cons. simpl snd.
    rewrite occurrences_app, IH.
    destruct (decide (i = k)) as [->|Hik].
    + rewrite (decide_False (P := S k <= k)) by lia.
      rewrite (decide_True (P := k <= k)) by lia.
      rewrite Nat.sub_diag. simpl. lia.
    + rewrite clearResource_calls_other by done. simpl.
      destruct (decide (i <= k)).
      * rewrite (decide_True (P := S i <= k)) by lia.
        replace (k - i) with (S (k - S i)) by lia. reflexivity.
      * rewrite (decide_False (P := S i <= k)) by lia. reflexivity.
Qed.

Lemma clearAllCaches_registry w :
  resourceRegistry (clearAllCaches w) = (clearLoop 0 (resourceRegistry w)).1.
Proof. unfold clearAllCaches. by destruct (clearLoop 0 (resourceRegistry w)). Qed.

Lemma clearAllCaches_notifications w :
  notifications (clearAllCaches w) =
    notifications w ++ (clearLoop 0 (resourceRegistry w)).2.
Proof. unfold clearAllCaches. by destruct (clearLoop 0 (resourceRegistry w)). Qed.

Lemma clearAllCaches_fetchCalls w :
  fetchCalls (clearAllCaches w) = fetchCalls w.
Proof. unfold clearAllCaches. by destruct (clearLoop 0 (resourceRegistry w)). Qed.

Lemma clearAllCaches_pending w :
  pending (clearAllCaches w) = pending w.
Proof. unfold clearAllCaches. by destruct (clearLoop 0 (resourceRegistry w)). Qed.

Lemma clearAllCaches_settled w :
  settled (clearAllCaches w) = settled w.
Proof. unfold clearAllCaches. by destruct (clearLoop 0 (resourceRegistry w)). Qed.

Lemma clearAllCaches_lookup w i r :
  resourceRegistry w !! i = Some r ->
  resourceRegistry (clearAllCaches w) !! i = Some (clearResource i r).1.
Proof.
  intros Hr. rewrite clearAllCaches_registry, clearLoop_lookup. rewrite Hr. reflexivity.
Qed.

Lemma clearAllCaches_timesCalled w i r l :
  resourceRegistry w !! i = Some r ->
  timesCalled i l (clearAllCaches w) =
    timesCalled i l w +
    match cachePolicy r with
    | Some NoClear => 0
    | _ => if decide (l ∈ subcriptions r) then 1 else 0
    end.
Proof.
  intros Hr. unfold timesCalled.
  rewrite clearAllCaches_notifications, occurrences_app, clearLoop_calls.
  rewrite decide_True by lia. rewrite Nat.sub_0_r, Hr.
  by rewrite clearResource_calls.
Qed.

(** *** Reads *)

Lemma cacheSet_lookup w i r key (state : ResourceState V E) :
  resourceRegistry w !! i = Some r ->
  resourceRegistry (cacheSet i key state w) !! i =
    Some (mkResource (cachePolicy r) (<[key := state]> (cache r)) (subcriptions r)).
Proof.
  intros Hr. unfold cacheSet. simpl. by rewrite list_lookup_alter_eq, Hr.
Qed.

Lemma cacheSet_fetchCalls w i key (state : ResourceState V E) :
  fetchCalls (cacheSet i key state w) = fetchCalls w.
Proof. reflexivity. Qed.

Lemma read_init w i r params :
  resourceRegistry w !! i = Some r ->
  resourceState r params = Init ->
  exists w1,
    unstable_useResource i params w = Some (w1, Suspended (length (fetchCalls w))) /\
    fetchCalls w1 = fetchCalls w ++ [(i, params)] /\
    pending w1 !! length (fetchCalls w) = Some (CacheWrite i (Json.cacheKey params)) /\
    notifications w1 = notifications w /\
    resourceRegistry w1 !! i =
      Some (mkResource (cachePolicy r)
              (<[Json.cacheKey params := InProgress (length (fetchCalls w))]> (cache r))
              (subcriptions r)).
Proof.
  intros Hr Hinit. unfold unstable_useResource. rewrite Hr.
  unfold unstable_useResource_impl. unfold resourceState in Hinit.
  destruct (cache r !! Json.cacheKey params) as [state|] eqn:Hc; [subst state|];
    simpl; (eexists; split; [reflexivity|]); simpl;
    rewrite list_lookup_alter_eq, Hr, lookup_insert_eq; auto.
Qed.

Lemma read_in_progress w i r params promise :
  resourceRegistry w !! i = Some r ->
  resourceState r params = InProgress promise ->
  unstable_useResource i params w = Some (w, Suspended promise).
Proof.
  intros Hr Hst. unfold unstable_useResource. rewrite Hr.
  unfold unstable_useResource_impl. unfold resourceState in Hst.
  destruct (cache r !! Json.cacheKey params) as [state|]; [subst state|]; done.
Qed.

Lemma read_completed w i r params value :
  resourceRegistry w !! i = Some r ->
  resourceState r params = Completed value ->
  unstable_useResource i params w = Some (w, Returned value).
Proof.
  intros Hr Hst. unfold unstable_useResource. rewrite Hr.
  unfold unstable_useResource_impl. unfold resourceState in Hst.
  destruct (cache r !! Json.cacheKey params) as [state|]; [subst state|]; done.
Qed.

Lemma read_error w i r params error :
  resourceRegistry w !! i = Some r ->
  resourceState r params = Error error ->
  unstable_useResource i params w = Some (w, Raised error).
Proof.
  intros Hr Hst. unfold unstable_useResource. rewrite Hr.
  unfold unstable_useResource_impl. unfold resourceState in Hst.
  destruct (cache r !! Json.cacheKey params) as [state|]; [subst state|]; done.
Qed.

(** A read that leaves the world as it is can be repeated at will. *)
Lemma reads_stable w i params (result : ReadResult V E) n :
  unstable_useResource i params w = Some (w, result) ->
  reads n i params w = Some (w, replicate n result).
Proof.
  intros Hread. induction n as [|n IH]; simpl; [reflexivity|].
  by rewrite Hread, IH.
Qed.

Lemma resourceState_insert r params (state : ResourceState V E) :
  resourceState
    (mkResource (cachePolicy r) (<[Json.cacheKey params := state]> (cache r))
       (subcriptions r)) params = state.
Proof. unfold resourceState. simpl. by rewrite lookup_insert_eq. Qed.

(** A read keeps the resource registered and leaves the promises that
    are already pending alone. *)
Lemma read_step w i r params :
  resourceRegistry w !! i = Some r ->
  exists w1 (result : ReadResult V E) r1,
    unstable_useResource i params w = Some (w1, result) /\
    resourceRegistry w1 !! i = Some r1 /\
    (forall promise, promise < length (fetchCalls w) ->
       pending w1 !! promise = pending w !! promise) /\
    length (fetchCalls w) <= length (fetchCalls w1).
Proof.
  intros Hr. unfold unstable_useResource. rewrite Hr.
  unfold unstable_useResource_impl.
  destruct (cache r !! Json.cacheKey params) as [[| | |]|]; simpl.
  all: eexists _, _, _; (split; [reflexivity|]); simpl.
  all: try (split; [exact Hr|split; [done|lia]]).
  all: rewrite list_lookup_alter_eq, Hr; (split; [reflexivity|]).
  all: split; [|rewrite length_app; lia].
  all: intros promise Hlt; rewrite !lookup_insert_ne by lia; reflexivity.
Qed.

Lemma reads_step n w i r params :
  resourceRegistry w !! i = Some r ->
  exists w1 (results : list (ReadResult V E)) r1,
    reads n i params w = Some (w1, results) /\
    resourceRegistry w1 !! i = Some r1 /\
    (forall promise, promise < length (fetchCalls w) ->
       pending w1 !! promise = pending w !! promise) /\
    length (fetchCalls w) <= length (fetchCalls w1).
Proof.
  revert w r. induction n as [|n IH]; intros w r Hr; simpl.
  - exists w, [], r. repeat split; [exact Hr|lia].
  - destruct (read_step w i r params Hr) as (w1 & result & r1 & Hread & Hr1 & Hp1 & Hlen1).
    destruct (IH w1 r1 Hr1) as (w2 & results & r2 & Hreads & Hr2 & Hp2 & Hlen2).
    rewrite Hread, Hreads. exists w2, (result :: results), r2.
    split; [reflexivity|]. split; [exact Hr2|]. split; [|lia].
    intros promise Hlt. rewrite Hp2 by lia. by apply Hp1.
Qed.

(** C1. If a read of [(resource, params)] finds the key in state [Init],
    it calls the fetch function once and records [InProgress]; however
    many further reads of the same [(resource, params)] arrive before
    the fetch settles, each exposes the same pending promise and none
    calls the fetch function: after [S n] reads the log of fetch calls
    has grown by exactly one entry. *)
Theorem concurrent_reads_fetch_once w i r params n :
  resourceRegistry w !! i = Some r ->
  resourceState r params = Init ->
  exists w',
    reads (S n) i params w =
      Some (w', replicate (S n) (Suspended (length (fetchCalls w)))) /\
    fetchCalls w' = fetchCalls w ++ [(i, params)] /\
    stateOf i params w' = Some (InProgress (length (fetchCalls w))).
Proof.
  intros Hr Hinit.
  destruct (read_init w i r params Hr Hinit) as (w1 & Hread & Hcalls & _ & _ & Hr1).
  exists w1. simpl. rewrite Hread.
  rewrite (reads_stable w1 i params (Suspended (length (fetchCalls w))) n).
  - split; [reflexivity|]. split; [exact Hcalls|].
    unfold stateOf. rewrite Hr1. by rewrite resourceState_insert.
  - eapply read_in_progress; [exact Hr1|]. apply resourceState_insert.
Qed.

(** C2. [clearAllCaches] visits every registered resource.  A resource
    whose policy is not "no-clear" ends with an empty cache and each of
    its registered listeners is called exactly once (no other listener
    of it is called); a "no-clear" resource is left exactly as it was
    and none of its listeners is called. *)
Theorem clearAllCaches_spec w i r :
  resourceRegistry w !! i = Some r ->
  length (resourceRegistry (clearAllCaches w)) = length (resourceRegistry w) /\
  match cachePolicy r with
  | Some NoClear =>
      resourceRegistry (clearAllCaches w) !! i = Some r /\
      forall l, timesCalled i l (clearAllCaches w) = timesCalled i l w
  | _ =>
      resourceRegistry (clearAllCaches w) !! i =
        Some (mkResource (cachePolicy r) ∅ (subcriptions r)) /\
      forall l, timesCalled i l (clearAllCaches w) =
                timesCalled i l w + (if decide (l ∈ subcriptions r) then 1 else 0)
  end.
Proof.
  intros Hr. split.
  - by rewrite clearAllCaches_registry, clearLoop_length.
  - pose proof (clearAllCaches_lookup w i r Hr) as Hlook.
    pose proof (fun l => clearAllCaches_timesCalled w i r l Hr) as Hcalled.
    unfold clearResource in Hlook.
    destruct (cachePolicy r) as [[]|]; simpl in *; split; try exact Hlook.
    all: intros l; rewrite Hcalled; lia.
Qed.

Lemma stateOf_cleared w i r params :
  resourceRegistry w !! i = Some r ->
  cachePolicy r <> Some NoClear ->
  stateOf i params (clearAllCaches w) = Some Init.
Proof.
  intros Hr Hpolicy. unfold stateOf.
  rewrite (clearAllCaches_lookup w i r Hr). unfold clearResource.
  destruct (cachePolicy r) as [[]|]; try done.
Qed.

(** Settlement of a fetch started by a read writes into the cache the
    callbacks closed over, whatever that cache holds by then. *)
Lemma settle_cache_write w i r key promise (outcome : V + E) :
  pending w !! promise = Some (CacheWrite i key) ->
  resourceRegistry w !! i = Some r ->
  resourceRegistry (settle promise outcome w) !! i =
    Some (mkResource (cachePolicy r)
            (<[key := match outcome with
                      | inl value => Completed value
                      | inr error => Error error
                      end]> (cache r))
            (subcriptions r)) /\
  fetchCalls (settle promise outcome w) = fetchCalls w /\
  settled (settle promise outcome w) !! promise = Some outcome.
Proof.
  intros Hp Hr. unfold settle. rewrite Hp.
  destruct outcome; simpl; rewrite list_lookup_alter_eq, Hr, lookup_insert_eq; done.
Qed.

(** C3. [perform] calls the fetch function whatever the caches hold and
    by itself touches no cache and calls no listener.  When the fetch
    succeeds, the caches are cleared while the promise given to the
    caller is still pending, and only then does that promise resolve
    with the data: every registered resource [r] that is not "no-clear"
    is left with an empty cache and each of its listeners has been
    called once more, a "no-clear" resource is left as it was with none
    of its listeners called.  When the fetch fails, the promise rejects
    with the error, no cache is cleared and no listener called. *)
Theorem perform_spec w i params j r :
  resourceRegistry w !! j = Some r ->
  let w1 := (perform i params w).1 in
  let promise := (perform i params w).2 in
  let cleared :=
    match cachePolicy r with
    | Some NoClear => r
    | _ => mkResource (cachePolicy r) ∅ (subcriptions r)
    end in
  let called l :=
    match cachePolicy r with
    | Some NoClear => 0
    | _ => if decide (l ∈ subcriptions r) then 1 else 0
    end in
  fetchCalls w1 = fetchCalls w ++ [(i, params)] /\
  resourceRegistry w1 = resourceRegistry w /\
  notifications w1 = notifications w /\
  (forall value,
     (exists w2,
        settle promise (inl value) w1 = resolve promise (inl value) w2 /\
        pending w2 !! promise = Some AfterPerform /\
        settled w2 = settled w /\
        resourceRegistry w2 !! j = Some cleared /\
        (forall l, timesCalled j l w2 = timesCalled j l w + called l)) /\
     settled (settle promise (inl value) w1) !! promise = Some (inl value) /\
     pending (settle promise (inl value) w1) !! promise = None /\
     resourceRegistry (settle promise (inl value) w1) !! j = Some cleared /\
     (forall l,
        timesCalled j l (settle promise (inl value) w1) = timesCalled j l w + called l) /\
     fetchCalls (settle promise (inl value) w1) = fetchCalls w1) /\
  (forall error,
     settled (settle promise (inr error) w1) !! promise = Some (inr error) /\
     resourceRegistry (settle promise (inr error) w1) = resourceRegistry w /\
     notifications (settle promise (inr error) w1) = notifications w /\
     fetchCalls (settle promise (inr error) w1) = fetchCalls w1).
Proof.
  intros Hr w1 promise cleared called.
  assert (resourceRegistry w1 !! j = Some r) as Hr1 by exact Hr.
  assert (pending w1 !! promise = Some AfterPerform) as Hpending
    by (subst w1 promise; simpl; by rewrite lookup_insert_eq).
  assert (resourceRegistry (clearAllCaches w1) !! j = Some cleared) as Hcleared.
  { rewrite (clearAllCaches_lookup w1 j r Hr1). unfold clearResource. subst cleared.
    by destruct (cachePolicy r) as [[]|]. }
  assert (forall l, timesCalled j l (clearAllCaches w1) = timesCalled j l w + called l)
    as Hcalled.
  { intros l. by rewrite (clearAllCaches_timesCalled w1 j r l Hr1). }
  split; [reflexivity|]. split; [reflexivity|]. split; [reflexivity|]. split.
  - intros value.
    assert (settle promise (inl value) w1 =
              resolve promise (inl value) (clearAllCaches w1)) as Hsettle
      by (unfold settle; by rewrite Hpending).
    split.
    { exists (clearAllCaches w1). split; [exact Hsettle|].
      split; [by rewrite clearAllCaches_pending|].
      split; [by rewrite clearAllCaches_settled|].
      split; [exact Hcleared|exact Hcalled]. }
    rewrite Hsettle.
    split; [simpl; by rewrite lookup_insert_eq|].
    split; [simpl; by rewrite lookup_delete_eq|].
    split; [exact Hcleared|]. split; [exact Hcalled|].
    simpl. by rewrite clearAllCaches_fetchCalls.
  - intros error.
    assert (settle promise (inr error) w1 = resolve promise (inr error) w1) as Hsettle
      by (unfold settle; by rewrite Hpending).
    rewrite Hsettle. split; [simpl; by rewrite lookup_insert_eq|]. done.
Qed.

(** C4. While the state of a key is [Completed value], any number of
    reads return [value]; while it is [Error error], any number of reads
    raise that same [error] and return nothing.  Such reads leave the
    world as it is: no fetch is called and the state stays.  The state
    goes back to [Init] when [clearAllCaches] clears the resource. *)
Theorem settled_reads_do_not_fetch w i r params n :
  resourceRegistry w !! i = Some r ->
  (forall value, resourceState r params = Completed value ->
     reads n i params w = Some (w, replicate n (Returned value))) /\
  (forall error, resourceState r params = Error error ->
     reads n i params w = Some (w, replicate n (Raised error))) /\
  (cachePolicy r <> Some NoClear ->
     stateOf i params (clearAllCaches w) = Some Init).
Proof.
  intros Hr. split; [|split].
  - intros value Hst. apply reads_stable. by eapply read_completed.
  - intros error Hst. apply reads_stable. by eapply read_error.
  - by apply stateOf_cleared.
Qed.

(** C10. A read starts a fetch and [clearAllCaches] then clears the
    cache of the resource, so that the key is back in state [Init].
    When the fetch settles afterwards, be it after further reads of the
    key, its outcome is still written to that key: the reads that follow
    return the value (or raise the error) of the fetch started before
    the invalidation, and call no fetch. *)
Theorem settle_after_invalidation w i r params m :
  resourceRegistry w !! i = Some r ->
  resourceState r params = Init ->
  cachePolicy r <> Some NoClear ->
  exists w1 promise w2 results,
    unstable_useResource i params w = Some (w1, Suspended promise) /\
    stateOf i params w1 = Some (InProgress promise) /\
    stateOf i params (clearAllCaches w1) = Some Init /\
    reads m i params (clearAllCaches w1) = Some (w2, results) /\
    (forall value n,
       let w3 := settle promise (inl value) w2 in
       stateOf i params w3 = Some (Completed value) /\
       reads n i params w3 = Some (w3, replicate n (Returned value)) /\
       fetchCalls w3 = fetchCalls w2) /\
    (forall error n,
       let w3 := settle promise (inr error) w2 in
       stateOf i params w3 = Some (Error error) /\
       reads n i params w3 = Some (w3, replicate n (Raised error)) /\
       fetchCalls w3 = fetchCalls w2).
Proof.
  intros Hr Hinit Hpolicy.
  destruct (read_init w i r params Hr Hinit) as (w1 & Hread & Hcalls & Hpend & _ & Hr1).
  pose proof (clearAllCaches_lookup w1 i _ Hr1) as Hrc.
  destruct (reads_step m (clearAllCaches w1) i _ params Hrc)
    as (w2 & results & r2 & Hreads & Hr2 & Hkeep & _).
  exists w1, (length (fetchCalls w)), w2, results. split; [exact Hread|].
  split; [unfold stateOf; rewrite Hr1; by rewrite resourceState_insert|].
  split; [by eapply stateOf_cleared|].
  split; [exact Hreads|].
  assert (pending w2 !! length (fetchCalls w)
          = Some (CacheWrite i (Json.cacheKey params))) as Hpend2.
  { rewrite Hkeep, clearAllCaches_pending; [exact Hpend|].
    rewrite clearAllCaches_fetchCalls, Hcalls, length_app. simpl. lia. }
  split; intros x n;
    [destruct (settle_cache_write _ i _ _ _ (inl x) Hpend2 Hr2) as (Hr3 & Hsame & _)
    |destruct (settle_cache_write _ i _ _ _ (inr x) Hpend2 Hr2) as (Hr3 & Hsame & _)].
  all: simpl; split; [unfold stateOf; rewrite Hr3; by rewrite resourceState_insert|].
  all: split; [|exact Hsame].
  all: apply reads_stable.
  - eapply read_completed; [exact Hr3|]. apply resourceState_insert.
  - eapply read_error; [exact Hr3|]. apply resourceState_insert.
Qed.

(** C9 (amended). The cache key is [JSON.stringify(params || {})]: two
    parameter values with the same serialization share one cache entry,
    so a read of the second finds the state the first left and starts no
    fetch of its own.  [undefined], and every other falsy value, has the
    key of the empty object. *)
Theorem same_serialization_same_entry w i r params1 params2 :
  resourceRegistry w !! i = Some r ->
  Json.cacheKey params1 = Json.cacheKey params2 ->
  resourceState r params1 = resourceState r params2 /\
  (resourceState r params1 = Init ->
   exists w1 promise,
     unstable_useResource i params1 w = Some (w1, Suspended promise) /\
     unstable_useResource i params2 w1 = Some (w1, Suspended promise)) /\
  (forall params, Json.truthy params = false -> Json.cacheKey params = "{}") /\
  Json.cacheKey None = "{}" /\
  Json.cacheKey (Some (Json.Obj [])) = "{}".
Proof.
  intros Hr Hkey. split; [|split; [|split; [|split]]].
  - unfold resourceState. by rewrite Hkey.
  - intros Hinit.
    destruct (read_init w i r params1 Hr Hinit) as (w1 & Hread & _ & _ & _ & Hr1).
    exists w1, (length (fetchCalls w)). split; [exact Hread|].
    eapply read_in_progress; [exact Hr1|].
    unfold resourceState. simpl. by rewrite <- Hkey, lookup_insert_eq.
  - intros params Hfalsy. unfold Json.cacheKey, Json.orEmptyObject.
    destruct params as [v|]; [|reflexivity]. by rewrite Hfalsy.
  - reflexivity.
  - reflexivity.
Qed.

End CacheFacts.

(** *** The cache theorems at sample inputs *)

(** Three reads of a fresh key of the sample resource: one fetch. *)
Lemma concurrent_reads_fetch_once_witness :
  ResourceCache.resourceRegistry Samples.freshWorld !! 0 = Some Samples.regularResource /\
  ResourceCache.resourceState Samples.regularResource None = ResourceCache.Init /\
  exists w',
    ResourceCache.reads 3 0 None Samples.freshWorld =
      Some (w', replicate 3
                  (ResourceCache.Suspended
                     (length (ResourceCache.fetchCalls Samples.freshWorld)))) /\
    ResourceCache.fetchCalls w' =
      ResourceCache.fetchCalls Samples.freshWorld ++ [(0, None)] /\
    ResourceCache.stateOf 0 None w' =
      Some (ResourceCache.InProgress
              (length (ResourceCache.fetchCalls Samples.freshWorld))).
Proof.
  split; [reflexivity|]. split; [reflexivity|].
  apply (concurrent_reads_fetch_once Samples.freshWorld 0 Samples.regularResource None 2);
    reflexivity.
Defined.

(** The regular resource of the sample world is cleared; its listener 3
    is called once and the listener 5 of the other resource is not called
    in its name. *)
Lemma clearAllCaches_spec_witness :
  ResourceCache.resourceRegistry Samples.cachedWorld !! 0 = Some Samples.cachedRegular /\
  ResourceCache.resourceRegistry (ResourceCache.clearAllCaches Samples.cachedWorld) !! 0 =
    Some (ResourceCache.mkResource (Some ResourceCache.Regular) ∅ {[3; 4]}) /\
  ResourceCache.timesCalled 0 3 (ResourceCache.clearAllCaches Samples.cachedWorld) = 1 /\
  ResourceCache.timesCalled 0 5 (ResourceCache.clearAllCaches Samples.cachedWorld) = 0.
Proof.
  split; [reflexivity|].
  destruct (clearAllCaches_spec Samples.cachedWorld 0 Samples.cachedRegular eq_refl)
    as (_ & Hcleared & Hcalled).
  split; [exact Hcleared|].
  split; [exact (Hcalled 3)|exact (Hcalled 5)].
Defined.

(** A mutation that succeeds with 9 in the sample world: the cache of
    the regular resource is emptied and its listener 3 called once; the
    failure of the same mutation leaves the registry as it was. *)
Lemma perform_spec_witness :
  ResourceCache.resourceRegistry Samples.mutationWorld !! 0 = Some Samples.cachedRegular /\
  ResourceCache.resourceRegistry
    (ResourceCache.settle (ResourceCache.perform 2 None Samples.mutationWorld).2 (inl 9)
       (ResourceCache.perform 2 None Samples.mutationWorld).1) !! 0 =
    Some (ResourceCache.mkResource (Some ResourceCache.Regular) ∅ {[3; 4]}) /\
  ResourceCache.timesCalled 0 3
    (ResourceCache.settle (ResourceCache.perform 2 None Samples.mutationWorld).2 (inl 9)
       (ResourceCache.perform 2 None Samples.mutationWorld).1) = 1 /\
  ResourceCache.resourceRegistry
    (ResourceCache.settle (ResourceCache.perform 2 None Samples.mutationWorld).2
       (inr "boom") (ResourceCache.perform 2 None Samples.mutationWorld).1) =
    ResourceCache.resourceRegistry Samples.mutationWorld.
Proof.
  split; [reflexivity|].
  destruct (perform_spec Samples.mutationWorld 2 None 0 Samples.cachedRegular eq_refl)
    as (_ & _ & _ & Hsuccess & Hfailure).
  destruct (Hsuccess 9) as (_ & _ & _ & Hcleared & Hcalled & _).
  destruct (Hfailure "boom") as (_ & Hregistry & _).
  split; [exact Hcleared|]. split; [exact (Hcalled 3)|exact Hregistry].
Defined.

(** Four reads of the failed key raise the stored error four times. *)
Lemma settled_reads_do_not_fetch_witness :
  ResourceCache.resourceRegistry Samples.failedWorld !! 0 = Some Samples.failedResource /\
  ResourceCache.reads 4 0 None Samples.failedWorld =
    Some (Samples.failedWorld, replicate 4 (ResourceCache.Raised "boom")).
Proof.
  split; [reflexivity|].
  destruct (settled_reads_do_not_fetch Samples.failedWorld 0 Samples.failedResource
              None 4 eq_refl) as (_ & Herror & _).
  exact (Herror "boom" eq_refl).
Defined.

(** A fetch that settles with 42 after an invalidation and two further
    reads leaves 42 in the cache. *)
Lemma settle_after_invalidation_witness :
  ResourceCache.resourceRegistry Samples.freshWorld !! 0 = Some Samples.regularResource /\
  ResourceCache.resourceState Samples.regularResource None = ResourceCache.Init /\
  ResourceCache.cachePolicy Samples.regularResource <> Some ResourceCache.NoClear /\
  exists w1 promise w2 results,
    ResourceCache.unstable_useResource 0 None Samples.freshWorld =
      Some (w1, ResourceCache.Suspended promise) /\
    ResourceCache.reads 2 0 None (ResourceCache.clearAllCaches w1) = Some (w2, results) /\
    ResourceCache.stateOf 0 None (ResourceCache.settle promise (inl 42) w2) =
      Some (ResourceCache.Completed 42).
Proof.
  split; [reflexivity|]. split; [reflexivity|]. split; [discriminate|].
  destruct (settle_after_invalidation Samples.freshWorld 0 Samples.regularResource None 2
              eq_refl eq_refl ltac:(discriminate))
    as (w1 & promise & w2 & results & Hread & _ & _ & Hreads & Hok & _).
  exists w1, promise, w2, results. split; [exact Hread|]. split; [exact Hreads|].
  exact (proj1 (Hok 42 0)).
Defined.

(** [undefined] and [0] share the key of the empty object. *)
Lemma same_serialization_same_entry_witness :
  ResourceCache.resourceRegistry Samples.freshWorld !! 0 = Some Samples.regularResource /\
  Json.cacheKey None = Json.cacheKey (Some (Json.Num 0)) /\
  ResourceCache.resourceState Samples.regularResource None =
    ResourceCache.resourceState Samples.regularResource (Some (Json.Num 0)).
Proof.
  split; [reflexivity|]. split; [reflexivity|].
  exact (proj1 (same_serialization_same_entry Samples.freshWorld 0
                  Samples.regularResource None (Some (Json.Num 0)) eq_refl eq_refl)).
Defined.

(** C9, as stated, fails: [{a: 1, b: 2}] and [{b: 2, a: 1}] are the same
    key-value map, but they serialize differently; a read of the second
    does not find the entry of the first and starts a second fetch. *)
Lemma key_order_counterexample :
  Json.sameMap Samples.paramsAB Samples.paramsBA /\
  Json.cacheKey (Some Samples.paramsAB) <> Json.cacheKey (Some Samples.paramsBA) /\
  exists w1 w2,
    ResourceCache.unstable_useResource 0 (Some Samples.paramsAB) Samples.freshWorld =
      Some (w1, ResourceCache.Suspended 0) /\
    ResourceCache.unstable_useResource 0 (Some Samples.paramsBA) w1 =
      Some (w2, ResourceCache.Suspended 1) /\
    ResourceCache.fetchCalls w2 =
      [(0, Some Samples.paramsAB); (0, Some Samples.paramsBA)].
Proof.
  split; [|split].
  - exists (list_to_map [("a", Json.Num 1); ("b", Json.Num 2)]).
    split; reflexivity.
  - vm_compute. discriminate.
  - eexists. eexists. split; [reflexivity|]. split; vm_compute; reflexivity.
Qed.

(** * Properties of ordered dictionaries *)

Section DictFacts.

Context {A : Type}.
Implicit Types (d : list (string * A)) (k : string) (v : A).

Lemma Dict_keys_app d1 d2 : Dict.keys (d1 ++ d2) = Dict.keys d1 ++ Dict.keys d2.
Proof. unfold Dict.keys. apply map_app. Qed.

Lemma Dict_keys_entries (f : string -> A) (names : list string) :
  Dict.keys (map (fun n => (n, f n)) names) = names.
Proof.
  unfold Dict.keys. rewrite map_map. simpl. apply map_id.
Qed.

Lemma Dict_get_None d k : k ∉ Dict.keys d -> Dict.get k d = None.
Proof.
  induction d as [|[k' v'] d IH]; simpl; intros Hk; [reflexivity|].
  apply not_elem_of_cons in Hk as [Hne Hk].
  destruct (String.eqb_spec k k'); [done|]. by apply IH.
Qed.

Lemma Dict_set_fresh d k v : k ∉ Dict.keys d -> Dict.set k v d = d ++ [(k, v)].
Proof.
  induction d as [|[k' v'] d IH]; simpl; intros Hk; [reflexivity|].
  apply not_elem_of_cons in Hk as [Hne Hk].
  destruct (String.eqb_spec k k'); [done|]. by rewrite IH.
Qed.

Lemma Dict_get_entries (f : string -> A) (names : list string) k :
  Dict.get k (map (fun n => (n, f n)) names) =
    if decide (k ∈ names) then Some (f k) else None.
Proof.
  induction names as [|n names IH]; simpl.
  - destruct (decide (k ∈ [])) as [Hin%elem_of_nil|]; done.
  - destruct (String.eqb_spec k n) as [->|Hne].
    + destruct (decide (n ∈ n :: names)) as [|Hnin]; [reflexivity|].
      destruct Hnin. apply list_elem_of_here.
    + rewrite IH.
      destruct (decide (k ∈ names)) as [Hin|Hnin],
               (decide (k ∈ n :: names)) as [Hin'|Hnin']; try reflexivity.
      * destruct Hnin'. by apply list_elem_of_further.
      * apply elem_of_cons in Hin' as [?|?]; congruence.
Qed.

End DictFacts.

(** * Properties of query synthesis *)

Section SynthesisFacts.

Import Introspection.

Variable guessFieldTitle : string -> string.

Implicit Types (typesMap : gmap string IntrospectionType).
Implicit Types (type target : IntrospectionType) (path : list string).
Implicit Types (requested : list (string * FieldSpec)).

(** *** Resolving a hop *)

(** [resolveType] looks through the wrappers and decides by the kind of
    the named reference it finds. *)
Lemma resolveType_namedType typesMap type fieldName typeRef :
  resolveType typesMap type fieldName typeRef =
    match namedType typeRef with
    | (SCALAR, _) => Throw (InvariantViolation (noTypeMessage type fieldName))
    | (INPUT_OBJECT, _) => Throw (InvariantViolation "Impossible")
    | (_, name) =>
        match typesMap !! name with
        | Some nextType => Ok nextType
        | None => Throw (InvariantViolation (noTypeMessage type fieldName))
        end
    end.
Proof.
  induction typeRef as [kind name|ofType IH|ofType IH]; simpl.
  - by destruct kind.
  - exact IH.
  - exact IH.
Qed.

Lemma buildSelectionSet_hop_throw typesMap type fieldName restPath fieldSpecsRequested e :
  resolveField typesMap type fieldName = Throw e ->
  buildSelectionSet guessFieldTitle typesMap type (fieldName :: restPath)
    fieldSpecsRequested = Throw e.
Proof. intros Hres. simpl. by rewrite Hres. Qed.

Lemma buildSelectionSet_walk_throw typesMap type path fieldSpecsRequested e :
  walkPath typesMap type path = Throw e ->
  buildSelectionSet guessFieldTitle typesMap type path fieldSpecsRequested = Throw e.
Proof.
  revert type. induction path as [|fieldName restPath IH]; intros type; simpl.
  - discriminate.
  - destruct (resolveField typesMap type fieldName) as [[field fieldType]|e'];
      simpl; [|by intros [= ->]].
    destruct (walkPath typesMap fieldType restPath) as [[fields target]|e'] eqn:Hwalk;
      simpl; [discriminate|].
    intros [= ->]. by rewrite (IH fieldType).
Qed.

(** C5 (amended). What a hop of the path that cannot be followed does to
    [buildSelectionSet], a function of its arguments alone that has
    no access to the network.  A name that is not a field of the current
    type raises a [ConfigError]; so does a field whose type, under its
    LIST and NON_NULL wrappers, names an indexed type that is not an
    OBJECT.  A field of SCALAR type fails the invariant of [resolveType]
    instead, as does a type name missing from the index.  The error of
    the first hop that cannot be followed, however deep in the path, is
    the outcome of the synthesis. *)
Theorem hop_errors typesMap type fieldName restPath fieldSpecsRequested :
  let result :=
    buildSelectionSet guessFieldTitle typesMap type (fieldName :: restPath)
      fieldSpecsRequested in
  match findField type fieldName with
  | None =>
      result =
        Throw (ConfigError
          ("No field " +:+ quoted (type_name type +:+ "." +:+ fieldName) +:+ " found"))
  | Some field =>
      match namedType (field_type field) with
      | (SCALAR, _) =>
          result = Throw (InvariantViolation (noTypeMessage type fieldName))
      | (INPUT_OBJECT, _) => result = Throw (InvariantViolation "Impossible")
      | (_, name) =>
          match typesMap !! name with
          | None => result = Throw (InvariantViolation (noTypeMessage type fieldName))
          | Some nextType =>
              if isObject nextType
              then resolveField typesMap type fieldName = Ok (field, nextType)
              else result = Throw (ConfigError "Expected object type for nextType.kind")
          end
      end
  end /\
  forall e, walkPath typesMap type (fieldName :: restPath) = Throw e -> result = Throw e.
Proof.
  intros result. subst result.
  split; [|intros e; apply buildSelectionSet_walk_throw].
  destruct (findField type fieldName) as [field|] eqn:Hfind.
  - pose proof (resolveType_namedType typesMap type fieldName (field_type field)) as Hres.
    destruct (namedType (field_type field)) as [kind name].
    assert (forall e,
      resolveType typesMap type fieldName (field_type field) = Throw e ->
      buildSelectionSet guessFieldTitle typesMap type (fieldName :: restPath)
        fieldSpecsRequested = Throw e) as Hthrow.
    { intros e He. apply buildSelectionSet_hop_throw.
      unfold resolveField. by rewrite Hfind, He. }
    destruct kind; try (by apply Hthrow).
    all: destruct (typesMap !! name) as [nextType|]; try (by apply Hthrow).
    all: destruct (isObject nextType) eqn:Hobj.
    all: try (unfold resolveField; by rewrite Hfind, Hres; simpl; rewrite Hobj).
    all: apply buildSelectionSet_hop_throw.
    all: unfold resolveField; rewrite Hfind, Hres; simpl; by rewrite Hobj.
  - apply buildSelectionSet_hop_throw. unfold resolveField. by rewrite Hfind.
Qed.

(** *** The default field specs *)

Lemma mapR_ok {A B : Type} (f : A -> Result B) (g : A -> B) (xs : list A) :
  (forall x, x ∈ xs -> f x = Ok (g x)) -> mapR f xs = Ok (map g xs).
Proof.
  induction xs as [|x xs IH]; intros Hf; simpl; [reflexivity|].
  rewrite (Hf x) by apply list_elem_of_here. simpl.
  rewrite IH; [reflexivity|]. intros y Hy. apply Hf. by apply list_elem_of_further.
Qed.

Lemma scalarFieldsLoop_general (fields intros : list Field) (specsMap : list (string * FieldSpec)) :
  NoDup (Dict.keys specsMap ++ map field_name (List.filter isFieldNodeScalarLike fields)) ->
  fold_left
    (fun acc field =>
       if isFieldNodeScalarLike field then
         (fst acc ++ [field],
          Dict.set (field_name field)
            (mkFieldSpec (guessFieldTitle (field_name field))
               (mkQuery (field_name field) None)) (snd acc))
       else acc)
    fields (intros, specsMap) =
  (intros ++ List.filter isFieldNodeScalarLike fields,
   specsMap ++ map (fun n => (n, guessedSpec guessFieldTitle n))
                   (map field_name (List.filter isFieldNodeScalarLike fields))).
Proof.
  revert intros specsMap.
  induction fields as [|field fields IH]; intros intros specsMap Hnd; simpl in *.
  - by rewrite !app_nil_r.
  - destruct (isFieldNodeScalarLike field) eqn:Hscalar; simpl in *.
    + assert (field_name field ∉ Dict.keys specsMap) as Hfresh.
      { apply NoDup_app in Hnd as (_ & Hdisj & _).
        intros Hin. apply (Hdisj _ Hin). apply list_elem_of_here. }
      rewrite Dict_set_fresh by exact Hfresh.
      rewrite IH.
      * by rewrite <- !app_assoc.
      * rewrite Dict_keys_app. simpl. by rewrite <- app_assoc.
    + by apply IH.
Qed.

Lemma scalarFieldsLoop_spec (fields : list Field) :
  NoDup (map field_name (List.filter isFieldNodeScalarLike fields)) ->
  scalarFieldsLoop guessFieldTitle fields =
    (List.filter isFieldNodeScalarLike fields,
     map (fun n => (n, guessedSpec guessFieldTitle n))
         (map field_name (List.filter isFieldNodeScalarLike fields))).
Proof.
  intros Hnd. unfold scalarFieldsLoop.
  by rewrite scalarFieldsLoop_general.
Qed.

Lemma commonNamesLoop_general (names common : list string)
    (fieldSpecs : list (string * FieldSpec)) (seen : gset string) :
  NoDup (Dict.keys fieldSpecs ++ common) ->
  fold_left
    (fun acc name =>
       match Dict.get name (map (fun n => (n, guessedSpec guessFieldTitle n)) names) with
       | None => acc
       | Some spec => (Dict.set name spec (fst acc), {[name]} ∪ snd acc)
       end)
    common (fieldSpecs, seen) =
  (fieldSpecs ++ map (fun n => (n, guessedSpec guessFieldTitle n))
                     (filter (fun n => n ∈ names) common),
   list_to_set (filter (fun n => n ∈ names) common) ∪ seen).
Proof.
  revert fieldSpecs seen.
  induction common as [|name common IH]; intros fieldSpecs seen Hnd; simpl.
  - rewrite app_nil_r. f_equal. set_solver.
  - rewrite Dict_get_entries, filter_cons.
    destruct (decide (name ∈ names)) as [Hin|Hnin]; simpl.
    + assert (name ∉ Dict.keys fieldSpecs) as Hfresh.
      { apply NoDup_app in Hnd as (_ & Hdisj & _).
        intros Hk. apply (Hdisj _ Hk). apply list_elem_of_here. }
      rewrite Dict_set_fresh by exact Hfresh.
      rewrite IH.
      * rewrite <- app_assoc. simpl. f_equal. set_solver.
      * rewrite Dict_keys_app. simpl. by rewrite <- app_assoc.
    + apply IH. apply NoDup_app in Hnd as (Hnd1 & Hdisj & Hnd2).
      apply NoDup_cons in Hnd2 as [_ Hnd2].
      apply NoDup_app. split; [done|]. split; [|done].
      intros x Hx Hx'. apply (Hdisj x Hx). by apply list_elem_of_further.
Qed.

Lemma remainingLoop_general (names : list string) (seen : gset string)
    (fieldSpecs : list (string * FieldSpec)) :
  NoDup names ->
  (forall n, n ∈ names -> n ∉ seen -> n ∉ Dict.keys fieldSpecs) ->
  fold_left
    (fun fieldSpecs spec =>
       if bool_decide (query_field (require spec) ∈ seen) then fieldSpecs
       else Dict.set (query_field (require spec)) spec fieldSpecs)
    (map (guessedSpec guessFieldTitle) names) fieldSpecs =
  fieldSpecs ++ map (fun n => (n, guessedSpec guessFieldTitle n))
                    (filter (fun n => n ∉ seen) names).
Proof.
  revert fieldSpecs.
  induction names as [|name names IH]; intros fieldSpecs Hnd Hfresh; simpl.
  - by rewrite app_nil_r.
  - apply NoDup_cons in Hnd as [Hname Hnd].
    rewrite filter_cons.
    destruct (decide (name ∈ seen)) as [Hseen|Hunseen].
    + rewrite bool_decide_eq_true_2 by done.
      rewrite decide_False by (intros Hn; by apply Hn).
      apply IH; [done|]. intros n Hn. apply Hfresh. by apply list_elem_of_further.
    + rewrite bool_decide_eq_false_2 by done.
      rewrite decide_True by done.
      rewrite Dict_set_fresh
        by (apply Hfresh; [apply list_elem_of_here|done]).
      rewrite IH; [by rewrite <- app_assoc|done|].
      intros n Hn Hnseen. rewrite Dict_keys_app. simpl.
      intros [Hk|Hk]%elem_of_app.
      * apply (Hfresh n); [by apply list_elem_of_further|done|done].
      * apply list_elem_of_singleton in Hk. congruence.
Qed.

Lemma filter_agree {A : Type} (P Q : A -> Prop)
    `{forall x, Decision (P x)} `{forall x, Decision (Q x)} (xs : list A) :
  (forall x, x ∈ xs -> (P x <-> Q x)) -> filter P xs = filter Q xs.
Proof.
  induction xs as [|x xs IH]; intros HPQ; [reflexivity|].
  rewrite !filter_cons.
  assert (filter P xs = filter Q xs) as ->
    by (apply IH; intros y Hy; apply HPQ; by apply list_elem_of_further).
  pose proof (HPQ x (list_elem_of_here _ _)) as Hx.
  destruct (decide (P x)), (decide (Q x)); tauto.
Qed.

Lemma NoDup_names_filter (keep : Field -> bool) (fields : list Field) :
  NoDup (map field_name fields) -> NoDup (map field_name (List.filter keep fields)).
Proof.
  induction fields as [|field fields IH]; simpl; intros Hnd; [constructor|].
  apply NoDup_cons in Hnd as [Hfresh Hnd].
  destruct (keep field); simpl; [|by apply IH].
  apply NoDup_cons. split; [|by apply IH].
  intros Hin. apply Hfresh.
  apply list_elem_of_In, in_map_iff in Hin as (f & Hname & Hf).
  apply list_elem_of_In, in_map_iff. exists f. split; [done|].
  apply filter_In in Hf. tauto.
Qed.

Lemma NoDup_COMMON_NAMES : NoDup COMMON_NAMES.
Proof. apply (bool_decide_unpack _). by vm_compute. Qed.

Lemma Dict_values_entries {A : Type} (f : string -> A) (names : list string) :
  Dict.values (map (fun n => (n, f n)) names) = map f names.
Proof. unfold Dict.values. rewrite map_map. reflexivity. Qed.

Lemma defaultSpecs_spec (names : list string) :
  NoDup names ->
  let specsMap := map (fun n => (n, guessedSpec guessFieldTitle n)) names in
  remainingLoop specsMap (commonNamesLoop specsMap).2 (commonNamesLoop specsMap).1 =
    map (fun n => (n, guessedSpec guessFieldTitle n))
        (filter (fun n => n ∈ names) COMMON_NAMES ++
         filter (fun n => n ∉ COMMON_NAMES) names).
Proof.
  intros Hnd specsMap. subst specsMap.
  unfold commonNamesLoop.
  rewrite (commonNamesLoop_general names COMMON_NAMES [] ∅)
    by apply NoDup_COMMON_NAMES.
  simpl fst. simpl snd.
  unfold remainingLoop. rewrite Dict_values_entries.
  rewrite remainingLoop_general.
  - rewrite map_app. f_equal. f_equal.
    apply filter_agree. intros n Hn.
    rewrite elem_of_union, elem_of_list_to_set, list_elem_of_filter.
    rewrite elem_of_empty. tauto.
  - exact Hnd.
  - intros n Hn Hunseen. rewrite Dict_keys_entries.
    intros Hk. apply Hunseen.
    rewrite elem_of_union, elem_of_list_to_set. by left.
Qed.

(** C6. Without a field configuration, and for a type whose field names
    are distinct, synthesis at the target type selects exactly the
    scalar-like fields, in declaration order: the selection set of the
    query and the selection of the target are both the list of one node
    for each of these fields, with the field's arguments and no
    sub-selection.  The keys of the field-spec mapping it returns are
    the names of [COMMON_NAMES] that are among these fields, in the
    order of [COMMON_NAMES], followed by the other scalar-like fields in
    declaration order; every key [n] is mapped to the spec that requires
    the field [n]. *)
Theorem default_field_specs typesMap type :
  NoDup (map field_name (type_fields type)) ->
  let names :=
    map field_name (List.filter isFieldNodeScalarLike (type_fields type)) in
  exists sel,
    buildSelectionSet guessFieldTitle typesMap type [] None = Ok sel /\
    sel_selectionSet sel =
      map (fun field =>
             FieldN (field_name field) (map buildArgumentNode (field_args field)) [])
        (List.filter isFieldNodeScalarLike (type_fields type)) /\
    sel_selections sel = sel_selectionSet sel /\
    map node_name (sel_selectionSet sel) = names /\
    map node_name (sel_selections sel) = names /\
    Dict.keys (sel_fieldSpecs sel) =
      filter (fun n => n ∈ names) COMMON_NAMES ++
      filter (fun n => n ∉ COMMON_NAMES) names /\
    sel_fieldSpecs sel =
      map (fun n => (n, guessedSpec guessFieldTitle n)) (Dict.keys (sel_fieldSpecs sel)).
Proof.
  intros Hnd names.
  assert (NoDup names) as Hnames by (by apply NoDup_names_filter).
  simpl. unfold buildTargetSelection.
  rewrite scalarFieldsLoop_spec by exact Hnames. fold names.
  pose proof (defaultSpecs_spec names Hnames) as Hspecs. simpl in Hspecs.
  destruct (commonNamesLoop (map (fun n => (n, guessedSpec guessFieldTitle n)) names))
    as [fieldSpecs seen].
  simpl in Hspecs. rewrite Hspecs.
  rewrite (mapR_ok _
    (fun field => FieldN (field_name field) (map buildArgumentNode (field_args field)) [])).
  - simpl. eexists. split; [reflexivity|]. simpl.
    split; [reflexivity|]. split; [reflexivity|].
    split; [|split; [|split]].
    + subst names. rewrite !map_map. reflexivity.
    + subst names. rewrite !map_map. reflexivity.
    + apply Dict_keys_entries.
    + by rewrite Dict_keys_entries.
  - intros field Hfield. unfold selectField.
    rewrite Dict_get_entries. rewrite decide_True; [reflexivity|].
    subst names. apply list_elem_of_In, in_map. by apply list_elem_of_In.
Qed.

(** *** An explicit field configuration *)

(** The node [selectField] builds for a field that passed the filter of
    [requestedFieldIntros]. *)
Lemma selectField_requested (specsMap : list (string * FieldSpec)) type field :
  field ∈ requestedFieldIntros specsMap type ->
  selectField specsMap field =
    Ok (FieldN (field_name field) (map buildArgumentNode (field_args field))
          (makeSelectionSetFromSpec
             match Dict.get (field_name field) specsMap with
             | Some fieldSpec => fieldSpec
             | None => mkFieldSpec "ID" (mkQuery "id" None)
             end)).
Proof.
  intros Hin. apply list_elem_of_In, filter_In in Hin as [_ Hkeep].
  unfold selectField.
  destruct (Dict.get (field_name field) specsMap); [reflexivity|].
  by rewrite Hkeep.
Qed.

Lemma buildSelectionSet_fieldSpecs_requested typesMap type path requested sel :
  buildSelectionSet guessFieldTitle typesMap type path (Some requested) = Ok sel ->
  sel_fieldSpecs sel = requested.
Proof.
  revert type sel. induction path as [|fieldName restPath IH]; intros type sel; simpl.
  - unfold buildTargetSelection.
    destruct (mapR _ _) as [selections|e]; simpl; [|discriminate].
    by intros [= <-].
  - destruct (resolveField typesMap type fieldName) as [[field fieldType]|e];
      simpl; [|discriminate].
    destruct (buildSelectionSet guessFieldTitle typesMap fieldType restPath
                (Some requested)) as [next|e] eqn:Hnext; simpl; [|discriminate].
    intros [= <-]. simpl. by eapply IH.
Qed.

(** C7 (amended). With an explicit field configuration and a target type
    that has an [id] field, synthesis at the target type succeeds and
    selects the field [id], whether or not an entry asks for it: the
    selection set synthesized, which is also the selection of the
    target, has one node for each field that some entry requires or that
    is called [id], and so a node [id].  The field-spec mapping
    synthesis returns is the configured mapping, as it was given, after
    any path. *)
Theorem explicit_config_selects_id typesMap type requested :
  (exists field, field ∈ type_fields type /\ field_name field = "id") ->
  (exists sel,
     buildSelectionSet guessFieldTitle typesMap type [] (Some requested) = Ok sel /\
     sel_selectionSet sel = sel_selections sel /\
     "id" ∈ map node_name (sel_selectionSet sel) /\
     map node_name (sel_selectionSet sel) =
       map field_name (selectedFields type (Some requested)) /\
     "id" ∈ map node_name (sel_selections sel) /\
     map node_name (sel_selections sel) =
       map field_name (selectedFields type (Some requested))) /\
  (forall type' path sel,
     buildSelectionSet guessFieldTitle typesMap type' path (Some requested) = Ok sel ->
     sel_fieldSpecs sel = requested) /\
  (forall schema path q,
     buildQueryAST guessFieldTitle schema path (Some requested) = Ok q ->
     fieldSpecsUpdated q = requested).
Proof.
  intros (idField & HidIn & HidName). split; [|split].
  - simpl. unfold buildTargetSelection.
    rewrite (mapR_ok _ _ _ (selectField_requested (requestedSpecsMap requested) type)).
    simpl. eexists. split; [reflexivity|]. simpl. rewrite map_map. simpl.
    assert ("id" ∈ map field_name (requestedFieldIntros (requestedSpecsMap requested) type))
      as Hid.
    { apply list_elem_of_In, in_map_iff. exists idField. split; [exact HidName|].
      apply filter_In. split; [by apply list_elem_of_In|].
      rewrite HidName. by destruct (Dict.get "id" (requestedSpecsMap requested)). }
    split; [reflexivity|]. split; [exact Hid|]. split; [reflexivity|].
    split; [exact Hid|reflexivity].
  - intros type' path sel. apply buildSelectionSet_fieldSpecs_requested.
  - intros schema path q. unfold buildQueryAST.
    destruct (buildTypesMap schema !! queryType schema) as [rootType|]; [|discriminate].
    destruct (isObject rootType); [|discriminate].
    destruct (buildSelectionSet _ _ _ _ _) as [sel|e] eqn:Hsel; simpl; [|discriminate].
    destruct (mapR _ _) as [definitions|e]; simpl; [|discriminate].
    intros [= <-]. simpl. by eapply buildSelectionSet_fieldSpecs_requested.
Qed.

(** *** Variable definitions *)

Lemma mapR_Forall2 {A B : Type} (f : A -> Result B) (xs : list A) (ys : list B) :
  mapR f xs = Ok ys -> Forall2 (fun x y => f x = Ok y) xs ys.
Proof.
  revert ys. induction xs as [|x xs IH]; intros ys; simpl.
  - intros [= <-]. constructor.
  - destruct (f x) as [y|e] eqn:Hx; simpl; [|discriminate].
    destruct (mapR f xs) as [ys'|e]; simpl; [|discriminate].
    intros [= <-]. constructor; [exact Hx|by apply IH].
Qed.

Lemma scalarFieldsLoop_fst (fields : list Field) acc :
  fst (fold_left
         (fun acc field =>
            if isFieldNodeScalarLike field then
              (fst acc ++ [field],
               Dict.set (field_name field)
                 (mkFieldSpec (guessFieldTitle (field_name field))
                    (mkQuery (field_name field) None)) (snd acc))
            else acc)
         fields acc) =
  fst acc ++ List.filter isFieldNodeScalarLike fields.
Proof.
  revert acc. induction fields as [|field fields IH]; intros acc; simpl.
  - by rewrite app_nil_r.
  - rewrite IH. destruct (isFieldNodeScalarLike field); simpl; [|reflexivity].
    by rewrite <- app_assoc.
Qed.

Lemma buildTargetSelection_selected target fieldSpecsRequested sel :
  buildTargetSelection guessFieldTitle target fieldSpecsRequested = Ok sel ->
  sel_inputValues sel =
    concat (map field_args (selectedFields target fieldSpecsRequested)).
Proof.
  unfold buildTargetSelection, selectedFields.
  destruct fieldSpecsRequested as [requested|].
  - destruct (mapR _ _) as [selections|e]; simpl; [|discriminate].
    by intros [= <-].
  - pose proof (scalarFieldsLoop_fst (type_fields target) ([], [])) as Hfst.
    fold (scalarFieldsLoop guessFieldTitle (type_fields target)) in Hfst.
    destruct (scalarFieldsLoop guessFieldTitle (type_fields target))
      as [fieldIntros specsMap].
    simpl in Hfst. subst fieldIntros.
    destruct (commonNamesLoop specsMap) as [fieldSpecs seen].
    destruct (mapR _ _) as [selections|e]; simpl; [|discriminate].
    by intros [= <-].
Qed.

Lemma buildSelectionSet_walk typesMap type path fieldSpecsRequested sel :
  buildSelectionSet guessFieldTitle typesMap type path fieldSpecsRequested = Ok sel ->
  exists hops target,
    walkPath typesMap type path = Ok (hops, target) /\
    sel_inputValues sel = argumentsEncountered hops target fieldSpecsRequested.
Proof.
  revert type sel. induction path as [|fieldName restPath IH]; intros type sel; simpl.
  - intros Hsel. exists [], type. split; [reflexivity|].
    unfold argumentsEncountered. simpl.
    by eapply buildTargetSelection_selected.
  - destruct (resolveField typesMap type fieldName) as [[field fieldType]|e];
      simpl; [|discriminate].
    destruct (buildSelectionSet guessFieldTitle typesMap fieldType restPath
                fieldSpecsRequested) as [next|e] eqn:Hnext; simpl; [|discriminate].
    intros [= <-]. simpl.
    destruct (IH _ _ Hnext) as (hops & target & Hwalk & Hargs).
    exists (field :: hops), target. rewrite Hwalk. simpl.
    split; [reflexivity|]. rewrite Hargs.
    unfold argumentsEncountered. simpl. by rewrite <- app_assoc.
Qed.

(** C8. When synthesis succeeds, the variable definitions of the
    operation stand one to one, in order, for the arguments met: the
    declared arguments of every hop of the path, in path order, then
    the arguments of each field selected at the target type.  Each
    definition bears the name and the type of its argument; equal names
    are not merged, and there is no definition when no argument is met. *)
Theorem variable_definitions_follow_arguments schema path fieldSpecsRequested q :
  buildQueryAST guessFieldTitle schema path fieldSpecsRequested = Ok q ->
  exists root hops target,
    buildTypesMap schema !! queryType schema = Some root /\
    walkPath (buildTypesMap schema) root path = Ok (hops, target) /\
    Forall2
      (fun arg definition =>
         variable definition = arg_name arg /\
         buildTypeNode (arg_type arg) = Ok (variable_type definition))
      (argumentsEncountered hops target fieldSpecsRequested)
      (variableDefinitions (queryDefinition q)) /\
    length (variableDefinitions (queryDefinition q)) =
      length (argumentsEncountered hops target fieldSpecsRequested) /\
    map variable (variableDefinitions (queryDefinition q)) =
      map arg_name (argumentsEncountered hops target fieldSpecsRequested).
Proof.
  unfold buildQueryAST.
  destruct (buildTypesMap schema !! queryType schema) as [rootType|]; [|discriminate].
  destruct (isObject rootType); [|discriminate].
  destruct (buildSelectionSet _ _ _ _ _) as [sel|e] eqn:Hsel; simpl; [|discriminate].
  destruct (mapR _ _) as [definitions|e] eqn:Hdefs; simpl; [|discriminate].
  intros [= <-]. simpl.
  destruct (buildSelectionSet_walk _ _ _ _ _ Hsel) as (hops & target & Hwalk & Hargs).
  exists rootType, hops, target. split; [reflexivity|]. split; [exact Hwalk|].
  rewrite <- Hargs. apply mapR_Forall2 in Hdefs.
  assert (Forall2
            (fun arg definition =>
               variable definition = arg_name arg /\
               buildTypeNode (arg_type arg) = Ok (variable_type definition))
            (sel_inputValues sel) definitions) as Hall.
  { eapply Forall2_impl; [exact Hdefs|]. intros arg definition.
    unfold buildVariableDefinitionNode.
    destruct (buildTypeNode (arg_type arg)) as [type|e]; simpl; [|discriminate].
    by intros [= <-]. }
  split; [exact Hall|]. split.
  - symmetry. by eapply Forall2_length.
  - clear Hdefs Hargs Hsel. induction Hall as [|arg definition args defs [Hname _] _ IH];
      simpl; [reflexivity|]. by rewrite Hname, IH.
Qed.

End SynthesisFacts.

(** *** The synthesis theorems at sample inputs *)

(** C5, as stated, fails: the hop [version] of the sample schema points
    at a field of type [String]; synthesis fails, but with an invariant
    violation and not with a [ConfigError]. *)
Lemma scalar_hop_counterexample :
  Introspection.findField Samples.queryRootType "version" =
    Some (Samples.plainField "version" (Samples.scalar "String")) /\
  Introspection.buildQueryAST Samples.sampleTitle Samples.patientSchema ["version"] None =
    Introspection.Throw
      (Introspection.InvariantViolation
         ("No type for field " +:+ Introspection.quoted "Query.version" +:+ " found")) /\
  Introspection.isConfigError
    (Introspection.buildQueryAST Samples.sampleTitle Samples.patientSchema
       ["version"] None) = false.
Proof. split; [reflexivity|]. split; vm_compute; reflexivity. Qed.

(** [PatientConnection] has no field [node]: the path [patients.node]
    fails at its second hop with a [ConfigError]. *)
Lemma hop_errors_witness :
  Introspection.buildSelectionSet Samples.sampleTitle
    (Introspection.buildTypesMap Samples.patientSchema) Samples.queryRootType
    ["patients"; "node"] None =
  Introspection.Throw
    (Introspection.ConfigError
       ("No field " +:+ Introspection.quoted "PatientConnection.node" +:+ " found")).
Proof.
  apply (proj2 (hop_errors Samples.sampleTitle
                  (Introspection.buildTypesMap Samples.patientSchema)
                  Samples.queryRootType "patients" ["node"] None)).
  vm_compute. reflexivity.
Defined.

(** The type with fields [email, id, display_name, age] yields the
    order [id, display_name, email, age]. *)
Lemma default_field_specs_witness :
  NoDup (map Introspection.field_name (Introspection.type_fields Samples.personType)) /\
  exists sel,
    Introspection.buildSelectionSet Samples.sampleTitle ∅ Samples.personType [] None =
      Introspection.Ok sel /\
    Introspection.sel_selectionSet sel =
      [Introspection.FieldN "email" [] []; Introspection.FieldN "id" [] [];
       Introspection.FieldN "display_name" [] []; Introspection.FieldN "age" [] []] /\
    map Introspection.node_name (Introspection.sel_selections sel) =
      ["email"; "id"; "display_name"; "age"] /\
    Dict.keys (Introspection.sel_fieldSpecs sel) =
      ["id"; "display_name"; "email"; "age"].
Proof.
  assert (NoDup (map Introspection.field_name
                   (Introspection.type_fields Samples.personType))) as Hnd
    by (apply (bool_decide_unpack _); vm_compute; reflexivity).
  split; [exact Hnd|].
  destruct (default_field_specs Samples.sampleTitle ∅ Samples.personType Hnd)
    as (sel & Hsel & Hset & _ & _ & Hnames & Hkeys & _).
  exists sel. split; [exact Hsel|]. split; [exact Hset|]. split; [exact Hnames|].
  rewrite Hkeys. vm_compute. reflexivity.
Defined.

(** With the configuration that asks for [name] only, [id] is selected
    at [Patient] and the mapping comes back as given. *)
Lemma explicit_config_selects_id_witness :
  (exists field,
     field ∈ Introspection.type_fields Samples.patientType /\
     Introspection.field_name field = "id") /\
  exists sel,
    Introspection.buildSelectionSet Samples.sampleTitle ∅ Samples.patientType []
      (Some Samples.nameOnly) = Introspection.Ok sel /\
    "id" ∈ map Introspection.node_name (Introspection.sel_selectionSet sel) /\
    "id" ∈ map Introspection.node_name (Introspection.sel_selections sel) /\
    Introspection.sel_fieldSpecs sel = Samples.nameOnly.
Proof.
  assert (exists field,
            field ∈ Introspection.type_fields Samples.patientType /\
            Introspection.field_name field = "id") as Hid.
  { eexists. split; [apply list_elem_of_here|reflexivity]. }
  split; [exact Hid|].
  destruct (explicit_config_selects_id Samples.sampleTitle ∅ Samples.patientType
              Samples.nameOnly Hid)
    as ((sel & Hsel & _ & Hset & _ & Hin & _) & Hspecs & _).
  exists sel. split; [exact Hsel|]. split; [exact Hset|]. split; [exact Hin|].
  exact (Hspecs _ _ _ Hsel).
Defined.

(** C7, as stated, fails: with the configuration that asks for [name]
    only, the fields [id] and [name] of [Patient] are selected, in the
    selection set of the query as in the columns, but the mapping
    returned is the configuration itself; none of its entries is about
    [id]. *)
Lemma id_spec_not_merged_counterexample :
  exists q,
    Introspection.buildQueryAST Samples.sampleTitle Samples.patientSchema
      ["patients"; "edges"; "node"] (Some Samples.nameOnly) = Introspection.Ok q /\
    Introspection.selectionSet (Introspection.queryDefinition q) =
      [Introspection.FieldN "patients" [Samples.searchArgument]
         [Introspection.FieldN "edges" [Samples.searchArgument]
            [Introspection.FieldN "node" []
               [Introspection.FieldN "id" [] []; Introspection.FieldN "name" [] []]]]] /\
    map Introspection.node_name (Introspection.columns q) = ["id"; "name"] /\
    Introspection.fieldSpecsUpdated q = Samples.nameOnly /\
    Introspection.mentionsField "id" (Introspection.fieldSpecsUpdated q) = false.
Proof.
  eexists. split; [vm_compute; reflexivity|]. repeat split.
Qed.

(** Path [patients.edges.node]: the three arguments met are all called
    [search], and there are three definitions. *)
Lemma variable_definitions_follow_arguments_witness :
  Introspection.buildQueryAST Samples.sampleTitle Samples.patientSchema
    ["patients"; "edges"; "node"] None = Introspection.Ok Samples.patientQuery /\
  exists root hops target,
    Introspection.walkPath (Introspection.buildTypesMap Samples.patientSchema) root
      ["patients"; "edges"; "node"] = Introspection.Ok (hops, target) /\
    map Introspection.variable
      (Introspection.variableDefinitions
         (Introspection.queryDefinition Samples.patientQuery)) =
    map Introspection.arg_name (Introspection.argumentsEncountered hops target None).
Proof.
  assert (Introspection.buildQueryAST Samples.sampleTitle Samples.patientSchema
            ["patients"; "edges"; "node"] None = Introspection.Ok Samples.patientQuery)
    as Hq by (vm_compute; reflexivity).
  split; [exact Hq|].
  destruct (variable_definitions_follow_arguments _ _ _ _ _ Hq)
    as (root & hops & target & _ & Hwalk & _ & _ & Hnames).
  exists root, hops, target. split; [exact Hwalk|exact Hnames].
Defined.

(** * Further properties of the resource cache *)

Section CacheLifecycle.

Import ResourceCache ResourceLocal.

Context {V E : Type}.
Implicit Types (w : World V E) (r : Resource V E) (i j : ResourceId).
Implicit Types (params : Params) (key : string) (l : Listener).

Lemma subscribe_lookup w i r l :
  resourceRegistry w !! i = Some r ->
  resourceRegistry (subscribe i l w) !! i =
    Some (mkResource (cachePolicy r) (cache r) ({[l]} ∪ subcriptions r)).
Proof. intros Hr. unfold subscribe. simpl. by rewrite list_lookup_alter_eq, Hr. Qed.

Lemma unsubscribe_lookup w i r l :
  resourceRegistry w !! i = Some r ->
  resourceRegistry (unsubscribe i l w) !! i =
    Some (mkResource (cachePolicy r) (cache r) (subcriptions r ∖ {[l]})).
Proof. intros Hr. unfold unsubscribe. simpl. by rewrite list_lookup_alter_eq, Hr. Qed.

Lemma timesCalled_after_clear w i r l :
  resourceRegistry w !! i = Some r ->
  cachePolicy r <> Some NoClear ->
  timesCalled i l (clearAllCaches w) =
    timesCalled i l w + (if decide (l ∈ subcriptions r) then 1 else 0).
Proof.
  intros Hr Hpolicy. rewrite (clearAllCaches_timesCalled w i r l Hr).
  destruct (cachePolicy r) as [[]|]; done.
Qed.

Lemma cleared_lookup w i r :
  resourceRegistry w !! i = Some r ->
  cachePolicy r <> Some NoClear ->
  resourceRegistry (clearAllCaches w) !! i =
    Some (mkResource (cachePolicy r) ∅ (subcriptions r)).
Proof.
  intros Hr Hpolicy. rewrite (clearAllCaches_lookup w i r Hr).
  unfold clearResource. destruct (cachePolicy r) as [[]|]; done.
Qed.

(** X1. [define] puts a new resource at the end of the registry and
    returns its place; the resources defined before stay where and as
    they were.  The new resource has no cached state and no listener, so
    the first read of any parameters on it starts a fetch. *)
Theorem define_registers_fresh_resource (policy : option CachePolicy) w params :
  let w' := (define policy w).1 in
  let i := (define policy w).2 in
  i = length (resourceRegistry w) /\
  (forall j r, resourceRegistry w !! j = Some r -> resourceRegistry w' !! j = Some r) /\
  resourceRegistry w' !! i = Some (mkResource policy ∅ ∅) /\
  fetchCalls w' = fetchCalls w /\
  exists w'',
    unstable_useResource i params w' =
      Some (w'', Suspended (length (fetchCalls w))) /\
    fetchCalls w'' = fetchCalls w ++ [(i, params)].
Proof.
  simpl.
  assert ((resourceRegistry w ++ [mkResource policy ∅ ∅]) !!
            length (resourceRegistry w) = Some (mkResource (V:=V) (E:=E) policy ∅ ∅))
    as Hnew by apply list_lookup_middle, eq_refl.
  split; [reflexivity|]. split.
  { intros j r Hj. by apply lookup_app_l_Some. }
  split; [exact Hnew|]. split; [reflexivity|].
  destruct (read_init (setRegistry (resourceRegistry w ++ [mkResource policy ∅ ∅]) w)
              (length (resourceRegistry w)) _ params Hnew eq_refl)
    as (w'' & Hread & Hcalls & _).
  exists w''. split; [exact Hread|exact Hcalls].
Qed.

(** X2. The exported [fetch] goes past the cache in both directions: it
    calls the fetch function without looking at the cache, and the
    outcome of that call is not stored.  A key that was in state [Init]
    is still there after the fetch has settled, and the next read of it
    calls the fetch function a second time. *)
Theorem fetch_bypasses_cache w i r params (outcome : V + E) :
  resourceRegistry w !! i = Some r ->
  resourceState r params = Init ->
  let w1 := (fetch i params w).1 in
  let promise := (fetch i params w).2 in
  let w2 := settle promise outcome w1 in
  fetchCalls w1 = fetchCalls w ++ [(i, params)] /\
  resourceRegistry w2 = resourceRegistry w /\
  notifications w2 = notifications w /\
  settled w2 !! promise = Some outcome /\
  exists w3,
    unstable_useResource i params w2 =
      Some (w3, Suspended (length (fetchCalls w) + 1)) /\
    fetchCalls w3 = fetchCalls w ++ [(i, params); (i, params)].
Proof.
  intros Hr Hinit. simpl.
  unfold settle. simpl. rewrite lookup_insert_eq. simpl.
  split; [reflexivity|]. split; [reflexivity|]. split; [reflexivity|].
  split; [by rewrite lookup_insert_eq|].
  destruct (read_init
              (resolve (length (fetchCalls w)) outcome (callFetch i params w).1)
              i r params Hr Hinit) as (w3 & Hread & Hcalls & _).
  simpl in Hread, Hcalls. rewrite length_app in Hread. simpl in Hread.
  exists w3. split; [exact Hread|]. rewrite Hcalls. by rewrite <- app_assoc.
Qed.

(** X3. A listener added by a mounted reader is called once at each
    invalidation of a resource that is not "no-clear", however often it
    was added; once it is removed it is not called any more.  Adding a
    listener changes no cached state. *)
Theorem subscription_lifecycle w i r l :
  resourceRegistry w !! i = Some r ->
  cachePolicy r <> Some NoClear ->
  timesCalled i l (clearAllCaches (subscribe i l w)) = timesCalled i l w + 1 /\
  timesCalled i l (clearAllCaches (subscribe i l (subscribe i l w))) =
    timesCalled i l w + 1 /\
  timesCalled i l (clearAllCaches (clearAllCaches (subscribe i l w))) =
    timesCalled i l w + 2 /\
  timesCalled i l (clearAllCaches (unsubscribe i l (subscribe i l w))) =
    timesCalled i l w /\
  forall params, stateOf i params (subscribe i l w) = stateOf i params w.
Proof.
  intros Hr Hpolicy.
  pose proof (subscribe_lookup w i r l Hr) as Hs.
  assert (timesCalled i l (clearAllCaches (subscribe i l w)) = timesCalled i l w + 1)
    as Honce.
  { rewrite (timesCalled_after_clear _ i _ l Hs) by done. simpl.
    rewrite decide_True by set_solver. reflexivity. }
  split; [exact Honce|]. split; [|split; [|split]].
  - pose proof (subscribe_lookup _ i _ l Hs) as Hss.
    rewrite (timesCalled_after_clear _ i _ l Hss) by done. simpl.
    rewrite decide_True by set_solver. reflexivity.
  - pose proof (cleared_lookup _ i _ Hs Hpolicy) as Hc.
    rewrite (timesCalled_after_clear _ i _ l Hc) by done. simpl.
    rewrite decide_True by set_solver. rewrite Honce. lia.
  - pose proof (unsubscribe_lookup _ i _ l Hs) as Hu.
    rewrite (timesCalled_after_clear _ i _ l Hu) by done. simpl.
    rewrite decide_False by set_solver. unfold timesCalled. simpl. lia.
  - intros params. unfold stateOf. by rewrite Hs, Hr.
Qed.

(** X4. [unstable_useResourceLocally] keeps the value it read in the ref
    of the component.  Once it has returned a value for a key, every
    later call with that key returns the same value without looking at
    the resource: after an invalidation it still returns the old value
    and starts no fetch, where [unstable_useResource] starts one. *)
Theorem local_value_survives_invalidation w i r params (value : V) :
  resourceRegistry w !! i = Some r ->
  resourceState r params = Completed value ->
  cachePolicy r <> Some NoClear ->
  let box := Some (value, Json.cacheKey params) in
  unstable_useResourceLocally i params None w = Some (w, box, Returned value) /\
  unstable_useResourceLocally i params box (clearAllCaches w) =
    Some (clearAllCaches w, box, Returned value) /\
  exists w2,
    unstable_useResource i params (clearAllCaches w) =
      Some (w2, Suspended (length (fetchCalls w))) /\
    fetchCalls w2 = fetchCalls w ++ [(i, params)].
Proof.
  intros Hr Hst Hpolicy. simpl. split; [|split].
  - unfold doWork. by rewrite (read_completed w i r params value Hr Hst).
  - by rewrite String.eqb_refl.
  - pose proof (cleared_lookup w i r Hr Hpolicy) as Hc.
    destruct (read_init (clearAllCaches w) i _ params Hc eq_refl)
      as (w2 & Hread & Hcalls & _).
    rewrite clearAllCaches_fetchCalls in Hread, Hcalls.
    exists w2. split; [exact Hread|exact Hcalls].
Qed.

(** X5. A call of [unstable_useResourceLocally] with a key other than
    the one in the ref is a read of the cache like any other: it
    suspends while the new key is not there, and leaves the ref alone
    until a value arrives. *)
Theorem local_read_follows_key_change w i r params params' (value : V) :
  resourceRegistry w !! i = Some r ->
  Json.cacheKey params' <> Json.cacheKey params ->
  let box := Some (value, Json.cacheKey params) in
  (resourceState r params' = Init ->
   exists w1,
     unstable_useResourceLocally i params' box w =
       Some (w1, box, Suspended (length (fetchCalls w))) /\
     fetchCalls w1 = fetchCalls w ++ [(i, params')]) /\
  (forall value', resourceState r params' = Completed value' ->
     unstable_useResourceLocally i params' box w =
       Some (w, Some (value', Json.cacheKey params'), Returned value')) /\
  (forall error, resourceState r params' = Error error ->
     unstable_useResourceLocally i params' box w = Some (w, box, Raised error)).
Proof.
  intros Hr Hkey. simpl.
  assert (String.eqb (Json.cacheKey params) (Json.cacheKey params') = false) as Hneq
    by (apply String.eqb_neq; congruence).
  rewrite Hneq. unfold doWork. split; [|split].
  - intros Hinit.
    destruct (read_init w i r params' Hr Hinit) as (w1 & Hread & Hcalls & _).
    exists w1. by rewrite Hread.
  - intros value' Hst. by rewrite (read_completed w i r params' value' Hr Hst).
  - intros error Hst. by rewrite (read_error w i r params' error Hr Hst).
Qed.

(** X6. After a mutation that succeeded, a key that was [Completed] in
    a resource that is not "no-clear" is fetched again by its next read,
    while a "no-clear" resource still returns its value without a fetch.
    After a mutation that failed, both still return their value. *)
Theorem mutation_refetches_regular_only w i r params (value data : V)
    (m : ResourceId) (mutationParams : Params) :
  resourceRegistry w !! i = Some r ->
  resourceState r params = Completed value ->
  let w1 := (perform m mutationParams w).1 in
  let promise := (perform m mutationParams w).2 in
  match cachePolicy r with
  | Some NoClear =>
      unstable_useResource i params (settle promise (inl data) w1) =
        Some (settle promise (inl data) w1, Returned value)
  | _ =>
      exists w3,
        unstable_useResource i params (settle promise (inl data) w1) =
          Some (w3, Suspended (length (fetchCalls w) + 1)) /\
        fetchCalls w3 = fetchCalls w ++ [(m, mutationParams); (i, params)]
  end /\
  forall error : E,
    unstable_useResource i params (settle promise (inr error) w1) =
      Some (settle promise (inr error) w1, Returned value).
Proof.
  intros Hr Hst. simpl.
  unfold settle. simpl. rewrite lookup_insert_eq. split.
  - set (w1 := attach (length (fetchCalls w)) AfterPerform
                 (callFetch m mutationParams w).1).
    set (w2 := resolve (length (fetchCalls w)) (inl data) (clearAllCaches w1)).
    assert (resourceRegistry w2 !! i = Some (clearResource i r).1) as Hc
      by exact (clearAllCaches_lookup w1 i r Hr).
    assert (fetchCalls w2 = fetchCalls w ++ [(m, mutationParams)]) as Hcalls2
      by exact (clearAllCaches_fetchCalls w1).
    unfold clearResource in Hc.
    destruct (cachePolicy r) as [[]|] eqn:Hpolicy; simpl in Hc.
    + destruct (read_init w2 i _ params Hc eq_refl) as (w3 & Hread & Hcalls & _).
      rewrite Hcalls2 in Hread, Hcalls. rewrite length_app in Hread.
      exists w3. split; [exact Hread|]. rewrite Hcalls. by rewrite <- app_assoc.
    + by apply (read_completed w2 i r params value Hc).
    + destruct (read_init w2 i _ params Hc eq_refl) as (w3 & Hread & Hcalls & _).
      rewrite Hcalls2 in Hread, Hcalls. rewrite length_app in Hread.
      exists w3. split; [exact Hread|]. rewrite Hcalls. by rewrite <- app_assoc.
  - intros error. by apply (read_completed _ i r params value).
Qed.

(** The body of the hook, up to the end of the [switch], touches nothing
    but the entry of its own key in the cache of its own resource. *)
Lemma read_body_is_local w i params w' (result : ReadResult V E) :
  unstable_useResource i params w = Some (w', result) ->
  notifications w' = notifications w /\
  settled w' = settled w /\
  length (resourceRegistry w') = length (resourceRegistry w) /\
  (forall j, j <> i -> resourceRegistry w' !! j = resourceRegistry w !! j) /\
  exists r r',
    resourceRegistry w !! i = Some r /\
    resourceRegistry w' !! i = Some r' /\
    cachePolicy r' = cachePolicy r /\
    subcriptions r' = subcriptions r /\
    forall key, key <> Json.cacheKey params -> cache r' !! key = cache r !! key.
Proof.
  unfold unstable_useResource.
  destruct (resourceRegistry w !! i) as [r|] eqn:Hr; [|discriminate].
  unfold unstable_useResource_impl.
  assert (forall w1 : World V E,
            notifications w1 = notifications w -> settled w1 = settled w ->
            resourceRegistry w1 = resourceRegistry w ->
            notifications w1 = notifications w /\
            settled w1 = settled w /\
            length (resourceRegistry w1) = length (resourceRegistry w) /\
            (forall j, j <> i -> resourceRegistry w1 !! j = resourceRegistry w !! j) /\
            exists r0 r',
              Some r = Some r0 /\
              resourceRegistry w1 !! i = Some r' /\
              cachePolicy r' = cachePolicy r0 /\
              subcriptions r' = subcriptions r0 /\
              forall key, key <> Json.cacheKey params ->
                          cache r' !! key = cache r0 !! key) as Hsame.
  { intros w1 Hn Hs Hreg. rewrite Hreg. repeat split; try done.
    exists r, r. by rewrite Hr. }
  assert (forall promise (w1 : World V E),
            notifications w1 = notifications w -> settled w1 = settled w ->
            resourceRegistry w1 = resourceRegistry w ->
            let w2 := cacheSet i (Json.cacheKey params) (InProgress promise) w1 in
            notifications w2 = notifications w /\
            settled w2 = settled w /\
            length (resourceRegistry w2) = length (resourceRegistry w) /\
            (forall j, j <> i -> resourceRegistry w2 !! j = resourceRegistry w !! j) /\
            exists r0 r',
              Some r = Some r0 /\
              resourceRegistry w2 !! i = Some r' /\
              cachePolicy r' = cachePolicy r0 /\
              subcriptions r' = subcriptions r0 /\
              forall key, key <> Json.cacheKey params ->
                          cache r' !! key = cache r0 !! key) as Hset.
  { intros promise w1 Hn Hs Hreg. simpl. rewrite Hreg.
    split; [done|]. split; [done|]. split; [by rewrite length_alter|].
    split; [intros j Hj; by rewrite list_lookup_alter_ne|].
    eexists r, _. rewrite list_lookup_alter_eq, Hr. simpl.
    split; [reflexivity|]. split; [reflexivity|]. simpl.
    split; [reflexivity|]. split; [reflexivity|].
    intros key Hkey. by rewrite lookup_insert_ne. }
  destruct (cache r !! Json.cacheKey params) as [[| | |]|]; simpl.
  all: intros [= <- <-].
  all: first
    [ by apply Hsame
    | exact (Hset (length (fetchCalls w))
               (attach (length (fetchCalls w)) (CacheWrite i (Json.cacheKey params))
                  (callFetch i params w).1) eq_refl eq_refl eq_refl) ].
Qed.

(** X7. The first render of a reader touches nothing but its own
    resource, and there nothing but the entry of its own key and the
    set of listeners: the other resources, the other keys and the policy
    stay as they are, no listener is called, and the reader's listener
    is added to the listeners of the resource exactly when the call
    returns a value; a call that suspends or raises adds none. *)
Theorem read_is_local w i params l w' (result : ReadResult V E) :
  ResourceMount.unstable_useResource_mounted i params l w = Some (w', result) ->
  notifications w' = notifications w /\
  settled w' = settled w /\
  length (resourceRegistry w') = length (resourceRegistry w) /\
  (forall j, j <> i -> resourceRegistry w' !! j = resourceRegistry w !! j) /\
  exists r r',
    resourceRegistry w !! i = Some r /\
    resourceRegistry w' !! i = Some r' /\
    cachePolicy r' = cachePolicy r /\
    subcriptions r' =
      match result with
      | Returned _ => {[l]} ∪ subcriptions r
      | _ => subcriptions r
      end /\
    forall key, key <> Json.cacheKey params -> cache r' !! key = cache r !! key.
Proof.
  unfold ResourceMount.unstable_useResource_mounted.
  destruct (unstable_useResource i params w) as [[w1 [value|promise|error]]|] eqn:Hread;
    [|by intros [= <- <-]; apply (read_body_is_local _ _ _ _ _ Hread)..|discriminate].
  intros [= <- <-].
  destruct (read_body_is_local _ _ _ _ _ Hread)
    as (Hn & Hs & Hlen & Hother & r & r1 & Hr & Hr1 & Hpolicy & Hsubs & Hkeys).
  split; [exact Hn|]. split; [exact Hs|].
  split; [unfold subscribe; simpl; by rewrite length_alter|].
  split.
  { intros j Hj. unfold subscribe. simpl. rewrite list_lookup_alter_ne by done.
    by apply Hother. }
  exists r, (mkResource (cachePolicy r1) (cache r1) ({[l]} ∪ subcriptions r1)).
  split; [exact Hr|]. split; [by apply subscribe_lookup|]. simpl.
  split; [exact Hpolicy|]. split; [by rewrite Hsubs|exact Hkeys].
Qed.

Lemma read_init_pending w i r params :
  resourceRegistry w !! i = Some r ->
  resourceState r params = Init ->
  exists w1,
    unstable_useResource i params w = Some (w1, Suspended (length (fetchCalls w))) /\
    fetchCalls w1 = fetchCalls w ++ [(i, params)] /\
    pending w1 !! length (fetchCalls w) = Some (CacheWrite i (Json.cacheKey params)) /\
    (forall promise, promise <> length (fetchCalls w) ->
       pending w1 !! promise = pending w !! promise) /\
    resourceRegistry w1 !! i =
      Some (mkResource (cachePolicy r)
              (<[Json.cacheKey params := InProgress (length (fetchCalls w))]> (cache r))
              (subcriptions r)).
Proof.
  intros Hr Hinit. unfold unstable_useResource. rewrite Hr.
  unfold unstable_useResource_impl. unfold resourceState in Hinit.
  destruct (cache r !! Json.cacheKey params) as [state|] eqn:Hc; [subst state|];
    simpl; (eexists; split; [reflexivity|]); simpl;
    rewrite list_lookup_alter_eq, Hr, lookup_insert_eq.
  all: split; [reflexivity|]; split; [reflexivity|]; split; [|reflexivity].
  all: intros promise Hne; by rewrite !lookup_insert_ne.
Qed.

Lemma settle_pending_other w promise other (outcome : V + E) :
  other <> promise ->
  pending (settle promise outcome w) !! other = pending w !! other.
Proof.
  intros Hne. unfold settle.
  destruct (pending w !! promise) as [[|i key|]|]; [| | |reflexivity].
  all: destruct outcome; simpl; rewrite lookup_delete_ne by done.
  all: by rewrite ?clearAllCaches_pending.
Qed.

(** X8. After an invalidation there can be two fetches in flight for one
    key: the one a read started before it, and the one the next read
    starts.  Each writes its outcome to the key when it settles, so the
    one that settles last stays: when the older fetch is the slower, its
    value replaces the value of the newer one. *)
Theorem stale_fetch_overwrites_fresh w i r params (older newer : V) :
  resourceRegistry w !! i = Some r ->
  resourceState r params = Init ->
  cachePolicy r <> Some NoClear ->
  exists w1 w3,
    let first := length (fetchCalls w) in
    let second := length (fetchCalls w) + 1 in
    unstable_useResource i params w = Some (w1, Suspended first) /\
    unstable_useResource i params (clearAllCaches w1) = Some (w3, Suspended second) /\
    fetchCalls w3 = fetchCalls w ++ [(i, params); (i, params)] /\
    pending w3 !! first = Some (CacheWrite i (Json.cacheKey params)) /\
    pending w3 !! second = Some (CacheWrite i (Json.cacheKey params)) /\
    stateOf i params (settle second (inl newer) w3) = Some (Completed newer) /\
    stateOf i params (settle first (inl older) (settle second (inl newer) w3)) =
      Some (Completed older) /\
    fetchCalls (settle first (inl older) (settle second (inl newer) w3)) =
      fetchCalls w3.
Proof.
  intros Hr Hinit Hpolicy.
  destruct (read_init_pending w i r params Hr Hinit)
    as (w1 & Hread1 & Hcalls1 & Hpend1 & _ & Hr1).
  pose proof (cleared_lookup w1 i _ Hr1 Hpolicy) as Hr2. simpl in Hr2.
  destruct (read_init_pending (clearAllCaches w1) i _ params Hr2 eq_refl)
    as (w3 & Hread3 & Hcalls3 & Hpend3 & Hkeep3 & Hr3).
  rewrite clearAllCaches_fetchCalls, Hcalls1 in Hread3, Hcalls3, Hpend3, Hkeep3.
  rewrite length_app in Hread3, Hpend3, Hkeep3. simpl in Hread3, Hpend3, Hkeep3, Hr3.
  exists w1, w3. simpl.
  split; [exact Hread1|]. split; [exact Hread3|].
  split; [by rewrite Hcalls3, <- app_assoc|].
  assert (pending w3 !! length (fetchCalls w)
          = Some (CacheWrite i (Json.cacheKey params))) as Hfirst.
  { rewrite Hkeep3 by lia. by rewrite clearAllCaches_pending. }
  split; [exact Hfirst|]. split; [exact Hpend3|].
  destruct (settle_cache_write w3 i _ _ _ (inl newer) Hpend3 Hr3)
    as (Hr4 & Hcalls4 & _).
  split; [unfold stateOf; rewrite Hr4; by rewrite resourceState_insert|].
  assert (pending (settle (length (fetchCalls w) + 1) (inl newer) w3)
            !! length (fetchCalls w)
          = Some (CacheWrite i (Json.cacheKey params))) as Hfirst4.
  { rewrite settle_pending_other by lia. exact Hfirst. }
  destruct (settle_cache_write _ i _ _ _ (inl older) Hfirst4 Hr4)
    as (Hr5 & Hcalls5 & _).
  split; [unfold stateOf; rewrite Hr5; by rewrite resourceState_insert|].
  by rewrite Hcalls5, Hcalls4.
Qed.

End CacheLifecycle.

(** * Further properties of ordered dictionaries *)

Section DictFolds.

Context {A B : Type}.
Implicit Types (d : list (string * A)) (k : string) (v : A).

Lemma Dict_get_set_eq d k v : Dict.get k (Dict.set k v d) = Some v.
Proof.
  induction d as [|[k' v'] d IH]; simpl.
  - by rewrite String.eqb_refl.
  - destruct (String.eqb_spec k k') as [->|Hne]; simpl.
    + by rewrite String.eqb_refl.
    + by destruct (String.eqb_spec k k').
Qed.

Lemma Dict_get_set_ne d k k' v :
  k <> k' -> Dict.get k (Dict.set k' v d) = Dict.get k d.
Proof.
  intros Hne. induction d as [|[k0 v0] d IH]; simpl.
  - by destruct (String.eqb_spec k k').
  - destruct (String.eqb_spec k' k0) as [->|Hne0]; simpl.
    + by destruct (String.eqb_spec k k0).
    + by rewrite IH.
Qed.

Lemma Dict_get_is_Some d k : is_Some (Dict.get k d) <-> k ∈ Dict.keys d.
Proof.
  induction d as [|[k' v'] d IH]; simpl.
  - split; [by intros [? ?]|by intros ?%elem_of_nil].
  - rewrite elem_of_cons. destruct (String.eqb_spec k k') as [->|Hne].
    + split; [by left|by eexists].
    + rewrite IH. naive_solver.
Qed.

Lemma Dict_keys_set d k v :
  Dict.keys (Dict.set k v d) =
    if decide (k ∈ Dict.keys d) then Dict.keys d else Dict.keys d ++ [k].
Proof.
  induction d as [|[k' v'] d IH]; simpl.
  - by destruct (decide (k ∈ [])) as [?%elem_of_nil|].
  - destruct (String.eqb_spec k k') as [->|Hne]; simpl.
    + rewrite decide_True; [reflexivity|]. apply list_elem_of_here.
    + rewrite IH. destruct (decide (k ∈ Dict.keys d)) as [Hin|Hnin].
      * rewrite decide_True; [reflexivity|]. by apply list_elem_of_further.
      * rewrite decide_False; [reflexivity|].
        intros [?|?]%elem_of_cons; congruence.
Qed.

(** Filling a dictionary from a list, as the loops over [Map.set] do:
    [keyOf] and [valueOf] say what is stored under which key. *)
Variables (keyOf : B -> string) (valueOf : B -> A).

Lemma Dict_fill_get (xs : list B) d k :
  Dict.get k (fold_left (fun m x => Dict.set (keyOf x) (valueOf x) m) xs d) =
    match last (filter (fun x => keyOf x = k) xs) with
    | Some x => Some (valueOf x)
    | None => Dict.get k d
    end.
Proof.
  revert d. induction xs as [|x xs IH]; intros d; simpl; [reflexivity|].
  rewrite IH, filter_cons. destruct (decide (keyOf x = k)) as [<-|Hne].
  - rewrite last_cons, Dict_get_set_eq. by destruct (last _).
  - by rewrite Dict_get_set_ne.
Qed.

Lemma Dict_fill_keys (xs : list B) d :
  NoDup (Dict.keys d) ->
  NoDup (Dict.keys (fold_left (fun m x => Dict.set (keyOf x) (valueOf x) m) xs d)) /\
  forall k,
    k ∈ Dict.keys (fold_left (fun m x => Dict.set (keyOf x) (valueOf x) m) xs d) <->
    k ∈ Dict.keys d \/ k ∈ map keyOf xs.
Proof.
  revert d. induction xs as [|x xs IH]; intros d Hnd; simpl.
  - split; [exact Hnd|]. intros k. rewrite elem_of_nil. tauto.
  - destruct (IH (Dict.set (keyOf x) (valueOf x) d)) as [Hnd' Hin'].
    { rewrite Dict_keys_set. destruct (decide (keyOf x ∈ Dict.keys d)); [done|].
      apply NoDup_app. split; [done|]. split; [|apply NoDup_singleton].
      intros k Hk ->%list_elem_of_singleton. done. }
    split; [exact Hnd'|]. intros k. rewrite Hin', Dict_keys_set, elem_of_cons.
    destruct (decide (keyOf x ∈ Dict.keys d)) as [Hx|Hx].
    + split; [tauto|]. intros [?|[->|?]]; tauto.
    + rewrite elem_of_app, list_elem_of_singleton. tauto.
Qed.

End DictFolds.

(** * Further properties of query synthesis *)

Section SynthesisMore.

Import Introspection Document.

Variable guessFieldTitle : string -> string.

Implicit Types (typesMap : gmap string IntrospectionType).
Implicit Types (type target : IntrospectionType) (path : list string).
Implicit Types (requested : list (string * FieldSpec)).

Lemma buildTypesMap_fold (ts : list IntrospectionType) typesMap name :
  fold_left (fun m t => <[type_name t := t]> m) ts typesMap !! name =
    match last (filter (fun t => type_name t = name) ts) with
    | Some t => Some t
    | None => typesMap !! name
    end.
Proof.
  revert typesMap. induction ts as [|t ts IH]; intros typesMap; simpl; [reflexivity|].
  rewrite IH, filter_cons. destruct (decide (type_name t = name)) as [<-|Hne].
  - rewrite last_cons, lookup_insert_eq. by destruct (last _).
  - by rewrite lookup_insert_ne.
Qed.

(** X9. The index of types holds, under each name, the last type of
    [schema.types] that bears it, and nothing under a name no type
    bears.  Synthesis starts from the type found under the name of the
    query type: when no type bears that name, or the last one that does
    is not an OBJECT, [buildQueryAST] raises a [ConfigError] whatever the
    path and the field configuration; otherwise an error of the
    selection built from that type is the error of [buildQueryAST]. *)
Theorem root_type_is_last_of_its_name schema path fieldSpecsRequested :
  (forall name,
     buildTypesMap schema !! name =
       last (filter (fun t => type_name t = name) (types schema))) /\
  match last (filter (fun t => type_name t = queryType schema) (types schema)) with
  | None =>
      buildQueryAST guessFieldTitle schema path fieldSpecsRequested =
        Throw (ConfigError "Expected ObjectType at the root")
  | Some rootType =>
      if isObject rootType then
        forall e,
          buildSelectionSet guessFieldTitle (buildTypesMap schema) rootType path
            fieldSpecsRequested = Throw e ->
          buildQueryAST guessFieldTitle schema path fieldSpecsRequested = Throw e
      else
        buildQueryAST guessFieldTitle schema path fieldSpecsRequested =
          Throw (ConfigError "Expected rootType as OBJECT at the root")
  end.
Proof.
  assert (forall name,
            buildTypesMap schema !! name =
              last (filter (fun t => type_name t = name) (types schema))) as Hlookup.
  { intros name. unfold buildTypesMap. rewrite buildTypesMap_fold.
    destruct (last _); [reflexivity|apply lookup_empty]. }
  split; [exact Hlookup|].
  unfold buildQueryAST. rewrite Hlookup.
  destruct (last _) as [rootType|]; [|reflexivity].
  destruct (isObject rootType); [|reflexivity].
  intros e He. by rewrite He.
Qed.

(** *** The selection at the target type *)

Lemma selectField_found (specsMap : list (string * FieldSpec)) field fieldSpec :
  Dict.get (field_name field) specsMap = Some fieldSpec ->
  selectField specsMap field =
    Ok (FieldN (field_name field) (map buildArgumentNode (field_args field))
          (makeSelectionSetFromSpec fieldSpec)).
Proof. intros Hget. unfold selectField. by rewrite Hget. Qed.

Lemma scalarFieldsLoop_snd (fields : list Field) acc :
  snd (fold_left
         (fun acc field =>
            if isFieldNodeScalarLike field then
              (fst acc ++ [field],
               Dict.set (field_name field)
                 (mkFieldSpec (guessFieldTitle (field_name field))
                    (mkQuery (field_name field) None)) (snd acc))
            else acc)
         fields acc) =
  fold_left
    (fun m field =>
       Dict.set (field_name field) (guessedSpec guessFieldTitle (field_name field)) m)
    (List.filter isFieldNodeScalarLike fields) (snd acc).
Proof.
  revert acc. induction fields as [|field fields IH]; intros acc; simpl; [reflexivity|].
  rewrite IH. by destruct (isFieldNodeScalarLike field).
Qed.

(** Every scalar-like field finds its spec in the map the loop filled,
    whether or not field names repeat. *)
Lemma scalarFieldsLoop_finds (fields : list Field) field :
  field ∈ List.filter isFieldNodeScalarLike fields ->
  Dict.get (field_name field) (scalarFieldsLoop guessFieldTitle fields).2 =
    Some (guessedSpec guessFieldTitle (field_name field)).
Proof.
  intros Hin. unfold scalarFieldsLoop. rewrite scalarFieldsLoop_snd. simpl.
  rewrite (Dict_fill_get field_name
             (fun f => guessedSpec guessFieldTitle (field_name f))).
  destruct (last _) as [x|] eqn:Hlast.
  - apply last_Some in Hlast as [l' Hl'].
    assert (x ∈ filter (fun x => field_name x = field_name field)
                  (List.filter isFieldNodeScalarLike fields)) as Hx
      by (rewrite Hl'; apply elem_of_app; right; apply list_elem_of_here).
    apply list_elem_of_filter in Hx as [-> _]. reflexivity.
  - apply last_None in Hlast.
    assert (field ∈ filter (fun x => field_name x = field_name field)
                      (List.filter isFieldNodeScalarLike fields)) as Hf
      by (by apply list_elem_of_filter).
    rewrite Hlast in Hf. by apply elem_of_nil in Hf.
Qed.

Lemma selected_nodes (specOf : Field -> FieldSpec) (fields : list Field) :
  Forall2
    (fun field node =>
       exists fieldSpec,
         node = FieldN (field_name field) (map buildArgumentNode (field_args field))
                  (makeSelectionSetFromSpec fieldSpec))
    fields
    (map (fun field =>
            FieldN (field_name field) (map buildArgumentNode (field_args field))
              (makeSelectionSetFromSpec (specOf field)))
         fields).
Proof. induction fields; simpl; constructor; eauto. Qed.

(** The loop over [fieldIntros] never reaches its [throw]. *)
Lemma buildTargetSelection_ok target fieldSpecsRequested :
  exists sel,
    buildTargetSelection guessFieldTitle target fieldSpecsRequested = Ok sel /\
    sel_selectionSet sel = sel_selections sel /\
    sel_description sel = None /\
    sel_inputValues sel =
      concat (map field_args (selectedFields target fieldSpecsRequested)) /\
    Forall2
      (fun field node =>
         exists fieldSpec,
           node = FieldN (field_name field) (map buildArgumentNode (field_args field))
                    (makeSelectionSetFromSpec fieldSpec))
      (selectedFields target fieldSpecsRequested) (sel_selections sel).
Proof.
  unfold buildTargetSelection, selectedFields.
  destruct fieldSpecsRequested as [requested|].
  - rewrite (mapR_ok _ _ _ (selectField_requested (requestedSpecsMap requested) target)).
    simpl. eexists. split; [reflexivity|]. simpl.
    split; [reflexivity|]. split; [reflexivity|]. split; [reflexivity|].
    apply (selected_nodes
             (fun field =>
                match Dict.get (field_name field) (requestedSpecsMap requested) with
                | Some fieldSpec => fieldSpec
                | None => mkFieldSpec "ID" (mkQuery "id" None)
                end)).
  - pose proof (scalarFieldsLoop_fst guessFieldTitle (type_fields target) ([], []))
      as Hfst.
    pose proof (scalarFieldsLoop_finds (type_fields target)) as Hfinds.
    fold (scalarFieldsLoop guessFieldTitle (type_fields target)) in Hfst.
    destruct (scalarFieldsLoop guessFieldTitle (type_fields target))
      as [fieldIntros specsMap].
    simpl in Hfst, Hfinds. subst fieldIntros.
    destruct (commonNamesLoop specsMap) as [fieldSpecs seen].
    rewrite (mapR_ok _
      (fun field =>
         FieldN (field_name field) (map buildArgumentNode (field_args field))
           (makeSelectionSetFromSpec (guessedSpec guessFieldTitle (field_name field))))).
    + simpl. eexists. split; [reflexivity|]. simpl.
      split; [reflexivity|]. split; [reflexivity|]. split; [reflexivity|].
      apply (selected_nodes (fun field => guessedSpec guessFieldTitle (field_name field))).
    + intros field Hfield. apply selectField_found. by apply Hfinds.
Qed.

(** X10. Building the selection set fails exactly when a hop of the path
    cannot be resolved, and then with the error of that hop.  The
    [ConfigError] "Missing field spec" of the loop over the selected
    fields is never raised: at the target type the selection is always
    built, with or without a field configuration, and its nodes are the
    selected fields in the order the type declares them. *)
Theorem selection_fails_only_on_path typesMap type path fieldSpecsRequested :
  (forall e,
     buildSelectionSet guessFieldTitle typesMap type path fieldSpecsRequested = Throw e <->
     walkPath typesMap type path = Throw e) /\
  (forall hops target,
     walkPath typesMap type path = Ok (hops, target) ->
     exists sel,
       buildSelectionSet guessFieldTitle typesMap type path fieldSpecsRequested = Ok sel /\
       map node_name (sel_selections sel) =
         map field_name (selectedFields target fieldSpecsRequested)).
Proof.
  assert (forall hops target,
     walkPath typesMap type path = Ok (hops, target) ->
     exists sel,
       buildSelectionSet guessFieldTitle typesMap type path fieldSpecsRequested = Ok sel /\
       map node_name (sel_selections sel) =
         map field_name (selectedFields target fieldSpecsRequested)) as Hok.
  { revert type. induction path as [|fieldName restPath IH]; intros type hops target; simpl.
    - intros [= <- <-].
      destruct (buildTargetSelection_ok type fieldSpecsRequested)
        as (sel & Hsel & _ & _ & _ & Hnodes).
      exists sel. split; [exact Hsel|].
      induction Hnodes as [|field node fields nodes [spec ->] _ IHn]; simpl;
        [reflexivity|by rewrite IHn].
    - destruct (resolveField typesMap type fieldName) as [[field fieldType]|e];
        simpl; [|discriminate].
      destruct (walkPath typesMap fieldType restPath) as [[hops' target']|e] eqn:Hwalk;
        simpl; [|discriminate].
      intros [= <- <-].
      destruct (IH fieldType hops' target' Hwalk) as (next & Hnext & Hnames).
      rewrite Hnext. simpl. eexists. split; [reflexivity|]. exact Hnames. }
  split; [|exact Hok].
  intros e. split; [|apply buildSelectionSet_walk_throw].
  intros Hthrow.
  destruct (walkPath typesMap type path) as [[hops target]|e'] eqn:Hwalk.
  - destruct (Hok hops target eq_refl) as (sel & Hsel & _). congruence.
  - rewrite (buildSelectionSet_walk_throw guessFieldTitle _ _ _ fieldSpecsRequested _ Hwalk)
      in Hthrow. congruence.
Qed.

(** *** Variables used and variables declared *)

Lemma makeSelectionSetFromQueryFieldSpec_no_variables (query : QueryFieldSpec) :
  concat (map usedVariables (makeSelectionSetFromQueryFieldSpec query)) = [].
Proof.
  revert query. fix nested 1. intros query.
  destruct query as [field [requires|]]; simpl; [|reflexivity].
  induction requires as [|inner requires IH]; simpl; [reflexivity|].
  rewrite (nested inner). exact IH.
Qed.

Lemma makeSelectionSetFromSpec_no_variables (fieldSpec : FieldSpec) :
  concat (map usedVariables (makeSelectionSetFromSpec fieldSpec)) = [].
Proof.
  unfold makeSelectionSetFromSpec.
  destruct (query_require (require fieldSpec)) as [requires|]; [|reflexivity].
  induction requires as [|inner requires IH]; simpl; [reflexivity|].
  by rewrite makeSelectionSetFromQueryFieldSpec_no_variables.
Qed.

Lemma argument_variables (args : list InputValue) :
  map argument_variable (map buildArgumentNode args) = map arg_name args.
Proof. rewrite map_map. reflexivity. Qed.

Lemma buildSelectionSet_variables typesMap type path fieldSpecsRequested sel :
  buildSelectionSet guessFieldTitle typesMap type path fieldSpecsRequested = Ok sel ->
  concat (map usedVariables (sel_selectionSet sel)) = map arg_name (sel_inputValues sel).
Proof.
  revert type sel. induction path as [|fieldName restPath IH]; intros type sel; simpl.
  - intros Hsel.
    destruct (buildTargetSelection_ok type fieldSpecsRequested)
      as (sel' & Hsel' & Hset & _ & Hinputs & Hnodes).
    assert (sel' = sel) as -> by congruence.
    rewrite Hset, Hinputs. clear Hsel Hsel' Hset Hinputs.
    induction Hnodes as [|field node fields nodes [spec ->] _ IHn]; simpl;
      [reflexivity|].
    rewrite makeSelectionSetFromSpec_no_variables, app_nil_r, argument_variables.
    rewrite IHn. by rewrite map_app.
  - destruct (resolveField typesMap type fieldName) as [[field fieldType]|e];
      simpl; [|discriminate].
    destruct (buildSelectionSet guessFieldTitle typesMap fieldType restPath
                fieldSpecsRequested) as [next|e] eqn:Hnext; simpl; [|discriminate].
    intros [= <-]. simpl.
    rewrite app_nil_r, argument_variables, (IH _ _ Hnext). by rewrite map_app.
Qed.

(** X11. In a document that synthesis built, the variables the
    selection set refers to, read in document order, are the variables
    the operation declares, in the order it declares them: every
    argument passes the variable of its own name, every variable that is
    used is declared and none is declared without being used.  The
    fields of a sub-selection built from a [require] tree get no
    arguments. *)
Theorem used_variables_are_declared schema path fieldSpecsRequested q :
  buildQueryAST guessFieldTitle schema path fieldSpecsRequested = Ok q ->
  concat (map usedVariables (selectionSet (queryDefinition q))) =
    map variable (variableDefinitions (queryDefinition q)) /\
  forall fieldSpec,
    concat (map usedVariables (makeSelectionSetFromSpec fieldSpec)) = [].
Proof.
  intros Hq. split; [|apply makeSelectionSetFromSpec_no_variables].
  revert Hq. unfold buildQueryAST.
  destruct (buildTypesMap schema !! queryType schema) as [rootType|]; [|discriminate].
  destruct (isObject rootType); [|discriminate].
  destruct (buildSelectionSet _ _ _ _ _) as [sel|e] eqn:Hsel; simpl; [|discriminate].
  destruct (mapR _ _) as [definitions|e] eqn:Hdefs; simpl; [|discriminate].
  intros [= <-]. simpl.
  rewrite (buildSelectionSet_variables _ _ _ _ _ Hsel).
  apply mapR_Forall2 in Hdefs. clear Hsel.
  induction Hdefs as [|arg definition args defs Hdef _ IH]; simpl; [reflexivity|].
  rewrite IH. f_equal. unfold buildVariableDefinitionNode in Hdef.
  destruct (buildTypeNode (arg_type arg)); simpl in Hdef; [|discriminate].
  by injection Hdef as <-.
Qed.

(** *** Type nodes *)

Lemma buildTypeNode_valid (typeRef : TypeRef) :
  validInputRef typeRef = true -> buildTypeNode typeRef = Ok (typeNodeOf typeRef).
Proof.
  induction typeRef as [kind name|ofType IH|ofType IH]; simpl.
  - by destruct kind.
  - intros Hvalid. by rewrite IH.
  - destruct ofType as [kind name|inner|inner]; try discriminate.
    + intros Hvalid. by rewrite IH.
    + intros Hvalid. rewrite IH by exact Hvalid. reflexivity.
Qed.

Lemma buildTypeNode_NON_NULL (ofType : TypeRef) :
  buildTypeNode (NON_NULL ofType) =
    typeNode ← buildTypeNode ofType;
    match typeNode with
    | NonNullType _ => Throw (InvariantViolation "Nested NonNullType is not possible")
    | _ => Ok (NonNullType typeNode)
    end.
Proof. reflexivity. Qed.

Lemma buildTypeNode_NON_NULL_node (ofType : TypeRef) node :
  buildTypeNode (NON_NULL ofType) = Ok node -> exists typeNode, node = NonNullType typeNode.
Proof.
  rewrite buildTypeNode_NON_NULL.
  destruct (buildTypeNode ofType) as [typeNode|e]; simpl; [|discriminate].
  destruct typeNode; intros [= <-]; by eexists.
Qed.

Lemma buildTypeNode_throws_invariant (typeRef : TypeRef) e :
  buildTypeNode typeRef = Throw e -> exists message, e = InvariantViolation message.
Proof.
  revert e. induction typeRef as [kind name|ofType IH|ofType IH]; intros e.
  - destruct kind; simpl; intros [= <-]; by eexists.
  - simpl. destruct (buildTypeNode ofType) as [typeNode|e']; simpl; [discriminate|].
    intros [= <-]. by apply IH.
  - rewrite buildTypeNode_NON_NULL.
    destruct (buildTypeNode ofType) as [typeNode|e']; simpl.
    + destruct typeNode; intros [= <-]; by eexists.
    + intros [= <-]. by apply IH.
Qed.

Lemma buildTypeNode_invalid (typeRef : TypeRef) :
  validInputRef typeRef = false -> exists e, buildTypeNode typeRef = Throw e.
Proof.
  induction typeRef as [kind name|ofType IH|ofType IH].
  - destruct kind; simpl; try discriminate; intros _; by eexists.
  - simpl. intros Hinvalid. destruct (IH Hinvalid) as [e ->]. by eexists.
  - rewrite buildTypeNode_NON_NULL. intros Hinvalid.
    destruct (buildTypeNode ofType) as [typeNode|e] eqn:Hinner; simpl; [|by eexists].
    destruct ofType as [kind name|inner|inner].
    + destruct (IH Hinvalid) as [e He]. congruence.
    + destruct (IH Hinvalid) as [e He]. congruence.
    + apply buildTypeNode_NON_NULL_node in Hinner as [typeNode' ->]. by eexists.
Qed.

(** X12. [buildTypeNode] turns a type reference into the type node with
    the same wrappers and the same name exactly when the reference has
    the form of an input type: the name of a SCALAR, an ENUM or an
    INPUT_OBJECT under LIST and NON_NULL wrappers, with no NON_NULL
    directly inside a NON_NULL.  On every other reference it fails an
    invariant; it never raises a [ConfigError]. *)
Theorem buildTypeNode_characterised (typeRef : TypeRef) :
  (forall node,
     buildTypeNode typeRef = Ok node <->
     validInputRef typeRef = true /\ node = typeNodeOf typeRef) /\
  (forall e,
     buildTypeNode typeRef = Throw e ->
     validInputRef typeRef = false /\ exists message, e = InvariantViolation message).
Proof.
  destruct (validInputRef typeRef) eqn:Hvalid.
  - rewrite (buildTypeNode_valid typeRef Hvalid). split.
    + intros node. split; [by intros [= <-]|by intros [_ ->]].
    + discriminate.
  - destruct (buildTypeNode_invalid typeRef Hvalid) as [e' He']. rewrite He'. split.
    + intros node. split; [discriminate|by intros [? _]].
    + intros e [= <-]. split; [reflexivity|].
      by apply (buildTypeNode_throws_invariant typeRef).
Qed.

(** *** An explicit configuration, continued *)

Lemma map_filter_names (keep : Field -> bool) (P : string -> Prop)
    `{forall n, Decision (P n)} (fields : list Field) :
  (forall field, keep field = true <-> P (field_name field)) ->
  map field_name (List.filter keep fields) = filter P (map field_name fields).
Proof.
  intros Hkeep. induction fields as [|field fields IH]; simpl; [reflexivity|].
  rewrite filter_cons.
  destruct (keep field) eqn:Hk, (decide (P (field_name field))) as [HP|HP]; simpl.
  - by rewrite IH.
  - destruct HP. by apply Hkeep.
  - apply Hkeep in HP. congruence.
  - exact IH.
Qed.

Lemma requestedSpecsMap_get requested name :
  Dict.get name (requestedSpecsMap requested) =
    snd <$> last (filter (fun entry => query_field (require (snd entry)) = name)
                    requested).
Proof.
  unfold requestedSpecsMap.
  rewrite (Dict_fill_get (fun entry => query_field (require (snd entry))) snd).
  by destruct (last _).
Qed.

Lemma requestedSpecsMap_is_Some requested name :
  is_Some (Dict.get name (requestedSpecsMap requested)) <->
  name ∈ requiredFields requested.
Proof.
  rewrite Dict_get_is_Some. unfold requestedSpecsMap.
  destruct (Dict_fill_keys (fun entry => query_field (require (snd entry))) snd
              requested [] (NoDup_nil_2)) as [_ Hin].
  rewrite Hin. unfold requiredFields. simpl. rewrite elem_of_nil. tauto.
Qed.

(** X13. With a field configuration, the fields selected at the target
    type are the fields of the type that some entry requires, and the
    field [id], in the order the type declares them, whatever the order
    of the entries.  An entry that requires a name the type does not
    have selects nothing and raises nothing. *)
Theorem configured_selection_in_declaration_order typesMap type requested :
  exists sel,
    buildSelectionSet guessFieldTitle typesMap type [] (Some requested) = Ok sel /\
    map node_name (sel_selections sel) =
      filter (fun name => name = "id" \/ name ∈ requiredFields requested)
        (map field_name (type_fields type)) /\
    forall name,
      name ∈ map node_name (sel_selections sel) -> name ∈ map field_name (type_fields type).
Proof.
  destruct (buildTargetSelection_ok type (Some requested))
    as (sel & Hsel & _ & _ & _ & Hnodes).
  exists sel. split; [exact Hsel|].
  assert (map node_name (sel_selections sel) =
          map field_name (selectedFields type (Some requested))) as Hnames.
  { induction Hnodes as [|field node fields nodes [spec ->] _ IHn]; simpl;
      [reflexivity|by rewrite IHn]. }
  assert (map node_name (sel_selections sel) =
          filter (fun name => name = "id" \/ name ∈ requiredFields requested)
            (map field_name (type_fields type))) as Hfilter.
  { rewrite Hnames. simpl. unfold requestedFieldIntros.
    apply map_filter_names. intros field.
    pose proof (requestedSpecsMap_is_Some requested (field_name field)) as Hsome.
    destruct (Dict.get (field_name field) (requestedSpecsMap requested)) as [spec|].
    - split; [|done]. intros _. right. apply Hsome. by eexists.
    - rewrite String.eqb_eq. split; [by left|].
      intros [Hid|Hin]; [exact Hid|]. apply Hsome in Hin. by destruct Hin. }
  split; [exact Hfilter|].
  intros name. rewrite Hfilter. by intros [_ Hin]%list_elem_of_filter.
Qed.

Lemma no_node_of_other_name (g : Field -> FieldNode) (keep : Field -> bool)
    (name : string) (fields : list Field) :
  (forall field, node_name (g field) = field_name field) ->
  name ∉ map field_name fields ->
  List.filter (fun node => String.eqb (node_name node) name)
    (map g (List.filter keep fields)) = [].
Proof.
  intros Hg. induction fields as [|x fields IH]; simpl; [reflexivity|].
  intros [Hx Hrest]%not_elem_of_cons.
  destruct (keep x); simpl; [|by apply IH].
  rewrite Hg. destruct (String.eqb_spec (field_name x) name) as [Heq|_];
    [by destruct Hx|by apply IH].
Qed.

(** Among the nodes built for the kept fields of a type with distinct
    field names, one has the name of a kept field: its own. *)
Lemma one_node_per_field (g : Field -> FieldNode) (keep : Field -> bool)
    (field : Field) (fields : list Field) :
  (forall field, node_name (g field) = field_name field) ->
  NoDup (map field_name fields) ->
  field ∈ fields -> keep field = true ->
  List.filter (fun node => String.eqb (node_name node) (field_name field))
    (map g (List.filter keep fields)) = [g field].
Proof.
  intros Hg. induction fields as [|x fields IH]; simpl; intros Hnd Hin Hkeep.
  - by apply elem_of_nil in Hin.
  - apply NoDup_cons in Hnd as [Hx Hnd].
    apply elem_of_cons in Hin as [->|Hin].
    + rewrite Hkeep. simpl. rewrite Hg, String.eqb_refl.
      by rewrite (no_node_of_other_name g keep _ fields Hg Hx).
    + assert (field_name x <> field_name field) as Hname.
      { intros Heq. apply Hx. rewrite Heq.
        apply list_elem_of_In, in_map. by apply list_elem_of_In. }
      destruct (keep x); simpl; [|by apply IH].
      rewrite Hg. destruct (String.eqb_spec (field_name x) (field_name field));
        [done|by apply IH].
Qed.

(** X14. When several entries of the configuration require the same
    field of a type whose field names are distinct, the field is
    selected once, with the sub-selection of the last of these entries:
    of the nodes selected, in the selection set as in the selection of
    the target, exactly one has the name of the field, and its
    sub-selection is the one of that entry. *)
Theorem last_entry_decides_subselection typesMap type requested field entry :
  NoDup (map field_name (type_fields type)) ->
  field ∈ type_fields type ->
  last (filter (fun e => query_field (require (snd e)) = field_name field) requested)
    = Some entry ->
  exists sel,
    buildSelectionSet guessFieldTitle typesMap type [] (Some requested) = Ok sel /\
    List.filter (fun node => String.eqb (node_name node) (field_name field))
      (sel_selections sel) =
      [FieldN (field_name field) (map buildArgumentNode (field_args field))
         (makeSelectionSetFromSpec (snd entry))] /\
    List.filter (fun node => String.eqb (node_name node) (field_name field))
      (sel_selectionSet sel) =
      [FieldN (field_name field) (map buildArgumentNode (field_args field))
         (makeSelectionSetFromSpec (snd entry))] /\
    FieldN (field_name field) (map buildArgumentNode (field_args field))
      (makeSelectionSetFromSpec (snd entry)) ∈ sel_selections sel.
Proof.
  intros Hnd Hfield Hlast. simpl. unfold buildTargetSelection.
  rewrite (mapR_ok _ _ _ (selectField_requested (requestedSpecsMap requested) type)).
  simpl. eexists. split; [reflexivity|]. simpl.
  assert (Dict.get (field_name field) (requestedSpecsMap requested) = Some (snd entry))
    as Hget by (by rewrite requestedSpecsMap_get, Hlast).
  assert (List.filter (fun node => String.eqb (node_name node) (field_name field))
            (map (fun field0 =>
                    FieldN (field_name field0) (map buildArgumentNode (field_args field0))
                      (makeSelectionSetFromSpec
                         match Dict.get (field_name field0) (requestedSpecsMap requested) with
                         | Some fieldSpec => fieldSpec
                         | None => mkFieldSpec "ID" (mkQuery "id" None)
                         end))
               (requestedFieldIntros (requestedSpecsMap requested) type)) =
          [FieldN (field_name field) (map buildArgumentNode (field_args field))
             (makeSelectionSetFromSpec (snd entry))]) as Hone.
  { unfold requestedFieldIntros.
    rewrite (one_node_per_field _ _ field (type_fields type)); try done.
    - by rewrite Hget.
    - by rewrite Hget. }
  split; [exact Hone|]. split; [exact Hone|].
  apply list_elem_of_In, in_map_iff. exists field. rewrite Hget.
  split; [reflexivity|]. apply filter_In.
  split; [by apply list_elem_of_In|]. by rewrite Hget.
Qed.

(** *** The shape of the document *)

Lemma findField_name type fieldName field :
  findField type fieldName = Some field -> field_name field = fieldName.
Proof.
  unfold findField. intros Hfind. apply find_some in Hfind as [_ Heq].
  by apply String.eqb_eq.
Qed.

Lemma resolveField_Ok typesMap type fieldName field fieldType :
  resolveField typesMap type fieldName = Ok (field, fieldType) ->
  field_name field = fieldName /\ field ∈ type_fields type /\
  isObject fieldType = true /\
  typesMap !! snd (namedType (field_type field)) = Some fieldType.
Proof.
  unfold resolveField.
  destruct (findField type fieldName) as [found|] eqn:Hfind; [|discriminate].
  rewrite resolveType_namedType.
  destruct (namedType (field_type found)) as [kind name] eqn:Hnamed.
  assert (forall next : Result IntrospectionType,
            (nextType ← next;
             if isObject nextType then Ok (found, nextType)
             else Throw (ConfigError "Expected object type for nextType.kind"))
            = Ok (field, fieldType) ->
            next = Ok fieldType /\ found = field /\ isObject fieldType = true) as Hbind.
  { intros [nextType|e]; simpl; [|discriminate].
    destruct (isObject nextType) eqn:Hobj; [|discriminate].
    intros [= <- <-]. done. }
  intros Hres. apply Hbind in Hres as (Hnext & <- & Hobj).
  split; [by eapply findField_name|]. split.
  { unfold findField in Hfind. apply find_some in Hfind as [Hin _].
    by apply list_elem_of_In. }
  split; [exact Hobj|]. rewrite Hnamed. simpl.
  destruct kind; try discriminate;
    destruct (typesMap !! name); by try injection Hnext as ->.
Qed.

(** X22. The selection set synthesis builds follows the path: it is one
    field node for each hop, each inside the one before it, bearing the
    name the path gives and the arguments the schema declares for that
    field, with the selection of the target type innermost.  Each hop is
    a field of the type it is taken from, and the type it leads to is an
    OBJECT of the index. *)
Theorem document_follows_path typesMap type path fieldSpecsRequested sel :
  buildSelectionSet guessFieldTitle typesMap type path fieldSpecsRequested = Ok sel ->
  exists hops target,
    walkPath typesMap type path = Ok (hops, target) /\
    map field_name hops = path /\
    sel_selectionSet sel = hopChain hops (sel_selections sel) /\
    (path <> [] ->
     isObject target = true /\ exists name, typesMap !! name = Some target).
Proof.
  revert type sel. induction path as [|fieldName restPath IH]; intros type sel; simpl.
  - intros Hsel. exists [], type.
    destruct (buildTargetSelection_ok type fieldSpecsRequested)
      as (sel' & Hsel' & Hset & _).
    assert (sel' = sel) as -> by congruence.
    split; [reflexivity|]. split; [reflexivity|]. split; [exact Hset|done].
  - destruct (resolveField typesMap type fieldName) as [[field fieldType]|e] eqn:Hres;
      simpl; [|discriminate].
    destruct (buildSelectionSet guessFieldTitle typesMap fieldType restPath
                fieldSpecsRequested) as [next|e] eqn:Hnext; simpl; [|discriminate].
    intros [= <-]. simpl.
    destruct (IH _ _ Hnext) as (hops & target & Hwalk & Hnames & Hchain & Htarget).
    apply resolveField_Ok in Hres as (Hname & _ & Hobj & Hindex).
    exists (field :: hops), target. rewrite Hwalk. simpl.
    split; [reflexivity|]. split; [by rewrite Hname, Hnames|].
    split; [by rewrite Hname, Hchain|]. intros _.
    destruct restPath as [|hop restPath].
    + simpl in Hwalk. injection Hwalk as _ <-. split; [exact Hobj|]. by eexists.
    + by apply Htarget.
Qed.

(** *** The variables map and the description *)

(** X15. The [variablesMap] of [introspect] is [null] exactly when the
    operation declares no variable.  Otherwise it has one entry for each
    name declared, a name declared several times included: its entry is
    the last definition of that name. *)
Theorem variablesMap_keeps_last_definition (definitions : list VariableDefinitionNode) :
  (buildVariablesMap definitions = None <-> definitions = []) /\
  forall variablesMap,
    buildVariablesMap definitions = Some variablesMap ->
    NoDup (Dict.keys variablesMap) /\
    (forall name, name ∈ Dict.keys variablesMap <-> name ∈ map variable definitions) /\
    (forall name,
       Dict.get name variablesMap =
         last (filter (fun definition => variable definition = name) definitions)).
Proof.
  split.
  - destruct definitions; simpl; split; congruence.
  - intros variablesMap Hmap.
    assert (variablesMap =
            fold_left (fun m definition => Dict.set (variable definition) definition m)
              definitions []) as ->
      by (destruct definitions; [discriminate|by injection Hmap as <-]).
    destruct (Dict_fill_keys variable (fun definition => definition) definitions []
                (NoDup_nil_2)) as [Hnd Hin].
    split; [exact Hnd|]. split.
    + intros name. rewrite Hin. simpl. rewrite elem_of_nil. tauto.
    + intros name.
      rewrite (Dict_fill_get variable (fun definition => definition)).
      by destruct (last _).
Qed.

Lemma walkPath_length typesMap type path hops target :
  walkPath typesMap type path = Ok (hops, target) -> length hops = length path.
Proof.
  revert type hops. induction path as [|fieldName restPath IH]; intros type hops; simpl.
  - by intros [= <- <-].
  - destruct (resolveField typesMap type fieldName) as [[field fieldType]|e];
      simpl; [|discriminate].
    destruct (walkPath typesMap fieldType restPath) as [[hops' target']|e] eqn:Hwalk;
      simpl; [|discriminate].
    intros [= <- <-]. simpl. f_equal. by eapply IH.
Qed.

(** X16. The description [buildQueryAST] returns is the description of
    the field of the first hop of the path, however long the path is,
    and there is none when the path is empty. *)
Theorem description_is_of_first_hop schema path fieldSpecsRequested q :
  buildQueryAST guessFieldTitle schema path fieldSpecsRequested = Ok q ->
  exists root hops target,
    buildTypesMap schema !! queryType schema = Some root /\
    walkPath (buildTypesMap schema) root path = Ok (hops, target) /\
    length hops = length path /\
    description q =
      match hops with
      | [] => None
      | firstHop :: _ => field_description firstHop
      end.
Proof.
  unfold buildQueryAST.
  destruct (buildTypesMap schema !! queryType schema) as [rootType|]; [|discriminate].
  destruct (isObject rootType); [|discriminate].
  destruct (buildSelectionSet _ _ _ _ _) as [sel|e] eqn:Hsel; simpl; [|discriminate].
  destruct (mapR _ _) as [definitions|e]; simpl; [|discriminate].
  intros [= <-]. simpl. exists rootType.
  destruct path as [|fieldName restPath]; simpl in Hsel.
  - destruct (buildTargetSelection_ok rootType fieldSpecsRequested)
      as (sel' & Hsel' & _ & Hdesc & _).
    assert (sel' = sel) as -> by congruence.
    exists [], rootType. by rewrite Hdesc.
  - simpl. destruct (resolveField _ rootType fieldName) as [[field fieldType]|e];
      simpl in *; [|discriminate].
    destruct (buildSelectionSet guessFieldTitle _ fieldType restPath fieldSpecsRequested)
      as [next|e] eqn:Hnext; simpl in Hsel; [|discriminate].
    injection Hsel as <-.
    destruct (buildSelectionSet_walk guessFieldTitle _ _ _ _ _ Hnext)
      as (hops & target & Hwalk & _).
    rewrite Hwalk. simpl. exists (field :: hops), target.
    split; [reflexivity|]. split; [reflexivity|]. split; [|reflexivity].
    simpl. f_equal. by eapply walkPath_length.
Qed.

End SynthesisMore.

(** * Properties of the paging state *)

Section Paging.

Import PickRenderer.

Local Open Scope Z_scope.

Lemma click_limit (c : PageClick) (state : PickState) :
  limit (click c state) = limit state.
Proof. by destruct c. Qed.

(** Being on a page boundary: the limit is [pageLimit] and the offset a
    multiple of the page length [pageLimit - 1]. *)
Lemma click_keeps_boundary (pageLimit : Z) (c : PageClick) (state : PickState) :
  1 <= pageLimit ->
  limit state = pageLimit ->
  (exists k, 0 <= k /\ offset state = k * (pageLimit - 1)) ->
  exists k, 0 <= k /\ offset (click c state) = k * (pageLimit - 1).
Proof.
  intros Hlimit Hl (k & Hk & Ho). destruct c; simpl; rewrite Hl, Ho.
  - destruct (Z.leb_spec (k * (pageLimit - 1) + 1 - pageLimit) 0) as [Hle|Hgt].
    + exists 0. lia.
    + exists (k - 1). split; [nia|lia].
  - exists (k + 1). split; [lia|lia].
Qed.

(** X17. Starting from the default state, whatever paging buttons are
    clicked, the limit stays what it was (21 or 51) and the offset is a
    multiple of the limit less one and not negative: pages are 20 or 50
    rows apart, the last row fetched being the first of the next page. *)
Theorem paging_stays_on_page_boundaries (clicked : list PageClick) (isTabletWidth : bool) :
  let state := clicks clicked (defaultPickState isTabletWidth) in
  limit state = (if isTabletWidth then 51 else 21) /\
  exists page, 0 <= page /\ offset state = page * (limit state - 1).
Proof.
  simpl. unfold clicks.
  set (pageLimit := if isTabletWidth then 51 else 21).
  assert (1 <= pageLimit) as Hlimit by (subst pageLimit; destruct isTabletWidth; lia).
  assert (forall cs state,
            limit state = pageLimit ->
            (exists k, 0 <= k /\ offset state = k * (pageLimit - 1)) ->
            limit (fold_left (fun st c => click c st) cs state) = pageLimit /\
            exists k, 0 <= k /\
              offset (fold_left (fun st c => click c st) cs state) = k * (pageLimit - 1))
    as Hinv.
  { induction cs as [|c cs IH]; intros state Hl Ho; simpl; [by split|].
    apply IH; [by rewrite click_limit|by apply click_keeps_boundary]. }
  destruct (Hinv clicked (defaultPickState isTabletWidth)) as [Hl Ho].
  - by destruct isTabletWidth.
  - exists 0. split; [lia|reflexivity].
  - split; [exact Hl|]. by rewrite Hl.
Qed.

(** X18. From a state whose offset is not negative, the next-page
    button followed by the previous-page button leads back to the same
    state.  The previous-page button never makes the offset negative,
    and on the first page (and up to one page length into the list) it
    leads to offset 0, where no previous page is offered. *)
Theorem next_then_previous_page (state : PickState) :
  0 <= offset state ->
  click PrevPage (click NextPage state) = state /\
  0 <= offset (click PrevPage state) /\
  (offset state <= limit state - 1 ->
   offset (click PrevPage state) = 0 /\ hasPrev (click PrevPage state) = false).
Proof.
  intros Hoffset. destruct state as [o l s st so f]. simpl in *.
  unfold decrementPage, incrementPage, withOffset, hasPrev. simpl.
  split; [|split].
  - destruct (Z.leb_spec (o - 1 + l + 1 - l) 0); f_equal; lia.
  - destruct (Z.leb_spec (o + 1 - l) 0); lia.
  - intros Hfirst. destruct (Z.leb_spec (o + 1 - l) 0); [by split|lia].
Qed.

(** X19. Setting a filter goes back to the first page and leaves the
    limit, the sort order and the search alone.  The filter then has the
    new value under that name, under the other names what it had, and
    still one entry for each name. *)
Theorem setFilterState_updates_one_filter (name : string) (value : option bool)
    (state : PickState) :
  NoDup (Dict.keys (filter state)) ->
  let state' := setFilterState name value state in
  offset state' = 0 /\
  limit state' = limit state /\
  sort state' = sort state /\
  search state' = search state /\
  Dict.get name (filter state') = Some value /\
  (forall other, other <> name ->
     Dict.get other (filter state') = Dict.get other (filter state)) /\
  NoDup (Dict.keys (filter state')).
Proof.
  intros Hnd. simpl. repeat split.
  - apply Dict_get_set_eq.
  - intros other Hother. by apply Dict_get_set_ne.
  - rewrite Dict_keys_set. destruct (decide (name ∈ Dict.keys (filter state))); [done|].
    apply NoDup_app. split; [done|]. split; [|apply NoDup_singleton].
    intros k Hk ->%list_elem_of_singleton. done.
Qed.

End Paging.

(** * Serialized parameters tell the parameters apart *)

Section Serialization.

Import Json JsonShape.

Lemma app_cons (c : ascii) (s r : string) : String c s +:+ r = String c (s +:+ r).
Proof. reflexivity. Qed.

Lemma app_empty_l (r : string) : EmptyString +:+ r = r.
Proof. reflexivity. Qed.

Lemma app_empty_r (s : string) : s +:+ EmptyString = s.
Proof. induction s as [|c s IH]; [reflexivity|]. by rewrite app_cons, IH. Qed.

Lemma app_assoc_string (a b c : string) : (a +:+ b) +:+ c = a +:+ b +:+ c.
Proof. induction a as [|x a IH]; [reflexivity|]. by rewrite !app_cons, IH. Qed.

(** *** Strings *)

Lemma unescapeHead_escapeChar (c : ascii) (rest : string) :
  unescapeHead (escapeChar c +:+ rest) = Some (c, rest).
Proof. destruct c as [[] [] [] [] [] [] [] []]; reflexivity. Qed.

Lemma unescapeHead_quote (rest : string) : unescapeHead (String "034" rest) = None.
Proof. reflexivity. Qed.

Lemma escape_cons (c : ascii) (s : string) :
  escape (String c s) = escapeChar c +:+ escape s.
Proof. reflexivity. Qed.

Lemma escape_inj (s1 s2 t1 t2 : string) :
  escape s1 +:+ String "034" t1 = escape s2 +:+ String "034" t2 ->
  s1 = s2 /\ t1 = t2.
Proof.
  revert s2. induction s1 as [|c1 s1 IH]; intros [|c2 s2];
    rewrite ?escape_cons, ?app_assoc_string.
  - simpl escape. rewrite !app_empty_l. by intros [= ->].
  - simpl escape. rewrite app_empty_l. intros Heq.
    apply (f_equal unescapeHead) in Heq.
    by rewrite unescapeHead_escapeChar, unescapeHead_quote in Heq.
  - simpl escape. rewrite app_empty_l. intros Heq.
    apply (f_equal unescapeHead) in Heq.
    by rewrite unescapeHead_escapeChar, unescapeHead_quote in Heq.
  - intros Heq. pose proof (f_equal unescapeHead Heq) as Hhead.
    rewrite !unescapeHead_escapeChar in Hhead. injection Hhead as -> Hrest.
    destruct (IH s2 Hrest) as [-> ->]. done.
Qed.

Lemma quote_app (s t : string) :
  quote s +:+ t = String "034" (escape s +:+ String "034" t).
Proof.
  unfold quote, dquote. by rewrite !app_cons, !app_empty_l, app_assoc_string, app_cons.
Qed.

Lemma quote_inj (s1 s2 t1 t2 : string) :
  quote s1 +:+ t1 = quote s2 +:+ t2 -> s1 = s2 /\ t1 = t2.
Proof. rewrite !quote_app. intros [= Heq]. by apply escape_inj. Qed.

(** *** Numbers *)

Lemma pretty_N_char_digit (x : N) : isDigit (pretty_N_char x) = true.
Proof. unfold pretty_N_char. repeat case_match; reflexivity. Qed.

Lemma pretty_N_go_digits (x : N) (s : string) :
  allDigits s = true -> allDigits (pretty_N_go x s) = true.
Proof.
  revert s. induction (N.lt_wf_0 x) as [x _ IH]; intros s Hs.
  destruct (decide (0 < x)%N) as [Hpos|Hzero].
  - rewrite pretty_N_go_step by done. apply IH.
    + by apply N.div_lt.
    + simpl. by rewrite pretty_N_char_digit.
  - assert (x = 0%N) as -> by lia. by rewrite pretty_N_go_0.
Qed.

Lemma pretty_N_go_nonempty (x : N) (s : string) :
  s <> EmptyString -> pretty_N_go x s <> EmptyString.
Proof.
  revert s. induction (N.lt_wf_0 x) as [x _ IH]; intros s Hs.
  destruct (decide (0 < x)%N) as [Hpos|Hzero].
  - rewrite pretty_N_go_step by done. apply IH; [by apply N.div_lt|done].
  - assert (x = 0%N) as -> by lia. by rewrite pretty_N_go_0.
Qed.

Lemma pretty_N_digits (x : N) :
  allDigits (pretty x) = true /\ pretty x <> EmptyString.
Proof.
  unfold pretty, pretty_N. destruct (decide (x = 0%N)) as [->|Hne].
  - by split.
  - split; [by apply pretty_N_go_digits|].
    rewrite pretty_N_go_step by lia. by apply pretty_N_go_nonempty.
Qed.

(** A printed integer is a run of digits, after a minus sign if it is
    negative. *)
Lemma pretty_Z_shape (z : Z) :
  exists digits,
    allDigits digits = true /\ digits <> EmptyString /\
    (pretty z = digits \/ pretty z = String "-" digits).
Proof.
  destruct z as [|x|x].
  - exists "0". by repeat split; [|left].
  - exists (pretty (N.pos x)). destruct (pretty_N_digits (N.pos x)) as [? ?].
    split; [done|]. split; [done|]. by left.
  - exists (pretty (N.pos x)). destruct (pretty_N_digits (N.pos x)) as [? ?].
    split; [done|]. split; [done|]. by right.
Qed.

Lemma digits_split (a b r1 r2 : string) :
  allDigits a = true -> allDigits b = true ->
  notDigitStart r1 -> notDigitStart r2 ->
  a +:+ r1 = b +:+ r2 -> a = b /\ r1 = r2.
Proof.
  revert b. induction a as [|x a IH]; intros [|y b] Ha Hb H1 H2;
    rewrite ?app_cons, ?app_empty_l.
  - done.
  - intros ->. simpl in H1, Hb. apply andb_prop in Hb as [Hy _]. congruence.
  - intros <-. simpl in H2, Ha. apply andb_prop in Ha as [Hx _]. congruence.
  - intros [= -> Heq]. simpl in Ha, Hb.
    apply andb_prop in Ha as [_ Ha]. apply andb_prop in Hb as [_ Hb].
    destruct (IH b Ha Hb H1 H2 Heq) as [-> ->]. done.
Qed.

Lemma number_inj (z1 z2 : Z) (r1 r2 : string) :
  notDigitStart r1 -> notDigitStart r2 ->
  pretty z1 +:+ r1 = pretty z2 +:+ r2 -> z1 = z2 /\ r1 = r2.
Proof.
  intros H1 H2 Heq.
  destruct (pretty_Z_shape z1) as (d1 & Hd1 & Hn1 & Hs1).
  destruct (pretty_Z_shape z2) as (d2 & Hd2 & Hn2 & Hs2).
  assert (pretty z1 = pretty z2 /\ r1 = r2) as [Hpretty ->].
  { destruct Hs1 as [Hs1|Hs1], Hs2 as [Hs2|Hs2]; rewrite Hs1, Hs2 in Heq |- *.
    - destruct (digits_split d1 d2 r1 r2 Hd1 Hd2 H1 H2 Heq) as [-> ->]. done.
    - destruct d1 as [|c d1]; [done|]. rewrite !app_cons in Heq.
      injection Heq as -> _. simpl in Hd1. discriminate.
    - destruct d2 as [|c d2]; [done|]. rewrite !app_cons in Heq.
      injection Heq as <- _. simpl in Hd2. discriminate.
    - rewrite !app_cons in Heq. injection Heq as Heq.
      destruct (digits_split d1 d2 r1 r2 Hd1 Hd2 H1 H2 Heq) as [-> ->]. done. }
  split; [|reflexivity]. by apply (inj pretty).
Qed.

(** *** The first character *)

Lemma startKind_digit (c : ascii) : isDigit c = true -> startKind c = 2.
Proof. destruct c as [[] [] [] [] [] [] [] []]; try discriminate; reflexivity. Qed.

Lemma stringify_start (v : value) (rest : string) :
  exists c s, stringify v +:+ rest = String c s /\ startKind c = kindOf v.
Proof.
  destruct v as [|[]|n|s|items|props]; simpl stringify.
  - by eexists _, _.
  - by eexists _, _.
  - by eexists _, _.
  - destruct (pretty_Z_shape n) as (digits & Hd & Hn & [->| ->]).
    + destruct digits as [|c digits]; [done|]. rewrite app_cons.
      eexists _, _. split; [reflexivity|]. simpl in Hd.
      apply andb_prop in Hd as [Hc _]. by apply startKind_digit.
    + by eexists _, _.
  - rewrite quote_app. by eexists _, _.
  - by eexists _, _.
  - by eexists _, _.
Qed.

(** A serialized value does not start with a comma or a closing
    bracket. *)
Lemma stringify_no_closer (v : value) (rest : string) (c : ascii) (s : string) :
  stringify v +:+ rest = String c s -> startKind c <> 6.
Proof.
  intros Heq. destruct (stringify_start v rest) as (c' & s' & Heq' & Hkind).
  rewrite Heq in Heq'. injection Heq' as <- _. rewrite Hkind. by destruct v.
Qed.

(** *** Arrays and objects *)

Lemma value_nested_ind (P : value -> Prop) :
  P Null ->
  (forall b, P (Bool b)) ->
  (forall n, P (Num n)) ->
  (forall s, P (Str s)) ->
  (forall items, Forall P items -> P (Arr items)) ->
  (forall props, Forall (fun kv => P (snd kv)) props -> P (Obj props)) ->
  forall v, P v.
Proof.
  intros HNull HBool HNum HStr HArr HObj. fix nested 1. intros v.
  destruct v as [|b|n|s|items|props].
  - exact HNull.
  - apply HBool.
  - apply HNum.
  - apply HStr.
  - apply HArr. induction items as [|item items IH]; constructor; [apply nested|exact IH].
  - apply HObj. induction props as [|[k item] props IH]; constructor;
      [apply nested|exact IH].
Qed.

Lemma join_cons_tail (sep p : string) (parts : list string) (tail : string) :
  join sep (p :: parts) +:+ tail = p +:+ joinTail sep parts tail.
Proof.
  destruct parts as [|q parts]; [reflexivity|].
  change (join sep (p :: q :: parts)) with (p +:+ sep +:+ join sep (q :: parts)).
  unfold joinTail. by rewrite !app_assoc_string.
Qed.

Lemma joinTail_notDigitStart (parts : list string) (close : ascii) (rest : string) :
  isDigit close = false -> notDigitStart (joinTail "," parts (String close rest)).
Proof. intros Hclose. by destruct parts. Qed.

(** Items printed by [pr] and joined by commas can be read back, when
    [pr] prints no two items alike and starts none with a comma or a
    closing bracket. *)
Lemma join_inj {X : Type} (pr : X -> string) (ok : X -> Prop) (close : ascii) :
  startKind close = 6 -> isDigit close = false -> close <> ","%char ->
  (forall x rest c s, pr x +:+ rest = String c s -> startKind c <> 6) ->
  forall xs,
    Forall (fun x => forall y r1 r2,
              ok y -> notDigitStart r1 -> notDigitStart r2 ->
              pr x +:+ r1 = pr y +:+ r2 -> x = y /\ r1 = r2) xs ->
    forall ys r1 r2,
      Forall ok ys ->
      join "," (map pr xs) +:+ String close r1 = join "," (map pr ys) +:+ String close r2 ->
      xs = ys /\ r1 = r2.
Proof.
  intros Hkind Hdigit Hcomma Hstart.
  induction xs as [|x xs IH]; intros Hall [|y ys] r1 r2 Hok; simpl map.
  - simpl join. rewrite !app_empty_l. by intros [= ->].
  - simpl (join _ []). rewrite app_empty_l, join_cons_tail. intros Heq.
    symmetry in Heq. by apply Hstart in Heq.
  - simpl (join _ []). rewrite app_empty_l, join_cons_tail. intros Heq.
    by apply Hstart in Heq.
  - rewrite !join_cons_tail. intros Heq.
    apply Forall_cons in Hall as [Hx Hall].
    apply Forall_cons in Hok as [Hy Hok].
    destruct (Hx y _ _ Hy (joinTail_notDigitStart _ _ _ Hdigit)
                (joinTail_notDigitStart _ _ _ Hdigit) Heq) as [-> Htail].
    destruct xs as [|x' xs], ys as [|y' ys]; simpl map in Htail; unfold joinTail in Htail.
    + by injection Htail as ->.
    + rewrite app_cons in Htail. by injection Htail as ? _.
    + rewrite app_cons in Htail. by injection Htail as ? _.
    + rewrite !app_cons, !app_empty_l in Htail. injection Htail as Htail.
      destruct (IH Hall (y' :: ys) r1 r2 Hok Htail) as [-> ->]. done.
Qed.

(** *** The order of enumeration *)

Lemma indexedProperties_plain {A : Type} (props : list (string * A))
    (sorted : list (N * (string * A))) :
  Forall (fun kv => arrayIndex (fst kv) = None) props ->
  fold_left
    (fun sorted prop =>
       match arrayIndex (fst prop) with
       | Some n => insertIndexed n prop sorted
       | None => sorted
       end)
    props sorted = sorted.
Proof.
  intros Hall. revert sorted.
  induction Hall as [|kv props Hkv _ IH]; intros sorted; [reflexivity|].
  simpl. by rewrite Hkv.
Qed.

(** Properties none of which has an array index as its key are
    enumerated in the order of their insertion. *)
Lemma ownProperties_plain {A : Type} (props : list (string * A)) :
  Forall (fun kv => arrayIndex (fst kv) = None) props -> ownProperties props = props.
Proof.
  intros Hall. unfold ownProperties, indexedProperties.
  rewrite indexedProperties_plain by exact Hall. simpl.
  induction Hall as [|kv props Hkv _ IH]; [reflexivity|].
  simpl. by rewrite Hkv, IH.
Qed.

Lemma forallb_Forall {X : Type} (f : X -> bool) (xs : list X) :
  forallb f xs = true -> Forall (fun x => f x = true) xs.
Proof.
  induction xs as [|x xs IH]; simpl; [by constructor|].
  intros [Hx Hxs]%andb_prop. constructor; [exact Hx|by apply IH].
Qed.

Lemma plainData_Obj (props : list (string * value)) :
  plainData (Obj props) = true ->
  Forall (fun kv => arrayIndex (fst kv) = None) props /\
  Forall (fun kv => plainData (snd kv) = true) props.
Proof.
  intros Hall%forallb_Forall. split.
  - eapply Forall_impl; [exact Hall|]. intros kv [Hk _]%andb_prop.
    by destruct (arrayIndex kv.1).
  - eapply Forall_impl; [exact Hall|]. by intros kv [_ Hv]%andb_prop.
Qed.

Lemma stringify_Arr_app (items : list value) (rest : string) :
  stringify (Arr items) +:+ rest =
    String "[" (join "," (map stringify items) +:+ String "]" rest).
Proof.
  simpl stringify. by rewrite !app_cons, !app_empty_l, app_assoc_string, app_cons.
Qed.

Lemma stringify_Obj_app (props : list (string * value)) (rest : string) :
  Forall (fun kv => arrayIndex (fst kv) = None) props ->
  stringify (Obj props) +:+ rest =
    String "{"
      (join "," (map (fun kv => quote (fst kv) +:+ ":" +:+ stringify (snd kv)) props)
       +:+ String "}" rest).
Proof.
  intros Hkeys. simpl stringify.
  rewrite ownProperties_plain, map_map
    by (apply Forall_map; eapply Forall_impl; [exact Hkeys|done]).
  simpl. by rewrite !app_cons, !app_empty_l, app_assoc_string, app_cons.
Qed.

Lemma property_app (k : string) (v : value) (rest : string) :
  (quote k +:+ ":" +:+ stringify v) +:+ rest =
    quote k +:+ String ":" (stringify v +:+ rest).
Proof. by rewrite !app_assoc_string, app_cons, app_empty_l. Qed.

Ltac other_kind :=
  exfalso;
  match goal with
  | H : stringify ?a +:+ ?r1 = stringify ?b +:+ ?r2 |- _ =>
      let Ha := fresh in let Hb := fresh in
      let Hka := fresh in let Hkb := fresh in
      destruct (stringify_start a r1) as (? & ? & Ha & Hka);
      destruct (stringify_start b r2) as (? & ? & Hb & Hkb);
      rewrite H in Ha; rewrite Ha in Hb; injection Hb as ? ?; subst;
      simpl in Hka, Hkb; congruence
  end.

(** Two plain values whose serializations agree, each followed by a text
    that does not go on with a digit, are the same value followed by the
    same text. *)
Lemma stringify_inj_prefix (v : value) :
  plainData v = true ->
  forall v' r1 r2,
    plainData v' = true ->
    notDigitStart r1 -> notDigitStart r2 ->
    stringify v +:+ r1 = stringify v' +:+ r2 -> v = v' /\ r1 = r2.
Proof.
  induction v as [|b|n|s|items IH|props IH] using value_nested_ind;
    intros Hplain v' r1 r2 Hplain' H1 H2 Heq; destruct v' as [|b'|n'|s'|items'|props'];
    try other_kind.
  - simpl stringify in Heq. rewrite !app_cons, !app_empty_l in Heq.
    by injection Heq as ->.
  - destruct b, b'; simpl stringify in Heq; rewrite !app_cons, !app_empty_l in Heq;
      try discriminate; by injection Heq as ->.
  - simpl stringify in Heq. destruct (number_inj _ _ _ _ H1 H2 Heq) as [-> ->]. done.
  - simpl stringify in Heq. destruct (quote_inj _ _ _ _ Heq) as [-> ->]. done.
  - rewrite !stringify_Arr_app in Heq. injection Heq as Heq.
    apply forallb_Forall in Hplain, Hplain'.
    destruct (join_inj stringify (fun y => plainData y = true) "]"
                eq_refl eq_refl ltac:(discriminate) stringify_no_closer)
      with (xs := items) (ys := items') (r1 := r1) (r2 := r2) as [-> ->];
      try done.
    pose proof (conj IH Hplain) as Hboth. apply Forall_and in Hboth.
    eapply Forall_impl; [exact Hboth|]. intros x [Hx Hpx] y t1 t2 Hy.
    by apply Hx.
  - apply plainData_Obj in Hplain as [Hkeys Hvalues].
    apply plainData_Obj in Hplain' as [Hkeys' Hvalues'].
    rewrite !stringify_Obj_app in Heq by done. injection Heq as Heq.
    destruct (join_inj (fun kv => quote (fst kv) +:+ ":" +:+ stringify (snd kv))
                (fun kv => plainData (snd kv) = true)
                "}" eq_refl eq_refl ltac:(discriminate)) with
      (xs := props) (ys := props') (r1 := r1) (r2 := r2) as [-> ->]; try done.
    + intros [k v] rest c s. simpl. rewrite property_app, quote_app.
      intros [= <- _]. discriminate.
    + pose proof (conj IH Hvalues) as Hboth. apply Forall_and in Hboth.
      eapply Forall_impl; [exact Hboth|].
      intros [k v] [Hv Hpv] [k' v'] t1 t2 Hpv' Ht1 Ht2.
      simpl in Hv, Hpv, Hpv' |- *.
      rewrite !property_app. intros Hkv.
      destruct (quote_inj _ _ _ _ Hkv) as [-> Hrest]. injection Hrest as Hrest.
      destruct (Hv Hpv v' t1 t2 Hpv' Ht1 Ht2 Hrest) as [-> ->]. done.
Qed.

Lemma stringify_inj (v1 v2 : value) :
  plainData v1 = true -> plainData v2 = true ->
  stringify v1 = stringify v2 -> v1 = v2.
Proof.
  intros Hp1 Hp2 Heq.
  destruct (stringify_inj_prefix v1 Hp1 v2 EmptyString EmptyString Hp2 I I) as [-> _];
    [by rewrite !app_empty_r|reflexivity].
Qed.

Lemma orEmptyObject_plain (params : option value) :
  plainParams params = true -> plainData (orEmptyObject params) = true.
Proof.
  destruct params as [v|]; [|done]. unfold orEmptyObject, plainParams. intros Hp.
  destruct (truthy (Some v)); [exact Hp|reflexivity].
Qed.

Lemma cacheKey_inj_truthy (params1 params2 : option value) :
  plainParams params1 = true -> plainParams params2 = true ->
  truthy params1 = true -> truthy params2 = true ->
  cacheKey params1 = cacheKey params2 -> params1 = params2.
Proof.
  intros Hp1 Hp2 Ht1 Ht2 Heq.
  apply stringify_inj in Heq; [|by apply orEmptyObject_plain..].
  unfold orEmptyObject in Heq.
  destruct params1 as [v1|], params2 as [v2|]; try discriminate.
  rewrite Ht1, Ht2 in Heq. by rewrite Heq.
Qed.

(** X20. On plain parameter values (null, booleans, safe integers,
    strings, arrays, and objects none of whose keys is an array index)
    [JSON.stringify] gives different texts to different values.  So the
    cache key tells such parameters apart: two of them get the same
    cache key only when they are the same value, or when each is falsy
    or the empty object (and has the key of the empty object). *)
Theorem cacheKey_tells_params_apart (params1 params2 : option value) :
  plainParams params1 = true -> plainParams params2 = true ->
  (forall v1 v2, plainData v1 = true -> plainData v2 = true ->
                 stringify v1 = stringify v2 -> v1 = v2) /\
  (cacheKey params1 = cacheKey params2 ->
   params1 = params2 \/
   (truthy params1 = false \/ params1 = Some (Obj [])) /\
   (truthy params2 = false \/ params2 = Some (Obj []))).
Proof.
  intros Hp1 Hp2. split; [exact stringify_inj|].
  unfold cacheKey. intros Heq.
  apply stringify_inj in Heq; [|by apply orEmptyObject_plain..].
  unfold orEmptyObject in Heq.
  destruct params1 as [v1|], params2 as [v2|].
  - destruct (truthy (Some v1)) eqn:Ht1, (truthy (Some v2)) eqn:Ht2.
    + left. by rewrite Heq.
    + right. split; [right; by rewrite Heq|by left].
    + right. split; [by left|right; by rewrite <- Heq].
    + right. split; by left.
  - destruct (truthy (Some v1)) eqn:Ht1.
    + right. split; [right; by rewrite Heq|by left].
    + right. split; by left.
  - destruct (truthy (Some v2)) eqn:Ht2.
    + right. split; [by left|right; by rewrite <- Heq].
    + right. split; by left.
  - by left.
Qed.

(** X21. Reads of one resource with two different truthy plain parameter
    values (null, booleans, safe integers, strings, arrays, and objects
    none of whose keys is an array index) never share an entry: from a
    resource that has neither, the second read is not served by the
    fetch of the first, it starts a fetch of its own and gets a promise
    of its own. *)
Theorem different_params_different_fetches {V E : Type}
    (w : ResourceCache.World V E) (i : nat) (r : ResourceCache.Resource V E)
    (params1 params2 : option value) :
  ResourceCache.resourceRegistry w !! i = Some r ->
  plainParams params1 = true -> plainParams params2 = true ->
  truthy params1 = true -> truthy params2 = true -> params1 <> params2 ->
  ResourceCache.resourceState r params1 = ResourceCache.Init ->
  ResourceCache.resourceState r params2 = ResourceCache.Init ->
  exists w1 w2,
    ResourceCache.unstable_useResource i params1 w =
      Some (w1, ResourceCache.Suspended (length (ResourceCache.fetchCalls w))) /\
    ResourceCache.unstable_useResource i params2 w1 =
      Some (w2, ResourceCache.Suspended (length (ResourceCache.fetchCalls w) + 1)) /\
    ResourceCache.fetchCalls w2 =
      ResourceCache.fetchCalls w ++ [(i, params1); (i, params2)].
Proof.
  intros Hr Hp1 Hp2 Ht1 Ht2 Hne Hinit1 Hinit2.
  destruct (read_init w i r params1 Hr Hinit1) as (w1 & Hread1 & Hcalls1 & _ & _ & Hr1).
  assert (cacheKey params1 <> cacheKey params2) as Hkeys
    by (intros Hk; by apply Hne, cacheKey_inj_truthy).
  destruct (read_init w1 i _ params2 Hr1) as (w2 & Hread2 & Hcalls2 & _).
  { unfold ResourceCache.resourceState in *. simpl.
    by rewrite lookup_insert_ne. }
  rewrite Hcalls1, length_app in Hread2. simpl in Hread2.
  exists w1, w2. split; [exact Hread1|]. split; [exact Hread2|].
  by rewrite Hcalls2, Hcalls1, <- app_assoc.
Qed.

(** Array indices are enumerated in ascending order whatever the order
    of their insertion, so two objects that hold the same array indices
    have one cache key. *)
Example index_keys_are_enumerated_in_order :
  cacheKey (Some (Obj [("2", Num 2); ("b", Null); ("1", Num 1)])) =
  cacheKey (Some (Obj [("1", Num 1); ("2", Num 2); ("b", Null)])).
Proof. reflexivity. Qed.

End Serialization.

(** * The further properties at sample inputs *)

(** A fetch past the cache of the sample resource, then a read. *)
Lemma fetch_bypasses_cache_witness :
  ResourceCache.resourceRegistry Samples.freshWorld !! 0 = Some Samples.regularResource /\
  ResourceCache.resourceState Samples.regularResource None = ResourceCache.Init /\
  ResourceCache.resourceRegistry
    (ResourceCache.settle (ResourceCache.fetch 0 None Samples.freshWorld).2 (inl 5)
       (ResourceCache.fetch 0 None Samples.freshWorld).1) =
    ResourceCache.resourceRegistry Samples.freshWorld.
Proof.
  split; [reflexivity|]. split; [reflexivity|].
  destruct (fetch_bypasses_cache Samples.freshWorld 0 Samples.regularResource None
              (inl 5) eq_refl eq_refl) as (_ & Hregistry & _).
  exact Hregistry.
Defined.

(** The listener 9 is added to the sample resource and called once. *)
Lemma subscription_lifecycle_witness :
  ResourceCache.resourceRegistry Samples.freshWorld !! 0 = Some Samples.regularResource /\
  ResourceCache.cachePolicy Samples.regularResource <> Some ResourceCache.NoClear /\
  ResourceCache.timesCalled 0 9
    (ResourceCache.clearAllCaches (ResourceCache.subscribe 0 9 Samples.freshWorld)) =
    ResourceCache.timesCalled 0 9 Samples.freshWorld + 1.
Proof.
  split; [reflexivity|]. split; [discriminate|].
  exact (proj1 (subscription_lifecycle Samples.freshWorld 0 Samples.regularResource 9
                  eq_refl ltac:(discriminate))).
Defined.

(** The cached value 1 of the sample world is still returned locally
    after the invalidation. *)
Lemma local_value_survives_invalidation_witness :
  ResourceCache.resourceRegistry Samples.cachedWorld !! 0 = Some Samples.cachedRegular /\
  ResourceCache.resourceState Samples.cachedRegular None = ResourceCache.Completed 1 /\
  ResourceCache.cachePolicy Samples.cachedRegular <> Some ResourceCache.NoClear /\
  ResourceLocal.unstable_useResourceLocally 0 None (Some (1, Json.cacheKey None))
    (ResourceCache.clearAllCaches Samples.cachedWorld) =
    Some (ResourceCache.clearAllCaches Samples.cachedWorld,
          Some (1, Json.cacheKey None), ResourceCache.Returned 1).
Proof.
  split; [reflexivity|]. split; [reflexivity|]. split; [discriminate|].
  destruct (local_value_survives_invalidation Samples.cachedWorld 0 Samples.cachedRegular
              None 1 eq_refl eq_refl ltac:(discriminate)) as (_ & Hlocal & _).
  exact Hlocal.
Defined.

(** With the value for [undefined] in the ref, a local read of
    [{a: 1, b: 2}] suspends. *)
Lemma local_read_follows_key_change_witness :
  ResourceCache.resourceRegistry Samples.cachedWorld !! 0 = Some Samples.cachedRegular /\
  Json.cacheKey (Some Samples.paramsAB) <> Json.cacheKey None /\
  exists w1,
    ResourceLocal.unstable_useResourceLocally 0 (Some Samples.paramsAB)
      (Some (1, Json.cacheKey None)) Samples.cachedWorld =
      Some (w1, Some (1, Json.cacheKey None), ResourceCache.Suspended 2).
Proof.
  assert (Json.cacheKey (Some Samples.paramsAB) <> Json.cacheKey None) as Hkey
    by (vm_compute; discriminate).
  split; [reflexivity|]. split; [exact Hkey|].
  destruct (local_read_follows_key_change Samples.cachedWorld 0 Samples.cachedRegular
              None (Some Samples.paramsAB) 1 eq_refl Hkey) as (Hinit & _).
  destruct (Hinit eq_refl) as (w1 & Hread & _).
  exists w1. exact Hread.
Defined.

(** A mutation that fails leaves the cached value 1 in place. *)
Lemma mutation_refetches_regular_only_witness :
  ResourceCache.resourceRegistry Samples.cachedWorld !! 0 = Some Samples.cachedRegular /\
  ResourceCache.resourceState Samples.cachedRegular None = ResourceCache.Completed 1 /\
  ResourceCache.unstable_useResource 0 None
    (ResourceCache.settle (ResourceCache.perform 1 None Samples.cachedWorld).2
       (inr "rejected") (ResourceCache.perform 1 None Samples.cachedWorld).1) =
    Some (ResourceCache.settle (ResourceCache.perform 1 None Samples.cachedWorld).2
            (inr "rejected") (ResourceCache.perform 1 None Samples.cachedWorld).1,
          ResourceCache.Returned 1).
Proof.
  split; [reflexivity|]. split; [reflexivity|].
  destruct (mutation_refetches_regular_only Samples.cachedWorld 0 Samples.cachedRegular
              None 1 0 1 None eq_refl eq_refl) as (_ & Hfailed).
  exact (Hfailed "rejected").
Defined.

(** The first render of a reader with listener 9 that reads the cached
    value of the sample world: the listener joins the listeners 3 and 4
    of the resource, none is called, and the other resource is
    untouched. *)
Lemma read_is_local_witness :
  exists w',
    ResourceMount.unstable_useResource_mounted 0 None 9 Samples.cachedWorld =
      Some (w', ResourceCache.Returned 1) /\
    ResourceCache.notifications w' = [] /\
    ResourceCache.resourceRegistry w' !! 1 = Some Samples.cachedNoClear /\
    exists r',
      ResourceCache.resourceRegistry w' !! 0 = Some r' /\
      ResourceCache.subcriptions r' = {[9]} ∪ {[3; 4]}.
Proof.
  eexists. split; [reflexivity|].
  destruct (read_is_local Samples.cachedWorld 0 None 9 _ _ eq_refl)
    as (Hn & _ & _ & Hother & r & r' & Hr & Hr' & _ & Hsubs & _).
  split; [exact Hn|]. split; [exact (Hother 1 ltac:(discriminate))|].
  exists r'. split; [exact Hr'|].
  injection Hr as <-. exact Hsubs.
Defined.

(** Two fetches in flight for the key of [undefined]: the older value 1
    replaces the newer value 2. *)
Lemma stale_fetch_overwrites_fresh_witness :
  ResourceCache.resourceRegistry Samples.freshWorld !! 0 = Some Samples.regularResource /\
  ResourceCache.resourceState Samples.regularResource None = ResourceCache.Init /\
  ResourceCache.cachePolicy Samples.regularResource <> Some ResourceCache.NoClear /\
  exists w3 : ResourceCache.World nat string,
    ResourceCache.stateOf 0 None
      (ResourceCache.settle 0 (inl 1) (ResourceCache.settle 1 (inl 2) w3)) =
      Some (ResourceCache.Completed 1).
Proof.
  split; [reflexivity|]. split; [reflexivity|]. split; [discriminate|].
  destruct (stale_fetch_overwrites_fresh Samples.freshWorld 0 Samples.regularResource
              None 1 2 eq_refl eq_refl ltac:(discriminate))
    as (w1 & w3 & _ & _ & _ & _ & _ & _ & Holder & _).
  exists w3. exact Holder.
Defined.

(** The three uses of [search] in the sample query are its three
    declarations. *)
Lemma used_variables_are_declared_witness :
  Introspection.buildQueryAST Samples.sampleTitle Samples.patientSchema
    ["patients"; "edges"; "node"] None = Introspection.Ok Samples.patientQuery /\
  concat (map Document.usedVariables
            (Introspection.selectionSet
               (Introspection.queryDefinition Samples.patientQuery))) =
    map Introspection.variable
      (Introspection.variableDefinitions
         (Introspection.queryDefinition Samples.patientQuery)).
Proof.
  assert (Introspection.buildQueryAST Samples.sampleTitle Samples.patientSchema
            ["patients"; "edges"; "node"] None = Introspection.Ok Samples.patientQuery)
    as Hq by (vm_compute; reflexivity).
  split; [exact Hq|].
  exact (proj1 (used_variables_are_declared _ _ _ _ _ Hq)).
Defined.

(** Of the two entries that require [name], the second gives the
    sub-selection [first], and [name] is selected once. *)
Lemma last_entry_decides_subselection_witness :
  NoDup (map Introspection.field_name (Introspection.type_fields Samples.patientType)) /\
  Samples.plainField "name" (Samples.scalar "String")
    ∈ Introspection.type_fields Samples.patientType /\
  exists sel,
    Introspection.buildSelectionSet Samples.sampleTitle ∅ Samples.patientType []
      (Some MoreSamples.nameTwice) = Introspection.Ok sel /\
    List.filter (fun node => String.eqb (Introspection.node_name node) "name")
      (Introspection.sel_selectionSet sel) =
      [Introspection.FieldN "name" [] [Introspection.FieldN "first" [] []]].
Proof.
  assert (NoDup (map Introspection.field_name
                   (Introspection.type_fields Samples.patientType))) as Hnd
    by (apply (bool_decide_unpack _); vm_compute; reflexivity).
  assert (Samples.plainField "name" (Samples.scalar "String")
            ∈ Introspection.type_fields Samples.patientType) as Hfield
    by (apply list_elem_of_further, list_elem_of_here).
  split; [exact Hnd|]. split; [exact Hfield|].
  destruct (last_entry_decides_subselection Samples.sampleTitle ∅ Samples.patientType
              MoreSamples.nameTwice _
              ("secondaryText",
               Introspection.mkFieldSpec "Name again"
                 (Introspection.mkQuery "name"
                    (Some [Introspection.mkQuery "first" None])))
              Hnd Hfield eq_refl) as (sel & Hsel & _ & Hone & _).
  exists sel. split; [exact Hsel|exact Hone].
Defined.

(** The description of the sample query is that of [patients]. *)
Lemma description_is_of_first_hop_witness :
  Introspection.buildQueryAST Samples.sampleTitle Samples.patientSchema
    ["patients"; "edges"; "node"] None = Introspection.Ok Samples.patientQuery /\
  exists root hops target,
    Introspection.walkPath (Introspection.buildTypesMap Samples.patientSchema) root
      ["patients"; "edges"; "node"] = Introspection.Ok (hops, target) /\
    Introspection.description Samples.patientQuery =
      match hops with
      | [] => None
      | firstHop :: _ => Introspection.field_description firstHop
      end.
Proof.
  assert (Introspection.buildQueryAST Samples.sampleTitle Samples.patientSchema
            ["patients"; "edges"; "node"] None = Introspection.Ok Samples.patientQuery)
    as Hq by (vm_compute; reflexivity).
  split; [exact Hq|].
  destruct (description_is_of_first_hop _ _ _ _ _ Hq)
    as (root & hops & target & _ & Hwalk & _ & Hdescription).
  exists root, hops, target. split; [exact Hwalk|exact Hdescription].
Defined.

(** From the default state, next page and previous page lead back. *)
Lemma next_then_previous_page_witness :
  (0 <= PickRenderer.offset (PickRenderer.defaultPickState true))%Z /\
  PickRenderer.click PickRenderer.PrevPage
    (PickRenderer.click PickRenderer.NextPage (PickRenderer.defaultPickState true)) =
    PickRenderer.defaultPickState true.
Proof.
  assert (0 <= PickRenderer.offset (PickRenderer.defaultPickState true))%Z as Hoffset
    by (simpl; lia).
  split; [exact Hoffset|].
  exact (proj1 (next_then_previous_page (PickRenderer.defaultPickState true) Hoffset)).
Defined.

(** The filter [active] is set in the default state. *)
Lemma setFilterState_updates_one_filter_witness :
  NoDup (Dict.keys (PickRenderer.filter (PickRenderer.defaultPickState false))) /\
  Dict.get "active"
    (PickRenderer.filter
       (PickRenderer.setFilterState "active" (Some true)
          (PickRenderer.defaultPickState false))) = Some (Some true).
Proof.
  assert (NoDup (Dict.keys (PickRenderer.filter (PickRenderer.defaultPickState false))))
    as Hnd by apply NoDup_nil_2.
  split; [exact Hnd|].
  destruct (setFilterState_updates_one_filter "active" (Some true)
              (PickRenderer.defaultPickState false) Hnd)
    as (_ & _ & _ & _ & Hget & _).
  exact Hget.
Defined.

(** The parameters [{a: 1, b: 2}] and [{b: 2, a: 1}] are plain, and
    have two cache keys. *)
Lemma cacheKey_tells_params_apart_witness :
  JsonShape.plainParams (Some Samples.paramsAB) = true /\
  JsonShape.plainParams (Some Samples.paramsBA) = true /\
  (Json.cacheKey (Some Samples.paramsAB) = Json.cacheKey (Some Samples.paramsBA) ->
   Some Samples.paramsAB = Some Samples.paramsBA \/
   (Json.truthy (Some Samples.paramsAB) = false \/
    Some Samples.paramsAB = Some (Json.Obj [])) /\
   (Json.truthy (Some Samples.paramsBA) = false \/
    Some Samples.paramsBA = Some (Json.Obj []))).
Proof.
  split; [reflexivity|]. split; [reflexivity|].
  exact (proj2 (cacheKey_tells_params_apart (Some Samples.paramsAB)
                  (Some Samples.paramsBA) eq_refl eq_refl)).
Defined.

(** Reads of [{a: 1, b: 2}] and of [{b: 2, a: 1}] start two fetches. *)
Lemma different_params_different_fetches_witness :
  ResourceCache.resourceRegistry Samples.freshWorld !! 0 = Some Samples.regularResource /\
  JsonShape.plainParams (Some Samples.paramsAB) = true /\
  JsonShape.plainParams (Some Samples.paramsBA) = true /\
  Some Samples.paramsAB <> Some Samples.paramsBA /\
  exists w1 w2,
    ResourceCache.unstable_useResource 0 (Some Samples.paramsAB) Samples.freshWorld =
      Some (w1, ResourceCache.Suspended
                  (length (ResourceCache.fetchCalls Samples.freshWorld))) /\
    ResourceCache.unstable_useResource 0 (Some Samples.paramsBA) w1 =
      Some (w2, ResourceCache.Suspended
                  (length (ResourceCache.fetchCalls Samples.freshWorld) + 1)).
Proof.
  split; [reflexivity|]. split; [reflexivity|]. split; [reflexivity|].
  split; [discriminate|].
  destruct (different_params_different_fetches Samples.freshWorld 0
              Samples.regularResource (Some Samples.paramsAB) (Some Samples.paramsBA)
              eq_refl eq_refl eq_refl eq_refl eq_refl ltac:(discriminate) eq_refl eq_refl)
    as (w1 & w2 & Hread1 & Hread2 & _).
  exists w1, w2. split; [exact Hread1|exact Hread2].
Defined.

(** The sample query is the chain [patients], [edges], [node] around the
    columns. *)
Lemma document_follows_path_witness :
  Introspection.buildSelectionSet Samples.sampleTitle
    (Introspection.buildTypesMap Samples.patientSchema) Samples.queryRootType
    ["patients"; "edges"; "node"] (Some Samples.nameOnly) =
    Introspection.Ok
      (Introspection.mkSelection
         [Introspection.FieldN "patients" [Samples.searchArgument]
            [Introspection.FieldN "edges" [Samples.searchArgument]
               [Introspection.FieldN "node" []
                  [Introspection.FieldN "id" [] []; Introspection.FieldN "name" [] []]]]]
         [Introspection.FieldN "id" [] []; Introspection.FieldN "name" [] []]
         [Introspection.mkInputValue "search" (Samples.scalar "String");
          Introspection.mkInputValue "search" (Samples.scalar "String")]
         Samples.nameOnly (Some "All patients")) /\
  exists hops target,
    Introspection.walkPath (Introspection.buildTypesMap Samples.patientSchema)
      Samples.queryRootType ["patients"; "edges"; "node"] =
      Introspection.Ok (hops, target) /\
    map Introspection.field_name hops = ["patients"; "edges"; "node"].
Proof.
  assert (Introspection.buildSelectionSet Samples.sampleTitle
    (Introspection.buildTypesMap Samples.patientSchema) Samples.queryRootType
    ["patients"; "edges"; "node"] (Some Samples.nameOnly) =
    Introspection.Ok
      (Introspection.mkSelection
         [Introspection.FieldN "patients" [Samples.searchArgument]
            [Introspection.FieldN "edges" [Samples.searchArgument]
               [Introspection.FieldN "node" []
                  [Introspection.FieldN "id" [] []; Introspection.FieldN "name" [] []]]]]
         [Introspection.FieldN "id" [] []; Introspection.FieldN "name" [] []]
         [Introspection.mkInputValue "search" (Samples.scalar "String");
          Introspection.mkInputValue "search" (Samples.scalar "String")]
         Samples.nameOnly (Some "All patients"))) as Hsel by (vm_compute; reflexivity).
  split; [exact Hsel|].
  destruct (document_follows_path _ _ _ _ _ _ Hsel)
    as (hops & target & Hwalk & Hnames & _).
  exists hops, target. split; [exact Hwalk|exact Hnames].
Defined.
